(** * Two arcade games: a falling-block puzzle (main.py) and a fixed shooter
      (space_invader.py)

    The development embeds the game logic of both programs shallowly.
    Python integers are [Z]; Python lists are [list], read with stdpp's
    lookup and written with stdpp's insert behind explicit range checks; an
    [IndexError] is [None].  What the programs obtain from the outside (key
    events, the clock, the random generator) enters a frame as an explicit
    input. *)

From Stdlib Require Import ZArith QArith Lia.
From stdpp Require Import base tactics numbers option list.

#[local] Open Scope Z_scope.

(** ** Python list primitives *)

Section PyList.
Context {A : Type}.

(** [l[i]]: a negative index counts from the end, anything out of range
    raises. *)
Definition py_get (l : list A) (i : Z) : option A :=
  if decide (0 ≤ i) then l !! Z.to_nat i
  else if decide (0 ≤ i + Z.of_nat (length l))
       then l !! Z.to_nat (i + Z.of_nat (length l))
       else None.

(** [l[i] = v] *)
Definition py_set (l : list A) (i : Z) (v : A) : option (list A) :=
  if decide (0 ≤ i) then
    if decide (i < Z.of_nat (length l)) then Some (<[Z.to_nat i := v]> l)
    else None
  else if decide (0 ≤ i + Z.of_nat (length l))
       then Some (<[Z.to_nat (i + Z.of_nat (length l)) := v]> l)
       else None.

(** [zip( *rows )], every tuple turned into a list: the result is as long
    as the shortest row, and empty when there is no row at all. *)
Fixpoint zip_star (rows : list (list A)) : list (list A) :=
  match rows with
  | [] => []
  | r :: rs =>
      match rs with
      | [] => map (λ c, [c]) r
      | _ :: _ => zip_with cons r (zip_star rs)
      end
  end.
End PyList.

(** What the window system delivers.  Only [QUIT] and [KEYDOWN] are looked
    at by the programs; every other event is [OTHER_EVENT], every other key
    [K_OTHER]. *)
Inductive Key : Type := K_LEFT | K_RIGHT | K_DOWN | K_UP | K_SPACE | K_OTHER.

Inductive Event : Type :=
  | QUIT
  | KEYDOWN (key : Key)
  | OTHER_EVENT.

#[global] Instance Key_eq_dec : EqDecision Key.
Proof. solve_decision. Defined.

#[global] Instance Event_eq_dec : EqDecision Event.
Proof. solve_decision. Defined.

(** The outcome of a loop run with a bounded number of iterations. *)
Inductive run (A : Type) : Type :=
  | Returns (a : A)
  | Raises
  | OutOfFuel.
Arguments Returns {A} a.
Arguments Raises {A}.
Arguments OutOfFuel {A}.

(** ** The puzzle game (main.py) *)

Module Tetris.

Definition GRID_WIDTH : Z := 10.
Definition GRID_HEIGHT : Z := 20.

Definition SHAPES : list (list (list Z)) :=
  [ [[1; 1; 1; 1]];
    [[1; 1];
     [1; 1]];
    [[0; 1; 0];
     [1; 1; 1]];
    [[0; 1; 1];
     [1; 1; 0]];
    [[1; 1; 0];
     [0; 1; 1]];
    [[1; 0; 0];
     [1; 1; 1]];
    [[0; 0; 1];
     [1; 1; 1]] ].

Record Piece : Type := mkPiece {
  shape_idx : Z;
  color_idx : Z;
  shape : list (list Z);
  x : Z;
  y : Z;
  rotation : Z
}.

(** [Piece.__init__] *)
Definition Piece_init (sidx cidx : Z) : option Piece :=
  sh ← py_get SHAPES sidx;
  top ← py_get sh 0;
  Some {| shape_idx := sidx; color_idx := cidx; shape := sh;
          x := GRID_WIDTH / 2 - Z.of_nat (length top) / 2;
          y := 0; rotation := 0 |}.

(** One pass of the loop body of [get_rotated_shape]:
    [[list(row) for row in zip( *shape[::-1])]]. *)
Definition rotate_cw (sh : list (list Z)) : list (list Z) :=
  zip_star (reverse sh).

(** [range(n)] is empty for a negative [n]. *)
Definition get_rotated_shape (p : Piece) : list (list Z) :=
  Nat.iter (Z.to_nat (rotation p)) rotate_cw (shape p).

(** The inner loop of [get_cells]: the cells of one row, from column [col]
    on. *)
Fixpoint row_cells (p : Piece) (line col : Z) (row : list Z) : list (Z * Z) :=
  match row with
  | [] => []
  | cell :: row' =>
      if decide (cell ≠ 0)
      then (x p + col, y p + line) :: row_cells p line (col + 1) row'
      else row_cells p line (col + 1) row'
  end.

(** The outer loop of [get_cells], from row [line] on. *)
Fixpoint shape_cells (p : Piece) (line : Z) (rows : list (list Z)) : list (Z * Z) :=
  match rows with
  | [] => []
  | row :: rows' => row_cells p line 0 row ++ shape_cells p (line + 1) rows'
  end.

Definition get_cells (p : Piece) : list (Z * Z) :=
  shape_cells p 0 (get_rotated_shape p).

Definition zero_row : list Z := replicate (Z.to_nat GRID_WIDTH) 0.

Definition create_grid : list (list Z) :=
  replicate (Z.to_nat GRID_HEIGHT) zero_row.

(** The random generator's draw [rnd] of [random.randint(0, len(SHAPES) - 1)]
    is an input. *)
Definition get_random_piece (rnd : Z) : option Piece :=
  Piece_init rnd (rnd + 1).

(** The loop of [is_valid_position] over the cells. *)
Fixpoint cells_valid (cells : list (Z * Z)) (grid : list (list Z)) : option bool :=
  match cells with
  | [] => Some true
  | (cx, cy) :: rest =>
      if decide (cx < 0 ∨ cx >= GRID_WIDTH ∨ cy >= GRID_HEIGHT) then Some false
      else if decide (cy >= 0) then
        row ← py_get grid cy;
        cell ← py_get row cx;
        if decide (cell ≠ 0) then Some false else cells_valid rest grid
      else cells_valid rest grid
  end.

Definition is_valid_position (p : Piece) (grid : list (list Z)) : option bool :=
  cells_valid (get_cells p) grid.

(** The loop of [lock_piece] over the cells. *)
Fixpoint lock_cells (cells : list (Z * Z)) (color : Z) (grid : list (list Z))
  : option (list (list Z)) :=
  match cells with
  | [] => Some grid
  | (cx, cy) :: rest =>
      if decide ((0 ≤ cy < GRID_HEIGHT) ∧ (0 ≤ cx < GRID_WIDTH)) then
        row ← py_get grid cy;
        row' ← py_set row cx color;
        grid' ← py_set grid cy row';
        lock_cells rest color grid'
      else lock_cells rest color grid
  end.

Definition lock_piece (p : Piece) (grid : list (list Z)) : option (list (list Z)) :=
  lock_cells (get_cells p) (color_idx p) grid.

(** [all(cell != 0 for cell in row)] *)
Definition full (row : list Z) : Prop := Forall (λ cell, cell ≠ 0) row.

#[global] Instance full_dec row : Decision (full row).
Proof. unfold full. apply _. Defined.

(** The [while y >= 0] loop of [clear_lines], run for at most [fuel]
    iterations (the final test of the condition included). *)
Fixpoint clear_lines_loop (fuel : nat) (grid : list (list Z)) (line lines_cleared : Z)
  : run (list (list Z) * Z) :=
  match fuel with
  | O => OutOfFuel
  | S fuel' =>
      if decide (line >= 0) then
        match py_get grid line with
        | None => Raises
        | Some row =>
            if decide (full row)
            then clear_lines_loop fuel'
                   (zero_row :: delete (Z.to_nat line) grid) line (lines_cleared + 1)
            else clear_lines_loop fuel' grid (line - 1) lines_cleared
        end
      else Returns (grid, lines_cleared)
  end.

(** A row is removed at most once for each of the [GRID_HEIGHT] positions the
    scan visits, so [2 * GRID_HEIGHT + 1] iterations are always enough (see
    [clear_lines_loop_fuel]). *)
Definition clear_lines_fuel : nat := Z.to_nat (2 * GRID_HEIGHT + 1).

Definition clear_lines (grid : list (list Z)) : option (list (list Z) * Z) :=
  match clear_lines_loop clear_lines_fuel grid (GRID_HEIGHT - 1) 0 with
  | Returns r => Some r
  | _ => None
  end.

Definition is_game_over (p : Piece) (grid : list (list Z)) : option bool :=
  negb <$> is_valid_position p grid.

(** *** The game loop of [main] *)

Definition set_x (v : Z) (p : Piece) : Piece :=
  {| shape_idx := shape_idx p; color_idx := color_idx p; shape := shape p;
     x := v; y := y p; rotation := rotation p |}.

Definition set_y (v : Z) (p : Piece) : Piece :=
  {| shape_idx := shape_idx p; color_idx := color_idx p; shape := shape p;
     x := x p; y := v; rotation := rotation p |}.

Definition set_rotation (v : Z) (p : Piece) : Piece :=
  {| shape_idx := shape_idx p; color_idx := color_idx p; shape := shape p;
     x := x p; y := y p; rotation := v |}.

(** The state the loop of [main] carries from frame to frame.  [fall_time]
    and [last_time] are wall-clock floats: whether [fall_time >= fall_speed]
    holds in a frame is an input of that frame. *)
Record Game : Type := mkGame {
  grid : list (list Z);
  current_piece : Piece;
  next_piece : Piece;
  running : bool;
  game_over : bool
}.

Definition set_current_piece (p : Piece) (g : Game) : Game :=
  {| grid := grid g; current_piece := p; next_piece := next_piece g;
     running := running g; game_over := game_over g |}.

Definition set_running (b : bool) (g : Game) : Game :=
  {| grid := grid g; current_piece := current_piece g;
     next_piece := next_piece g; running := b; game_over := game_over g |}.

(** The [KEYDOWN] branches: mutate the piece, test it, undo if the test
    fails. *)
Definition handle_key (key : Key) (p : Piece) (gr : list (list Z)) : option Piece :=
  match key with
  | K_LEFT =>
      let p1 := set_x (x p - 1) p in
      ok ← is_valid_position p1 gr;
      Some (if negb ok then set_x (x p1 + 1) p1 else p1)
  | K_RIGHT =>
      let p1 := set_x (x p + 1) p in
      ok ← is_valid_position p1 gr;
      Some (if negb ok then set_x (x p1 - 1) p1 else p1)
  | K_DOWN =>
      let p1 := set_y (y p + 1) p in
      ok ← is_valid_position p1 gr;
      Some (if negb ok then set_y (y p1 - 1) p1 else p1)
  | K_UP =>
      let p1 := set_rotation ((rotation p + 1) `mod` 4) p in
      ok ← is_valid_position p1 gr;
      Some (if negb ok then set_rotation ((rotation p1 - 1) `mod` 4) p1 else p1)
  | _ => Some p
  end.

(** The body of [for event in pygame.event.get()]. *)
Definition handle_event (ev : Event) (g : Game) : option Game :=
  let g1 := if decide (ev = QUIT) then set_running false g else g in
  if negb (game_over g1) then
    match ev with
    | KEYDOWN key =>
        p ← handle_key key (current_piece g1) (grid g1);
        Some (set_current_piece p g1)
    | _ => Some g1
    end
  else Some g1.

Fixpoint handle_events (evs : list Event) (g : Game) : option Game :=
  match evs with
  | [] => Some g
  | ev :: evs' => g1 ← handle_event ev g; handle_events evs' g1
  end.

(** The automatic fall, [fall_due] telling whether [fall_time >= fall_speed];
    [rnd] is the draw of the random generator, used if a piece is spawned. *)
Definition fall (fall_due : bool) (rnd : Z) (g : Game) : option Game :=
  if negb (game_over g) then
    if fall_due then
      let p1 := set_y (y (current_piece g) + 1) (current_piece g) in
      ok ← is_valid_position p1 (grid g);
      if negb ok then
        let p2 := set_y (y p1 - 1) p1 in
        gr1 ← lock_piece p2 (grid g);
        '(gr2, lines_cleared) ← clear_lines gr1;
        fresh ← get_random_piece rnd;
        over ← is_game_over (next_piece g) gr2;
        Some {| grid := gr2; current_piece := next_piece g; next_piece := fresh;
                running := running g;
                game_over := if (over : bool) then true else game_over g |}
      else Some (set_current_piece p1 g)
    else Some g
  else Some g.

Record Input : Type := mkInput {
  events : list Event;
  fall_due : bool;
  rnd : Z
}.

(** One iteration of [while running]. *)
Definition frame (inp : Input) (g : Game) : option Game :=
  g1 ← handle_events (events inp) g;
  fall (fall_due inp) (rnd inp) g1.

(** The state on entry to the loop, from the two initial draws. *)
Definition start (rnd1 rnd2 : Z) : option Game :=
  p1 ← get_random_piece rnd1;
  p2 ← get_random_piece rnd2;
  Some {| grid := create_grid; current_piece := p1; next_piece := p2;
          running := true; game_over := false |}.

(** [random.randint(0, len(SHAPES) - 1)] *)
Definition randint_shape (v : Z) : Prop := 0 ≤ v ≤ Z.of_nat (length SHAPES) - 1.

(** The states of the loop: the loop runs another iteration only while
    [running] holds. *)
Inductive reachable : Game → Prop :=
  | reachable_start rnd1 rnd2 g :
      randint_shape rnd1 → randint_shape rnd2 →
      start rnd1 rnd2 = Some g → reachable g
  | reachable_frame g inp g' :
      reachable g → running g = true → randint_shape (rnd inp) →
      frame inp g = Some g' → reachable g'.

End Tetris.

(** ** The shooter (space_invader.py) *)

(** Python numbers: [alien_speed] is an [int] until [0.5] is added to it.
    The floats that occur are small multiples of one half, which binary
    floating point represents exactly, so a rational stands for them. *)
Inductive number : Type :=
  | Int (n : Z)
  | Float (q : Q).

Definition to_Q (v : number) : Q :=
  match v with
  | Int n => inject_Z n
  | Float q => q
  end.

(** [v + 0.5] *)
Definition add_half (v : number) : number := Float (Qplus (to_Q v) (Qmake 1 2)).

(** [v * d] for an [int] [d] *)
Definition mul_int (v : number) (d : Z) : number :=
  match v with
  | Int n => Int (n * d)
  | Float q => Float (Qmult q (inject_Z d))
  end.

(** [c += v] for a coordinate [c] of a rectangle: coordinates are integers,
    a float result is rounded to the nearest integer when it is stored, a
    half away from zero. *)
Definition coord_add (c : Z) (v : number) : Z :=
  match v with
  | Int n => c + n
  | Float q =>
      let s := Qplus (inject_Z c) q in
      let n := Qnum s in
      let d := Z.pos (Qden s) in
      if decide (0 ≤ n) then (2 * n + d) / (2 * d)
      else - ((2 * (- n) + d) / (2 * d))
  end.

(** [if v in l: l.remove(v)]: the first occurrence goes. *)
Fixpoint discard (v : nat) (l : list nat) : list nat :=
  match l with
  | [] => []
  | u :: l' => if decide (u = v) then l' else u :: discard v l'
  end.

(** [max(l, key=key)]: the first of the maximal elements; raises on an empty
    list. *)
Definition py_max_by {A : Type} (key : A → Z) (l : list A) : option A :=
  match l with
  | [] => None
  | a :: l' =>
      Some (fold_left (λ best c, if decide (key c > key best) then c else best) l' a)
  end.

Module Invaders.

Definition SCREEN_WIDTH : Z := 800.
Definition SCREEN_HEIGHT : Z := 600.
Definition PLAYER_SPEED : Z := 5.
Definition BULLET_SPEED : Z := 7.
Definition ALIEN_SPEED : Z := 1.
Definition ALIEN_DROP : Z := 20.
Definition ALIEN_ROWS : Z := 5.
Definition ALIEN_COLS : Z := 10.
Definition ALIEN_WIDTH : Z := 40.
Definition ALIEN_HEIGHT : Z := 30.
Definition PLAYER_WIDTH : Z := 50.
Definition PLAYER_HEIGHT : Z := 30.
Definition BULLET_WIDTH : Z := 3.
Definition BULLET_HEIGHT : Z := 10.

(** The locals of [main] that never change. *)
Definition global_alien_shot_cooldown : Z := 500.
Definition alien_move_delay : Z := 50.
Definition alien_drop_cooldown : Z := 300.

(** *** Rectangles *)

Record Rect : Type := mkRect { x : Z; y : Z; w : Z; h : Z }.

Definition left (r : Rect) : Z := x r.
Definition right (r : Rect) : Z := x r + w r.
Definition top (r : Rect) : Z := y r.
Definition bottom (r : Rect) : Z := y r + h r.
Definition centerx (r : Rect) : Z := x r + w r / 2.

Definition set_rect_x (v : Z) (r : Rect) : Rect :=
  {| x := v; y := y r; w := w r; h := h r |}.
Definition set_rect_y (v : Z) (r : Rect) : Rect :=
  {| x := x r; y := v; w := w r; h := h r |}.

(** [Surface([width, height]).get_rect()] *)
Definition get_rect (width height : Z) : Rect :=
  {| x := 0; y := 0; w := width; h := height |}.

(** [a.colliderect(b)]: the rectangles overlap in an area; a rectangle of
    width or height zero collides with nothing. *)
Definition colliderect (a b : Rect) : Prop :=
  ¬ (w a = 0 ∨ h a = 0 ∨ w b = 0 ∨ h b = 0) ∧
  Z.min (x a) (x a + w a) < Z.max (x b) (x b + w b) ∧
  Z.min (y a) (y a + h a) < Z.max (y b) (y b + h b) ∧
  Z.max (x a) (x a + w a) > Z.min (x b) (x b + w b) ∧
  Z.max (y a) (y a + h a) > Z.min (y b) (y b + h b).

#[global] Instance colliderect_dec a b : Decision (colliderect a b).
Proof. unfold colliderect. apply _. Defined.

(** *** Sprites

    A sprite is an object: two sprites are the same when they are the same
    object, whatever their fields hold.  Every sprite carries the identity
    it was created with. *)

Record Bullet : Type := mkBullet {
  bullet_id : nat;
  bullet_rect : Rect;
  bullet_direction : Z;
  bullet_speed : Z
}.

Record Alien : Type := mkAlien {
  alien_id : nat;
  alien_rect : Rect;
  alien_direction : Z;
  last_shot : Z;
  shot_delay : Z
}.

(** [bullets] holds references to the bullets, which live in the sprite
    group [player_bullets]. *)
Record Player : Type := mkPlayer {
  player_rect : Rect;
  player_speed : Z;
  bullets : list nat;
  max_bullets : Z
}.

Definition set_player_rect (r : Rect) (p : Player) : Player :=
  {| player_rect := r; player_speed := player_speed p; bullets := bullets p;
     max_bullets := max_bullets p |}.

Definition set_bullets (l : list nat) (p : Player) : Player :=
  {| player_rect := player_rect p; player_speed := player_speed p; bullets := l;
     max_bullets := max_bullets p |}.

(** [Player.__init__] *)
Definition Player_init : Player :=
  let r := get_rect PLAYER_WIDTH PLAYER_HEIGHT in
  let r := set_rect_x (SCREEN_WIDTH / 2 - PLAYER_WIDTH / 2) r in
  let r := set_rect_y (SCREEN_HEIGHT - PLAYER_HEIGHT - 10) r in
  {| player_rect := r; player_speed := PLAYER_SPEED; bullets := [];
     max_bullets := 2 |}.

(** [Player.update], with [keys[K_LEFT]] and [keys[K_RIGHT]]. *)
Definition Player_update (key_left key_right : bool) (p : Player) : Player :=
  let p1 :=
    if key_left && bool_decide (left (player_rect p) > 0)
    then set_player_rect
           (set_rect_x (x (player_rect p) - player_speed p) (player_rect p)) p
    else p in
  if key_right && bool_decide (right (player_rect p1) < SCREEN_WIDTH)
  then set_player_rect
         (set_rect_x (x (player_rect p1) + player_speed p1) (player_rect p1)) p1
  else p1.

(** [Bullet.__init__], for the object of identity [id]. *)
Definition Bullet_init (id : nat) (bx by_ direction : Z) : Bullet :=
  let r := get_rect BULLET_WIDTH BULLET_HEIGHT in
  let r := set_rect_x (bx - BULLET_WIDTH / 2) r in
  let r := set_rect_y by_ r in
  {| bullet_id := id; bullet_rect := r; bullet_direction := direction;
     bullet_speed := BULLET_SPEED |}.

(** [Player.shoot]: the player and what is returned ([None] is Python's
    [None]); [id] is the identity of the bullet if one is created. *)
Definition shoot (id : nat) (p : Player) : Player * option Bullet :=
  if decide (Z.of_nat (length (bullets p)) < max_bullets p) then
    let bullet := Bullet_init id (centerx (player_rect p)) (top (player_rect p)) (-1) in
    (set_bullets (bullets p ++ [bullet_id bullet]) p, Some bullet)
  else (p, None).

(** [Alien.__init__]; [delay] is the draw of [random.randint(2000, 5000)]. *)
Definition Alien_init (id : nat) (ax ay delay : Z) : Alien :=
  let r := get_rect ALIEN_WIDTH ALIEN_HEIGHT in
  let r := set_rect_x ax r in
  let r := set_rect_y ay r in
  {| alien_id := id; alien_rect := r; alien_direction := 1; last_shot := 0;
     shot_delay := delay |}.

(** [Alien.update] *)
Definition Alien_update (current_time : Z) (speed : number) (a : Alien) : Alien :=
  {| alien_id := alien_id a;
     alien_rect :=
       set_rect_x (coord_add (x (alien_rect a)) (mul_int speed (alien_direction a)))
                  (alien_rect a);
     alien_direction := alien_direction a; last_shot := last_shot a;
     shot_delay := shot_delay a |}.

(** [Alien.should_shoot]; [delay] is the draw used if the alien shoots. *)
Definition should_shoot (current_time delay : Z) (a : Alien) : Alien * bool :=
  if decide (current_time - last_shot a > shot_delay a) then
    ({| alien_id := alien_id a; alien_rect := alien_rect a;
        alien_direction := alien_direction a; last_shot := current_time;
        shot_delay := delay |}, true)
  else (a, false).

(** [Bullet.update]: the moved bullet and the returned flag.  The flag is
    [True] exactly when the method has called [kill], which takes the bullet
    out of the groups it is in: the loops below drop it from its group. *)
Definition Bullet_update (b : Bullet) : Bullet * bool :=
  let r := set_rect_y (y (bullet_rect b) + bullet_speed b * bullet_direction b)
                      (bullet_rect b) in
  let b1 := {| bullet_id := bullet_id b; bullet_rect := r;
               bullet_direction := bullet_direction b;
               bullet_speed := bullet_speed b |} in
  if decide (bottom r < 0 ∨ top r > SCREEN_HEIGHT) then (b1, true) else (b1, false).

(** *** Sprite groups

    A group is a set of sprites iterated in the order they were added.  A
    sprite of this program is added to one group only, when it is created,
    so [kill] amounts to removing it from that group. *)

Definition bullet_group_remove (id : nat) (grp : list Bullet) : list Bullet :=
  filter (λ b, bullet_id b ≠ id) grp.

Definition alien_group_remove (id : nat) (grp : list Alien) : list Alien :=
  filter (λ a, alien_id a ≠ id) grp.

(** [Group.add] *)
Definition bullet_group_add (b : Bullet) (grp : list Bullet) : list Bullet :=
  if decide (bullet_id b ∈ bullet_id <$> grp) then grp else grp ++ [b].

(** The row and column loops of [setup_aliens]; [delays] gives the random
    draw of each alien. *)
Definition setup_aliens (delays : nat → Z) : list Alien :=
  row ← seqZ 0 ALIEN_ROWS;
  col ← seqZ 0 ALIEN_COLS;
  let id := Z.to_nat (row * ALIEN_COLS + col) in
  [Alien_init id (col * (ALIEN_WIDTH + 10) + 50) (row * (ALIEN_HEIGHT + 10) + 50)
              (delays id)].

(** [pygame.sprite.spritecollideany(bullet, aliens)] *)
Definition spritecollideany (b : Bullet) (grp : list Alien) : option Alien :=
  list_find (λ a, colliderect (bullet_rect b) (alien_rect a)) grp ≫= (λ r, Some r.2).

(** The first loop of [check_collisions], over the bullets [todo] of the
    group as it was when the loop started. *)
Fixpoint hit_aliens (todo : list Bullet) (pl : Player) (pbs : list Bullet)
    (als : list Alien) (score : Z) : Player * list Bullet * list Alien * Z :=
  match todo with
  | [] => (pl, pbs, als, score)
  | bullet :: rest =>
      match spritecollideany bullet als with
      | Some alien_hit =>
          hit_aliens rest
            (set_bullets (discard (bullet_id bullet) (bullets pl)) pl)
            (bullet_group_remove (bullet_id bullet) pbs)
            (alien_group_remove (alien_id alien_hit) als)
            (score + 10)
      | None => hit_aliens rest pl pbs als score
      end
  end.

(** The second loop of [check_collisions]: it returns at the first alien
    bullet that touches the player. *)
Fixpoint hit_player (todo : list Bullet) (pl : Player) (abs : list Bullet)
  : bool * list Bullet :=
  match todo with
  | [] => (false, abs)
  | bullet :: rest =>
      if decide (colliderect (bullet_rect bullet) (player_rect pl))
      then (true, bullet_group_remove (bullet_id bullet) abs)
      else hit_player rest pl abs
  end.

Record Collisions : Type := mkCollisions {
  c_player : Player;
  c_player_bullets : list Bullet;
  c_alien_bullets : list Bullet;
  c_aliens : list Alien;
  c_player_hit : bool;
  c_score : Z
}.

(** [check_collisions]: the objects as the call leaves them, and the pair it
    returns. *)
Definition check_collisions (pl : Player) (pbs abs : list Bullet) (als : list Alien)
    (score : Z) : Collisions :=
  let '(pl1, pbs1, als1, score1) := hit_aliens pbs pl pbs als score in
  let '(player_hit, abs1) := hit_player abs pl1 abs in
  {| c_player := pl1; c_player_bullets := pbs1; c_alien_bullets := abs1;
     c_aliens := als1; c_player_hit := player_hit; c_score := score1 |}.

(** *** The game loop of [main] *)

(** A method that mutates a sprite mutates the object the group holds. *)
Definition bullet_group_put (b1 : Bullet) (grp : list Bullet) : list Bullet :=
  (λ b, if decide (bullet_id b = bullet_id b1) then b1 else b) <$> grp.

(** [for bullet in list(player_bullets)]: update the bullet, and forget a
    destroyed one in [player.bullets]. *)
Fixpoint update_player_bullets (todo : list Bullet) (pl : Player) (pbs : list Bullet)
  : Player * list Bullet :=
  match todo with
  | [] => (pl, pbs)
  | bullet :: rest =>
      let '(b1, destroyed) := Bullet_update bullet in
      if destroyed
      then update_player_bullets rest
             (set_bullets (discard (bullet_id bullet) (bullets pl)) pl)
             (bullet_group_remove (bullet_id bullet) pbs)
      else update_player_bullets rest pl (bullet_group_put b1 pbs)
  end.

(** [alien_bullets.update()]: [Group.update] calls [update] on every sprite
    of the group. *)
Fixpoint update_alien_bullets (todo : list Bullet) (abs : list Bullet) : list Bullet :=
  match todo with
  | [] => abs
  | bullet :: rest =>
      let '(b1, destroyed) := Bullet_update bullet in
      if destroyed
      then update_alien_bullets rest (bullet_group_remove (bullet_id bullet) abs)
      else update_alien_bullets rest (bullet_group_put b1 abs)
  end.

Record Game : Type := mkGame {
  player : Player;
  aliens : list Alien;
  player_bullets : list Bullet;
  alien_bullets : list Bullet;
  score : Z;
  lives : Z;
  alien_speed : number;
  game_over : bool;
  win : bool;
  last_alien_shot : Z;
  last_alien_move : Z;
  last_alien_drop : Z;
  running : bool;
  (** the identity the next bullet object gets *)
  next_id : nat
}.

(** What a frame reads from outside: the event queue, the pressed keys, the
    clock, and the random generator ([new_delay] for the [randint] of the
    alien of a given identity, [pick] for [random.choice]). *)
Record Input : Type := mkInput {
  events : list Event;
  key_left : bool;
  key_right : bool;
  current_time : Z;
  new_delay : nat → Z;
  pick : nat
}.

(** The body of [for event in pygame.event.get()]. *)
Definition handle_event (ev : Event) (g : Game) : Game :=
  let run1 := if decide (ev = QUIT) then false else running g in
  if negb (game_over g) && negb (win g) then
    match ev with
    | KEYDOWN K_SPACE =>
        let '(pl, bullet) := shoot (next_id g) (player g) in
        match bullet with
        | Some b =>
            {| player := pl; aliens := aliens g;
               player_bullets := bullet_group_add b (player_bullets g);
               alien_bullets := alien_bullets g; score := score g; lives := lives g;
               alien_speed := alien_speed g; game_over := game_over g; win := win g;
               last_alien_shot := last_alien_shot g;
               last_alien_move := last_alien_move g;
               last_alien_drop := last_alien_drop g; running := run1;
               next_id := S (next_id g) |}
        | None =>
            {| player := pl; aliens := aliens g;
               player_bullets := player_bullets g;
               alien_bullets := alien_bullets g; score := score g; lives := lives g;
               alien_speed := alien_speed g; game_over := game_over g; win := win g;
               last_alien_shot := last_alien_shot g;
               last_alien_move := last_alien_move g;
               last_alien_drop := last_alien_drop g; running := run1;
               next_id := next_id g |}
        end
    | _ =>
        {| player := player g; aliens := aliens g;
           player_bullets := player_bullets g;
           alien_bullets := alien_bullets g; score := score g; lives := lives g;
           alien_speed := alien_speed g; game_over := game_over g; win := win g;
           last_alien_shot := last_alien_shot g;
           last_alien_move := last_alien_move g;
           last_alien_drop := last_alien_drop g; running := run1;
           next_id := next_id g |}
    end
  else
    {| player := player g; aliens := aliens g;
       player_bullets := player_bullets g;
       alien_bullets := alien_bullets g; score := score g; lives := lives g;
       alien_speed := alien_speed g; game_over := game_over g; win := win g;
       last_alien_shot := last_alien_shot g;
       last_alien_move := last_alien_move g;
       last_alien_drop := last_alien_drop g; running := run1;
       next_id := next_id g |}.

Definition handle_events (evs : list Event) (g : Game) : Game :=
  fold_left (λ g1 ev, handle_event ev g1) evs g.

(** "Update player" and "Update bullets and clean up off-screen bullets". *)
Definition move_player_and_bullets (inp : Input) (g : Game) : Game :=
  let pl1 := Player_update (key_left inp) (key_right inp) (player g) in
  let '(pl2, pbs) := update_player_bullets (player_bullets g) pl1 (player_bullets g) in
  let abs := update_alien_bullets (alien_bullets g) (alien_bullets g) in
  {| player := pl2; aliens := aliens g; player_bullets := pbs;
     alien_bullets := abs; score := score g; lives := lives g;
     alien_speed := alien_speed g; game_over := game_over g; win := win g;
     last_alien_shot := last_alien_shot g; last_alien_move := last_alien_move g;
     last_alien_drop := last_alien_drop g; running := running g;
     next_id := next_id g |}.

(** The body of the drop loop: turn around and move down. *)
Definition drop_alien (a : Alien) : Alien :=
  {| alien_id := alien_id a;
     alien_rect := set_rect_y (y (alien_rect a) + ALIEN_DROP) (alien_rect a);
     alien_direction := alien_direction a * -1; last_shot := last_shot a;
     shot_delay := shot_delay a |}.

(** "Handle alien movement with timing". *)
Definition move_aliens (inp : Input) (g : Game) : Game :=
  if decide (current_time inp - last_alien_move g > alien_move_delay) then
    let aliens_need_drop :=
      bool_decide (Exists (λ a, left (alien_rect a) ≤ 0 ∨
                                right (alien_rect a) >= SCREEN_WIDTH) (aliens g)) in
    let als1 := Alien_update (current_time inp) (alien_speed g) <$> aliens g in
    let dropping :=
      aliens_need_drop &&
      bool_decide (current_time inp - last_alien_drop g > alien_drop_cooldown) in
    {| player := player g;
       aliens := if dropping then drop_alien <$> als1 else als1;
       player_bullets := player_bullets g; alien_bullets := alien_bullets g;
       score := score g; lives := lives g;
       alien_speed := if dropping then add_half (alien_speed g) else alien_speed g;
       game_over := game_over g; win := win g;
       last_alien_shot := last_alien_shot g;
       last_alien_move := current_time inp;
       last_alien_drop := if dropping then current_time inp else last_alien_drop g;
       running := running g; next_id := next_id g |}
  else g.

(** The loop that collects [shooting_aliens]: [done] are the aliens already
    visited, [todo] the ones to come, so the group is [done ++ todo]. *)
Fixpoint shooting_loop (inp : Input) (done todo shooting : list Alien)
  : option (list Alien * list Alien) :=
  match todo with
  | [] => Some (done, shooting)
  | alien :: rest =>
      let '(a1, wants) :=
        should_shoot (current_time inp) (new_delay inp (alien_id alien)) alien in
      if wants then
        let column_aliens :=
          filter (λ a, x (alien_rect a) = x (alien_rect a1)) (done ++ a1 :: rest) in
        lowest ← py_max_by (λ a, y (alien_rect a)) column_aliens;
        shooting_loop inp (done ++ [a1]) rest
          (if decide (alien_id a1 = alien_id lowest) then shooting ++ [a1] else shooting)
      else shooting_loop inp (done ++ [a1]) rest shooting
  end.

(** [random.choice], the generator choosing the position [n]. *)
Definition choice {A : Type} (n : nat) (l : list A) : option A :=
  l !! (n `mod` length l)%nat.

(** "Handle alien shooting with global cooldown". *)
Definition aliens_shoot (inp : Input) (g : Game) : option Game :=
  if decide (current_time inp - last_alien_shot g > global_alien_shot_cooldown) then
    '(als1, shooting_aliens) ← shooting_loop inp [] (aliens g) [];
    match shooting_aliens with
    | [] =>
        Some {| player := player g; aliens := als1;
                player_bullets := player_bullets g;
                alien_bullets := alien_bullets g; score := score g;
                lives := lives g; alien_speed := alien_speed g;
                game_over := game_over g; win := win g;
                last_alien_shot := last_alien_shot g;
                last_alien_move := last_alien_move g;
                last_alien_drop := last_alien_drop g; running := running g;
                next_id := next_id g |}
    | _ :: _ =>
        shooting_alien ← choice (pick inp) shooting_aliens;
        let bullet := Bullet_init (next_id g)
                        (centerx (alien_rect shooting_alien))
                        (bottom (alien_rect shooting_alien)) 1 in
        Some {| player := player g; aliens := als1;
                player_bullets := player_bullets g;
                alien_bullets := bullet_group_add bullet (alien_bullets g);
                score := score g; lives := lives g; alien_speed := alien_speed g;
                game_over := game_over g; win := win g;
                last_alien_shot := current_time inp;
                last_alien_move := last_alien_move g;
                last_alien_drop := last_alien_drop g; running := running g;
                next_id := S (next_id g) |}
    end
  else Some g.

(** From "Check collisions" to the end of the update: the hit, the aliens
    that reached the player, the win, the speed. *)
Definition resolve (g : Game) : Game :=
  let c := check_collisions (player g) (player_bullets g) (alien_bullets g)
             (aliens g) (score g) in
  let lives1 := if c_player_hit c then lives g - 1 else lives g in
  let game_over1 :=
    if c_player_hit c && bool_decide (lives1 ≤ 0) then true else game_over g in
  let pl1 :=
    if c_player_hit c && negb (bool_decide (lives1 ≤ 0))
    then set_player_rect
           (set_rect_x (SCREEN_WIDTH / 2 - PLAYER_WIDTH / 2) (player_rect (c_player c)))
           (c_player c)
    else c_player c in
  let game_over2 :=
    if bool_decide (Exists (λ a, bottom (alien_rect a) >= top (player_rect pl1))
                           (c_aliens c))
    then true else game_over1 in
  let win1 := if decide (length (c_aliens c) = 0%nat) then true else win g in
  {| player := pl1; aliens := c_aliens c;
     player_bullets := c_player_bullets c; alien_bullets := c_alien_bullets c;
     score := c_score c; lives := lives1;
     alien_speed :=
       Int (ALIEN_SPEED +
            (ALIEN_ROWS * ALIEN_COLS - Z.of_nat (length (c_aliens c))) / 10);
     game_over := game_over2; win := win1;
     last_alien_shot := last_alien_shot g; last_alien_move := last_alien_move g;
     last_alien_drop := last_alien_drop g; running := running g;
     next_id := next_id g |}.

(** The block under [if not game_over and not win]. *)
Definition update (inp : Input) (g : Game) : option Game :=
  if negb (game_over g) && negb (win g) then
    g1 ← aliens_shoot inp (move_aliens inp (move_player_and_bullets inp g));
    Some (resolve g1)
  else Some g.

(** One iteration of [while running]. *)
Definition frame (inp : Input) (g : Game) : option Game :=
  update inp (handle_events (events inp) g).

(** The state on entry to the loop; [delays] are the draws of the aliens'
    constructors. *)
Definition start (delays : nat → Z) : Game :=
  {| player := Player_init; aliens := setup_aliens delays;
     player_bullets := []; alien_bullets := []; score := 0; lives := 3;
     alien_speed := Int ALIEN_SPEED; game_over := false; win := false;
     last_alien_shot := 0; last_alien_move := 0; last_alien_drop := 0;
     running := true; next_id := 0 |}.

(** The states of the loop. *)
Inductive reachable : Game → Prop :=
  | reachable_start delays : reachable (start delays)
  | reachable_frame g inp g' :
      reachable g → running g = true → frame inp g = Some g' → reachable g'.

End Invaders.

(** Settle a closed decidable goal by evaluating its decision procedure. *)
Ltac by_decision :=
  match goal with
  | |- ?G => exact (bool_decide_unpack G I)
  end.

(** * Properties of the puzzle game *)

Module TetrisSpec.
Import Tetris.

(** A grid of [GRID_HEIGHT] rows of [GRID_WIDTH] cells. *)
Definition well_formed (gr : list (list Z)) : Prop :=
  length gr = Z.to_nat GRID_HEIGHT ∧
  Forall (λ row, length row = Z.to_nat GRID_WIDTH) gr.

Lemma py_get_lookup {A} (l : list A) (i : nat) :
  py_get l (Z.of_nat i) = l !! i.
Proof.
  unfold py_get. rewrite decide_True by lia. by rewrite Nat2Z.id.
Qed.

Lemma py_get_nonneg {A} (l : list A) (i : Z) :
  0 ≤ i → py_get l i = l !! Z.to_nat i.
Proof. intros Hi. unfold py_get. by rewrite decide_True. Qed.

Lemma py_set_Some {A} (l l' : list A) (i : Z) (v : A) :
  py_set l i v = Some l' → 0 ≤ i → l' = <[Z.to_nat i := v]> l.
Proof.
  unfold py_set. intros H Hi. rewrite decide_True in H by done.
  case_decide; [|done]. by injection H.
Qed.

Lemma zero_row_not_full : ¬ full zero_row.
Proof. by vm_compute; inversion 1. Qed.

Lemma zero_row_length : length zero_row = Z.to_nat GRID_WIDTH.
Proof. reflexivity. Qed.

Lemma zero_row_zero : Forall (λ cell, cell = 0) zero_row.
Proof. apply Forall_replicate. reflexivity. Qed.

(** The loop scanning the rows [P] of a grid [P ++ S] upwards from the last
    row of [P]: the full rows of [P] go, as many empty rows arrive on top,
    [S] stays.  Any fuel above the number of iterations does. *)
Lemma clear_lines_loop_scan (fuel : nat) :
  ∀ (P S : list (list Z)) (lines : Z),
    (length P + length (filter full P) < fuel)%nat →
    clear_lines_loop fuel (P ++ S) (Z.of_nat (length P) - 1) lines =
    Returns (replicate (length (filter full P)) zero_row ++
               filter (λ row, ¬ full row) P ++ S,
             lines + Z.of_nat (length (filter full P))).
Proof.
  induction fuel as [|fuel IH]; intros P S lines Hfuel; [lia|].
  destruct P as [|r0 P _] using rev_ind.
  { simpl. do 2 f_equal. lia. }
  cbn [clear_lines_loop].
  rewrite length_app in *. simpl length in *.
  rewrite decide_True by lia.
  replace (Z.of_nat (length P + 1) - 1) with (Z.of_nat (length P)) by lia.
  rewrite py_get_lookup, <- app_assoc, lookup_app_r by lia.
  rewrite Nat.sub_diag. simpl lookup.
  rewrite filter_app, (filter_cons _ r0), filter_nil in Hfuel.
  rewrite !filter_app, !(filter_cons _ r0), !filter_nil.
  cbv iota beta.
  destruct (decide (full r0)) as [Hfull|Hfull].
  - rewrite decide_False by tauto.
    rewrite length_app in *. simpl length in *.
    rewrite Nat2Z.id.
    assert (delete (length P) (P ++ [r0] ++ S) = P ++ S) as ->.
    { apply (delete_middle P S r0). }
    specialize (IH (zero_row :: P) S (lines + 1)).
    simpl length in IH.
    replace (Z.of_nat (Datatypes.S (length P)) - 1) with (Z.of_nat (length P)) in IH by lia.
    rewrite !filter_cons in IH.
    rewrite decide_False in IH by apply zero_row_not_full.
    rewrite decide_True in IH by apply zero_row_not_full.
    simpl app in IH. rewrite IH by lia.
    f_equal. f_equal; [|lia].
    rewrite app_nil_r, Nat.add_1_r. simpl replicate.
    rewrite replicate_cons_app, <- !app_assoc. done.
  - rewrite decide_True by tauto.
    specialize (IH P (r0 :: S) lines).
    simpl app. rewrite app_nil_r in *.
    rewrite IH by lia.
    rewrite <- !app_assoc. done.
Qed.

(** With [GRID_HEIGHT] rows the scan of [clear_lines] covers the whole grid. *)
Lemma clear_lines_loop_fuel (gr : list (list Z)) (fuel : nat) :
  length gr = Z.to_nat GRID_HEIGHT →
  (clear_lines_fuel ≤ fuel)%nat →
  clear_lines_loop fuel gr (GRID_HEIGHT - 1) 0 =
  Returns (replicate (length (filter full gr)) zero_row ++
             filter (λ row, ¬ full row) gr,
           Z.of_nat (length (filter full gr))).
Proof.
  intros Hlen Hfuel.
  pose proof (clear_lines_loop_scan fuel gr [] 0) as H.
  rewrite !app_nil_r, Hlen, Z.add_0_l in H.
  replace (Z.of_nat (Z.to_nat GRID_HEIGHT) - 1) with (GRID_HEIGHT - 1) in H
    by (unfold GRID_HEIGHT; lia).
  apply H.
  pose proof (length_filter full gr).
  unfold clear_lines_fuel, GRID_HEIGHT in *. lia.
Qed.

Lemma clear_lines_eq (gr : list (list Z)) :
  length gr = Z.to_nat GRID_HEIGHT →
  clear_lines gr =
  Some (replicate (length (filter full gr)) zero_row ++
          filter (λ row, ¬ full row) gr,
        Z.of_nat (length (filter full gr))).
Proof.
  intros Hlen. unfold clear_lines.
  by rewrite clear_lines_loop_fuel.
Qed.

(** What is left after the full rows are taken out has the old height. *)
Lemma cleared_length (gr : list (list Z)) :
  length (replicate (length (filter full gr)) zero_row ++
            filter (λ row, ¬ full row) gr) = length gr.
Proof.
  rewrite length_app, length_replicate, <- length_app.
  apply Permutation_length, filter_app_complement.
Qed.

Lemma cleared_Forall (Q : list Z → Prop) (gr : list (list Z)) :
  Q zero_row → Forall Q gr →
  Forall Q (replicate (length (filter full gr)) zero_row ++
              filter (λ row, ¬ full row) gr).
Proof.
  intros Hz Hgr. apply Forall_app. split.
  - by apply Forall_replicate.
  - rewrite Forall_forall in *. intros row [_ Hin]%list_elem_of_filter. auto.
Qed.

Lemma clear_lines_well_formed (gr gr' : list (list Z)) (n : Z) :
  well_formed gr → clear_lines gr = Some (gr', n) → well_formed gr'.
Proof.
  intros [Hlen Hrows]. rewrite clear_lines_eq by done.
  intros [= <- <-]. split.
  - by rewrite cleared_length.
  - by apply cleared_Forall.
Qed.

(** *** Rotation *)

Lemma rotate_four_SHAPES :
  Forall (λ sh, Nat.iter 4 rotate_cw sh = sh) SHAPES.
Proof. repeat constructor. Qed.

Lemma iter_rotate_period (n : nat) (sh : list (list Z)) :
  Nat.iter 4 rotate_cw sh = sh →
  Nat.iter (n + 4) rotate_cw sh = Nat.iter n rotate_cw sh.
Proof. intros H. by rewrite Nat.iter_add, H. Qed.

Lemma iter_rotate_four_comm (n : nat) (sh : list (list Z)) :
  Nat.iter 4 rotate_cw sh = sh →
  Nat.iter 4 rotate_cw (Nat.iter n rotate_cw sh) = Nat.iter n rotate_cw sh.
Proof.
  intros H. rewrite <- Nat.iter_add, Nat.add_comm. by apply iter_rotate_period.
Qed.

(** The cells depend on the piece through its origin only. *)
Lemma row_cells_origin (p q : Piece) (row : list Z) :
  x p = x q → y p = y q →
  ∀ line col, row_cells p line col row = row_cells q line col row.
Proof.
  intros Hx Hy. induction row as [|c row IH]; intros line col; simpl; [done|].
  rewrite Hx, Hy, IH. done.
Qed.

Lemma shape_cells_origin (p q : Piece) (rows : list (list Z)) :
  x p = x q → y p = y q →
  ∀ line, shape_cells p line rows = shape_cells q line rows.
Proof.
  intros Hx Hy. induction rows as [|row rows IH]; intros line; simpl; [done|].
  by rewrite IH, (row_cells_origin p q).
Qed.

Lemma Piece_init_Some (sidx cidx : Z) :
  0 ≤ sidx ≤ 6 →
  ∃ p, Piece_init sidx cidx = Some p ∧
       shape_idx p = sidx ∧ color_idx p = cidx ∧ rotation p = 0 ∧ y p = 0 ∧
       SHAPES !! Z.to_nat sidx = Some (shape p).
Proof.
  intros H.
  assert (sidx = 0 ∨ sidx = 1 ∨ sidx = 2 ∨ sidx = 3 ∨ sidx = 4 ∨ sidx = 5 ∨ sidx = 6)
    as Hcases by lia.
  destruct_or! Hcases; subst sidx; eexists; (split; [reflexivity|]); done.
Qed.

(** *** Reading and writing cells of a well-formed grid *)

(** The cell in column [cx] of row [cy], if the grid has one. *)
Definition cell (gr : list (list Z)) (cx cy : Z) : option Z :=
  gr !! Z.to_nat cy ≫= λ row, row !! Z.to_nat cx.

Lemma well_formed_row (gr : list (list Z)) (cy : Z) :
  well_formed gr → 0 ≤ cy < GRID_HEIGHT →
  ∃ row, gr !! Z.to_nat cy = Some row ∧ length row = Z.to_nat GRID_WIDTH.
Proof.
  intros [Hlen Hrows] Hcy.
  destruct (lookup_lt_is_Some_2 gr (Z.to_nat cy)) as [row Hrow]; [lia|].
  exists row. split; [done|].
  by eapply Forall_lookup_1 in Hrows.
Qed.

Lemma well_formed_cell (gr : list (list Z)) (cx cy : Z) :
  well_formed gr → 0 ≤ cx < GRID_WIDTH → 0 ≤ cy < GRID_HEIGHT →
  ∃ row c, gr !! Z.to_nat cy = Some row ∧ length row = Z.to_nat GRID_WIDTH ∧
           row !! Z.to_nat cx = Some c.
Proof.
  intros Hwf Hcx Hcy.
  destruct (well_formed_row gr cy) as (row & Hrow & Hlen); [done..|].
  destruct (lookup_lt_is_Some_2 row (Z.to_nat cx)) as [c Hc]; [lia|].
  eauto.
Qed.

Lemma cells_valid_total (cells : list (Z * Z)) (gr : list (list Z)) :
  well_formed gr → ∃ ok, cells_valid cells gr = Some ok.
Proof.
  intros Hwf. induction cells as [|[cx cy] rest IH]; simpl; [eauto|].
  case_decide; [eauto|]. case_decide; [|done].
  destruct (well_formed_cell gr cx cy) as (row & c & Hrow & _ & Hc);
    [done | lia | lia |].
  rewrite (py_get_nonneg gr), Hrow by lia. simpl.
  rewrite (py_get_nonneg row), Hc by lia. simpl.
  case_decide; eauto.
Qed.

Lemma is_valid_position_total (p : Piece) (gr : list (list Z)) :
  well_formed gr → ∃ ok, is_valid_position p gr = Some ok.
Proof. apply cells_valid_total. Qed.

(** A cell inside the grid, and a cell above it within the horizontal
    bounds. *)
Definition in_grid (c : Z * Z) : Prop :=
  (0 ≤ c.2 < GRID_HEIGHT) ∧ (0 ≤ c.1 < GRID_WIDTH).

Definition above_grid (c : Z * Z) : Prop :=
  c.2 < 0 ∧ 0 ≤ c.1 < GRID_WIDTH.

(** Cells above the grid are not looked up. *)
Lemma cells_valid_filter (cells : list (Z * Z)) (gr : list (list Z)) :
  cells_valid cells gr = cells_valid (filter (λ c, ¬ above_grid c) cells) gr.
Proof.
  induction cells as [|[cx cy] rest IH]; [done|].
  destruct (decide (above_grid (cx, cy))) as [[Hy Hx]|Hout]; simpl in *.
  - rewrite filter_cons_False by (unfold above_grid; simpl; tauto).
    rewrite decide_False by (unfold GRID_HEIGHT; lia).
    by rewrite decide_False by lia.
  - rewrite filter_cons_True by done. simpl.
    case_decide; [done|]. case_decide; [|done].
    destruct (py_get gr cy) as [row|]; [simpl|done].
    destruct (py_get row cx) as [c|]; [simpl|done].
    case_decide; [done|]. apply IH.
Qed.

(** One assignment [grid[cy][cx] = color] inside the grid. *)
Lemma write_cell (gr : list (list Z)) (cx cy color : Z) :
  well_formed gr → 0 ≤ cx < GRID_WIDTH → 0 ≤ cy < GRID_HEIGHT →
  ∃ row,
    gr !! Z.to_nat cy = Some row ∧
    py_get gr cy = Some row ∧
    py_set row cx color = Some (<[Z.to_nat cx := color]> row) ∧
    py_set gr cy (<[Z.to_nat cx := color]> row) =
      Some (<[Z.to_nat cy := <[Z.to_nat cx := color]> row]> gr) ∧
    well_formed (<[Z.to_nat cy := <[Z.to_nat cx := color]> row]> gr).
Proof.
  intros Hwf Hcx Hcy.
  destruct (well_formed_cell gr cx cy) as (row & c & Hrow & Hlen & Hc); [done..|].
  exists row. split; [done|]. destruct Hwf as [Hh Hw]. split_and!.
  - by rewrite py_get_nonneg, Hrow by lia.
  - unfold py_set. by rewrite !decide_True by lia.
  - unfold py_set. by rewrite !decide_True by lia.
  - split; [by rewrite length_insert|].
    apply Forall_insert; [done|]. by rewrite length_insert.
Qed.

Lemma cell_write (gr : list (list Z)) (row : list Z) (cx cy color ax ay : Z) :
  well_formed gr → 0 ≤ cx < GRID_WIDTH → 0 ≤ cy < GRID_HEIGHT →
  0 ≤ ax → 0 ≤ ay →
  gr !! Z.to_nat cy = Some row →
  cell (<[Z.to_nat cy := <[Z.to_nat cx := color]> row]> gr) ax ay =
  if decide ((ax, ay) = (cx, cy)) then Some color else cell gr ax ay.
Proof.
  intros Hwf Hcx Hcy Hax Hay Hrow.
  destruct (well_formed_cell gr cx cy) as (row' & c & Hrow' & Hlen & Hc); [done..|].
  assert (row' = row) as -> by congruence.
  destruct Hwf as [Hh Hw]. unfold cell.
  destruct (decide (ay = cy)) as [->|Hne].
  - rewrite list_lookup_insert_eq by lia. simpl.
    destruct (decide (ax = cx)) as [->|Hnx].
    + rewrite decide_True by done. apply list_lookup_insert_eq. lia.
    + rewrite decide_False by congruence.
      rewrite list_lookup_insert_ne by lia. by rewrite Hrow.
  - rewrite decide_False by congruence.
    by rewrite list_lookup_insert_ne by lia.
Qed.

(** [lock_piece] never fails on a well-formed grid; it writes the colour to
    the cells of the list that lie inside the grid and to nothing else. *)
Lemma lock_cells_spec (cells : list (Z * Z)) (color : Z) :
  ∀ gr : list (list Z), well_formed gr →
  ∃ gr', lock_cells cells color gr = Some gr' ∧ well_formed gr' ∧
    ∀ ax ay, 0 ≤ ax < GRID_WIDTH → 0 ≤ ay < GRID_HEIGHT →
      cell gr' ax ay =
      if decide ((ax, ay) ∈ cells) then Some color else cell gr ax ay.
Proof.
  induction cells as [|[cx cy] rest IH]; intros gr Hwf; simpl.
  { exists gr. split_and!; done. }
  case_decide as Hin.
  - destruct (write_cell gr cx cy color) as (row & Hrow & Hg & Hs1 & Hs2 & Hwf1);
      [done | lia | lia |].
    destruct (IH _ Hwf1) as (gr' & Hlock & Hwf' & Hcells).
    exists gr'. split_and!; [|done|].
    + rewrite Hg. simpl. rewrite Hs1. simpl. rewrite Hs2. done.
    + intros ax ay Hax Hay. rewrite Hcells by done.
      rewrite (cell_write gr row) by (done || lia).
      destruct (decide ((ax, ay) = (cx, cy))) as [Heq|Hne].
      * rewrite (decide_True (P := (ax, ay) ∈ (cx, cy) :: rest))
          by (rewrite Heq; left).
        by case_decide.
      * destruct (decide ((ax, ay) ∈ rest)) as [Hr|Hr].
        -- by rewrite decide_True by by right.
        -- rewrite decide_False; [done|]. by intros [?|?]%elem_of_cons.
  - destruct (IH _ Hwf) as (gr' & Hlock & Hwf' & Hcells).
    exists gr'. split_and!; [done..|].
    intros ax ay Hax Hay. rewrite Hcells by done.
    destruct (decide ((ax, ay) ∈ rest)) as [Hr|Hr].
    + by rewrite decide_True by by right.
    + rewrite decide_False; [done|].
      intros [[= -> ->]|?]%elem_of_cons; [lia|done].
Qed.

Lemma lock_cells_Forall (Q : Z → Prop) (cells : list (Z * Z)) (color : Z) :
  Q color →
  ∀ gr gr' : list (list Z),
    lock_cells cells color gr = Some gr' →
    Forall (Forall Q) gr → Forall (Forall Q) gr'.
Proof.
  intros Hcolor. induction cells as [|[cx cy] rest IH]; intros gr gr'; simpl.
  { by intros [= ->]. }
  case_decide as Hin; [|by apply IH].
  rewrite (py_get_nonneg gr) by lia.
  destruct (gr !! Z.to_nat cy) as [row|] eqn:Hrow; [|done]. simpl.
  destruct (py_set row cx color) as [row'|] eqn:Hrow'; [|done]. simpl.
  destruct (py_set gr cy row') as [gr1|] eqn:Hgr1; [|done]. simpl.
  apply py_set_Some in Hrow' as ->; [|lia].
  apply py_set_Some in Hgr1 as ->; [|lia].
  intros Hlock HQ. eapply IH; [done|].
  apply Forall_insert; [done|].
  apply Forall_insert; [|done].
  by eapply Forall_lookup_1 in HQ.
Qed.

(** *** The invariant of the game loop *)

Definition cells_in_range (gr : list (list Z)) : Prop :=
  Forall (Forall (λ c, 0 ≤ c ≤ 7)) gr.

(** A piece as [get_random_piece] makes it and the key handlers leave it. *)
Definition piece_ok (p : Piece) : Prop :=
  0 ≤ shape_idx p ≤ 6 ∧ color_idx p = shape_idx p + 1 ∧
  0 ≤ rotation p < 4 ∧ SHAPES !! Z.to_nat (shape_idx p) = Some (shape p).

Record inv (g : Game) : Prop := mkInv {
  inv_grid : well_formed (grid g);
  inv_cells : cells_in_range (grid g);
  inv_current : piece_ok (current_piece g);
  inv_next : piece_ok (next_piece g)
}.

(** The mutation a key attempts, before it is tested. *)
Definition attempt (key : Key) (p : Piece) : Piece :=
  match key with
  | K_LEFT => set_x (x p - 1) p
  | K_RIGHT => set_x (x p + 1) p
  | K_DOWN => set_y (y p + 1) p
  | K_UP => set_rotation ((rotation p + 1) `mod` 4) p
  | _ => p
  end.

Lemma create_grid_well_formed : well_formed create_grid.
Proof. split; [done|]. by apply Forall_replicate. Qed.

Lemma create_grid_zero : Forall (Forall (λ c, c = 0)) create_grid.
Proof. apply Forall_replicate, zero_row_zero. Qed.

Lemma get_random_piece_ok (v : Z) :
  randint_shape v → ∃ p, get_random_piece v = Some p ∧ piece_ok p.
Proof.
  intros Hv. unfold randint_shape in Hv. simpl in Hv.
  destruct (Piece_init_Some v (v + 1)) as (p & Hp & Hs & Hc & Hr & _ & Hsh); [lia|].
  exists p. split; [done|]. unfold piece_ok. rewrite Hs, Hc, Hr. split_and!; (done || lia).
Qed.

Lemma handle_key_spec (key : Key) (p : Piece) (gr : list (list Z)) :
  well_formed gr → 0 ≤ rotation p < 4 →
  ∃ ok, is_valid_position (attempt key p) gr = Some ok ∧
        handle_key key p gr = Some (if ok then attempt key p else p).
Proof.
  intros Hwf Hrot.
  destruct (is_valid_position_total (attempt key p) gr Hwf) as [ok Hok].
  exists ok. split; [done|].
  destruct p as [si ci sh px py rot]; simpl in Hrot.
  destruct key; simpl in *; rewrite ?Hok; simpl; destruct ok; simpl;
    try done; unfold set_x, set_y, set_rotation; simpl; do 2 f_equal; try lia.
  assert (rot = 0 ∨ rot = 1 ∨ rot = 2 ∨ rot = 3) as Hcases by lia.
  by destruct_or! Hcases; subst rot.
Qed.

Lemma attempt_piece_ok (key : Key) (p : Piece) : piece_ok p → piece_ok (attempt key p).
Proof.
  intros (Hs & Hc & Hr & Hsh). destruct key; try done.
  unfold piece_ok. simpl.
  pose proof (Z.mod_pos_bound (rotation p + 1) 4). intuition lia.
Qed.

(** An event leaves the grid alone; only [QUIT] touches [running]. *)
Lemma handle_event_inv (ev : Event) (g : Game) :
  inv g →
  ∃ g', handle_event ev g = Some g' ∧ inv g' ∧ grid g' = grid g ∧
        game_over g' = game_over g ∧ next_piece g' = next_piece g ∧
        (ev ≠ QUIT → running g' = running g).
Proof.
  intros [Hwf Hcells Hcur Hnext]. unfold handle_event.
  destruct (decide (ev = QUIT)) as [->|Hq]; simpl.
  { exists (set_running false g). split; [by destruct (negb (game_over g))|].
    split_and!; try done; by split. }
  destruct (game_over g) eqn:Hover; simpl.
  { exists g. split_and!; try done; by split. }
  destruct ev as [|key|];
    try (eexists; (split; [done|]); split_and!; try done; by split).
  destruct (handle_key_spec key (current_piece g) (grid g)) as (ok & _ & Hk);
    [done | apply Hcur |].
  rewrite Hk. simpl. eexists. split; [done|]. split_and!; try done.
  split; simpl; try done. destruct ok; [by apply attempt_piece_ok | done].
Qed.

Lemma handle_events_inv (evs : list Event) :
  ∀ g : Game, inv g →
  ∃ g', handle_events evs g = Some g' ∧ inv g' ∧ grid g' = grid g ∧
        game_over g' = game_over g ∧ next_piece g' = next_piece g ∧
        (QUIT ∉ evs → running g' = running g).
Proof.
  induction evs as [|ev evs IH]; intros g Hinv; simpl.
  { exists g. by split_and!. }
  destruct (handle_event_inv ev g Hinv) as (g1 & -> & Hinv1 & Hg1 & Ho1 & Hn1 & Hr1).
  simpl. destruct (IH g1 Hinv1) as (g2 & -> & Hinv2 & Hg2 & Ho2 & Hn2 & Hr2).
  exists g2. split_and!; try congruence.
  intros Hq. apply not_elem_of_cons in Hq as [Hq1 Hq2].
  rewrite Hr2, Hr1; done.
Qed.

(** The automatic fall keeps the invariant and never touches [running]. *)
Lemma fall_inv (due : bool) (v : Z) (g : Game) :
  inv g → randint_shape v →
  ∃ g', fall due v g = Some g' ∧ inv g' ∧ running g' = running g.
Proof.
  intros [Hwf Hcells Hcur Hnext] Hv. unfold fall.
  destruct (game_over g); simpl; [by eexists|].
  destruct due; [|by eexists].
  set (p1 := set_y (y (current_piece g) + 1) (current_piece g)).
  destruct (is_valid_position_total p1 (grid g) Hwf) as [ok ->]. simpl.
  destruct ok; simpl.
  { eexists. split; [done|]. split; [|done]. by split. }
  set (p2 := set_y (y p1 - 1) p1).
  destruct (lock_cells_spec (get_cells p2) (color_idx p2) (grid g) Hwf)
    as (gr1 & Hlock & Hwf1 & _).
  change (lock_piece _ (grid g))
    with (lock_cells (get_cells p2) (color_idx p2) (grid g)).
  rewrite Hlock. simpl.
  rewrite clear_lines_eq by apply Hwf1. simpl.
  destruct (get_random_piece_ok v Hv) as (fresh & -> & Hfresh). simpl.
  set (gr2 := _ ++ _).
  assert (well_formed gr2) as Hwf2.
  { eapply clear_lines_well_formed; [exact Hwf1|]. by rewrite clear_lines_eq by apply Hwf1. }
  unfold is_game_over.
  destruct (is_valid_position_total (next_piece g) gr2 Hwf2) as [ok ->]. simpl.
  eexists. split; [done|]. split; [|done]. split; simpl; try done.
  apply cleared_Forall; [by apply Forall_replicate|].
  eapply lock_cells_Forall; [|exact Hlock|done].
  destruct Hcur as (? & Hc & _). simpl. lia.
Qed.

Lemma tetris_frame_inv (inp : Input) (g : Game) :
  inv g → randint_shape (rnd inp) →
  ∃ g', frame inp g = Some g' ∧ inv g' ∧
        (QUIT ∉ events inp → running g' = running g).
Proof.
  intros Hinv Hv. unfold frame.
  destruct (handle_events_inv (events inp) g Hinv) as (g1 & -> & Hinv1 & _ & _ & _ & Hr1).
  simpl. destruct (fall_inv (fall_due inp) (rnd inp) g1 Hinv1 Hv) as (g2 & -> & Hinv2 & Hr2).
  exists g2. split_and!; try done. intros Hq. rewrite Hr2. auto.
Qed.

Lemma tetris_start_inv (v1 v2 : Z) (g : Game) :
  randint_shape v1 → randint_shape v2 → start v1 v2 = Some g → inv g.
Proof.
  intros H1 H2. unfold start.
  destruct (get_random_piece_ok v1 H1) as (p1 & -> & Hp1).
  destruct (get_random_piece_ok v2 H2) as (p2 & -> & Hp2). simpl.
  intros [= <-]. split; simpl; try done.
  - apply create_grid_well_formed.
  - eapply Forall_impl; [apply create_grid_zero|]. simpl.
    intros row Hrow. eapply Forall_impl; [exact Hrow|]. simpl. lia.
Qed.

Lemma tetris_reachable_inv (g : Game) : reachable g → inv g.
Proof.
  induction 1 as [v1 v2 g H1 H2 Hstart | g inp g' _ IH _ Hv Hframe].
  - exact (tetris_start_inv v1 v2 g H1 H2 Hstart).
  - destruct (tetris_frame_inv inp g IH Hv) as (g2 & Hg2 & Hinv2 & _). congruence.
Qed.

(** *** Validity of a position, cell by cell *)

(** What [is_valid_position] asks of one cell: inside the horizontal bounds,
    not below the bottom and, unless above the top, on an empty cell of the
    grid. *)
Definition cell_free (gr : list (list Z)) (c : Z * Z) : Prop :=
  0 ≤ c.1 < GRID_WIDTH ∧ c.2 < GRID_HEIGHT ∧ (0 ≤ c.2 → cell gr c.1 c.2 = Some 0).

Lemma cells_valid_spec (cells : list (Z * Z)) (gr : list (list Z)) :
  well_formed gr →
  cells_valid cells gr = Some true ↔ Forall (cell_free gr) cells.
Proof.
  intros Hwf. induction cells as [|[cx cy] rest IH]; simpl; [done|].
  rewrite Forall_cons. unfold cell_free at 1. simpl.
  case_decide as Hb; [split; [done|lia]|].
  case_decide as Hy.
  - destruct (well_formed_cell gr cx cy) as (row & c & Hrow & _ & Hc);
      [done | lia | lia |].
    rewrite (py_get_nonneg gr), Hrow by lia. simpl.
    rewrite (py_get_nonneg row), Hc by lia. simpl.
    unfold cell. rewrite Hrow. simpl. rewrite Hc.
    case_decide as Hz.
    + split; [done|]. intros [(_ & _ & H) _]. specialize (H ltac:(lia)). congruence.
    + rewrite IH. split; [|tauto]. intros Hrest. split; [|done].
      split_and!; try lia. intros _. f_equal. lia.
  - rewrite IH. split; [|tauto]. intros Hrest. split; [|done]. split_and!; lia.
Qed.

(** Cells outside the grid are skipped. *)
Lemma lock_cells_filter (cells : list (Z * Z)) (color : Z) :
  ∀ gr : list (list Z),
    lock_cells cells color gr = lock_cells (filter in_grid cells) color gr.
Proof.
  induction cells as [|[cx cy] rest IH]; intros gr; [done|].
  destruct (decide (in_grid (cx, cy))) as [Hin|Hout].
  - rewrite filter_cons_True by done. simpl.
    rewrite !decide_True by done.
    destruct (py_get gr cy) as [row|]; [simpl|done].
    destruct (py_set row cx color) as [row'|]; [simpl|done].
    destruct (py_set gr cy row') as [gr1|]; [simpl|done]. apply IH.
  - rewrite filter_cons_False by done. simpl.
    by rewrite decide_False.
Qed.

(** *** The claims about the puzzle game *)

(** A grid whose two bottom rows are full, next to each other. *)
Definition two_full_rows : list (list Z) :=
  replicate 18 zero_row ++ [replicate 10 1; replicate 10 2].

(** C1: on every grid of 20 rows of 10 cells, [clear_lines] returns, for
    every sufficient number of loop iterations; it returns the number of full
    rows; the grid it leaves consists of that many empty (all-zero) rows on
    top, followed by the rows that were not full, in their original order;
    the grid still has 20 rows of 10 cells, and none of them is full. *)
Theorem clear_lines_correct (gr : list (list Z)) :
  length gr = 20%nat →
  Forall (λ row, length row = 10%nat) gr →
  ∃ (gr' : list (list Z)) (n : nat),
    clear_lines gr = Some (gr', Z.of_nat n) ∧
    (∀ fuel, (clear_lines_fuel ≤ fuel)%nat →
       clear_lines_loop fuel gr (GRID_HEIGHT - 1) 0 = Returns (gr', Z.of_nat n)) ∧
    n = length (filter full gr) ∧
    gr' = replicate n zero_row ++ filter (λ row, ¬ full row) gr ∧
    Forall (λ c, c = 0) zero_row ∧
    length gr' = 20%nat ∧
    Forall (λ row, length row = 10%nat) gr' ∧
    Forall (λ row, ¬ full row) gr'.
Proof.
  intros Hlen Hrows. eexists _, _.
  split; [by apply clear_lines_eq|].
  split; [intros fuel Hfuel; by apply clear_lines_loop_fuel|].
  split_and!; try done.
  - apply zero_row_zero.
  - by rewrite cleared_length.
  - by apply cleared_Forall.
  - apply Forall_app. split.
    + apply Forall_replicate, zero_row_not_full.
    + apply Forall_forall. by intros row [? _]%list_elem_of_filter.
Qed.

Lemma clear_lines_correct_witness :
  ∃ (gr' : list (list Z)) (n : nat),
    clear_lines two_full_rows = Some (gr', Z.of_nat n) ∧
    (∀ fuel, (clear_lines_fuel ≤ fuel)%nat →
       clear_lines_loop fuel two_full_rows (GRID_HEIGHT - 1) 0 =
       Returns (gr', Z.of_nat n)) ∧
    n = length (filter full two_full_rows) ∧
    gr' = replicate n zero_row ++ filter (λ row, ¬ full row) two_full_rows ∧
    Forall (λ c, c = 0) zero_row ∧
    length gr' = 20%nat ∧
    Forall (λ row, length row = 10%nat) gr' ∧
    Forall (λ row, ¬ full row) gr'.
Proof.
  apply (clear_lines_correct two_full_rows); [reflexivity | repeat constructor].
Defined.

(** C2: for a piece of any shape index 0-6, at any position and in any
    rotation state, four more clockwise rotations give the rotated shape
    back, so the rotated shape and the cells of rotation [r + 4] are those
    of rotation [r]. *)
Theorem rotation_period_four (sidx cidx : Z) :
  0 ≤ sidx ≤ 6 →
  ∃ p0, Piece_init sidx cidx = Some p0 ∧
    ∀ vx vy r, 0 ≤ r →
      let p := set_rotation r (set_y vy (set_x vx p0)) in
      Nat.iter 4 rotate_cw (get_rotated_shape p) = get_rotated_shape p ∧
      get_rotated_shape (set_rotation (r + 4) p) = get_rotated_shape p ∧
      get_cells (set_rotation (r + 4) p) = get_cells p.
Proof.
  intros Hs.
  destruct (Piece_init_Some sidx cidx Hs) as (p0 & Hp0 & _ & _ & _ & _ & Hsh).
  exists p0. split; [done|]. intros vx vy r Hr p.
  assert (Nat.iter 4 rotate_cw (shape p0) = shape p0) as H4.
  { by eapply (Forall_lookup_1 _ _ _ _ rotate_four_SHAPES) in Hsh. }
  assert (get_rotated_shape (set_rotation (r + 4) p) = get_rotated_shape p) as Hrot.
  { unfold get_rotated_shape. simpl.
    replace (Z.to_nat (r + 4)) with (Z.to_nat r + 4)%nat by lia.
    by apply iter_rotate_period. }
  split_and!; [|done|].
  - unfold get_rotated_shape. simpl. by apply iter_rotate_four_comm.
  - unfold get_cells. rewrite Hrot. by apply shape_cells_origin.
Qed.

Lemma rotation_period_four_witness :
  ∃ p0, Piece_init 2 3 = Some p0 ∧
    ∀ vx vy r, 0 ≤ r →
      let p := set_rotation r (set_y vy (set_x vx p0)) in
      Nat.iter 4 rotate_cw (get_rotated_shape p) = get_rotated_shape p ∧
      get_rotated_shape (set_rotation (r + 4) p) = get_rotated_shape p ∧
      get_cells (set_rotation (r + 4) p) = get_cells p.
Proof. apply (rotation_period_four 2 3). lia. Defined.

(** The T piece as it is spawned, and the state [main] starts in when the
    generator draws the T piece and then the I piece. *)
Definition t_piece : Piece :=
  {| shape_idx := 2; color_idx := 3; shape := [[0; 1; 0]; [1; 1; 1]];
     x := 4; y := 0; rotation := 0 |}.

Definition i_piece : Piece :=
  {| shape_idx := 0; color_idx := 1; shape := [[1; 1; 1; 1]];
     x := 3; y := 0; rotation := 0 |}.

Definition first_state : Game :=
  {| grid := create_grid; current_piece := t_piece; next_piece := i_piece;
     running := true; game_over := false |}.

Lemma tetris_first_state_reachable : reachable first_state.
Proof.
  apply (reachable_start 2 0); [by vm_compute | by vm_compute | reflexivity].
Defined.

(** The code on small inputs. *)
Example rotate_t_piece :
  rotate_cw (shape t_piece) = [[1; 0]; [1; 1]; [1; 0]] ∧
  get_cells t_piece = [(5, 0); (4, 1); (5, 1); (6, 1)] ∧
  get_cells (set_rotation 1 t_piece) = [(4, 0); (4, 1); (5, 1); (4, 2)].
Proof. by vm_compute. Qed.

Example clear_two_full_rows : clear_lines two_full_rows = Some (create_grid, 2).
Proof. by vm_compute. Qed.

Example left_at_the_wall :
  handle_key K_LEFT (set_x 0 i_piece) create_grid = Some (set_x 0 i_piece) ∧
  handle_key K_RIGHT (set_x 0 i_piece) create_grid = Some (set_x 1 i_piece).
Proof. by vm_compute. Qed.

(** Several iterations of the loop, one after the other. *)
Fixpoint run_frames (inps : list Input) (g : Game) : option Game :=
  match inps with
  | [] => Some g
  | inp :: rest => g1 ← frame inp g; run_frames rest g1
  end.

Lemma run_frames_reachable (inps : list Input) :
  ∀ g g' : Game,
    reachable g → running g = true →
    Forall (λ inp, randint_shape (rnd inp) ∧ QUIT ∉ events inp) inps →
    run_frames inps g = Some g' →
    reachable g' ∧ running g' = true.
Proof.
  induction inps as [|inp rest IH]; intros g g' Hreach Hrun Hinps; simpl.
  { by intros [= <-]. }
  apply Forall_cons in Hinps as [[Hrnd Hq] Hrest].
  destruct (tetris_frame_inv inp g (tetris_reachable_inv g Hreach) Hrnd)
    as (g1 & Hframe & _ & Hr).
  rewrite Hframe. simpl. apply IH; [|by rewrite Hr|done].
  by eapply reachable_frame.
Qed.

(** The T piece falls for 19 frames: 18 steps down to the floor, then it is
    locked in the two bottom rows and the I piece comes. *)
Definition nineteen_falls : list Input :=
  replicate 19 {| events := []; fall_due := true; rnd := 3 |}.

Definition t_piece_locked : Game :=
  {| grid := replicate 18 zero_row ++
             [[0; 0; 0; 0; 0; 3; 0; 0; 0; 0]; [0; 0; 0; 0; 3; 3; 3; 0; 0; 0]];
     current_piece := i_piece;
     next_piece :=
       {| shape_idx := 3; color_idx := 4; shape := [[0; 1; 1]; [1; 1; 0]];
          x := 4; y := 0; rotation := 0 |};
     running := true; game_over := false |}.

Example nineteen_falls_lock : run_frames nineteen_falls first_state = Some t_piece_locked.
Proof. by vm_compute. Qed.

Lemma t_piece_locked_reachable : reachable t_piece_locked.
Proof.
  apply (run_frames_reachable nineteen_falls first_state t_piece_locked);
    [exact tetris_first_state_reachable | reflexivity | by_decision | by vm_compute].
Defined.

(** C3: take any key event of the game loop, handled after any events of the
    same frame, while the game is not over.  The position the key attempts is
    tested by [is_valid_position], which rejects it exactly when some cell of
    the piece is outside the horizontal bounds, below the bottom, or on a
    non-empty cell of the grid.  If it is rejected, the piece is afterwards
    what it was before the event (same x, y and rotation); if it is accepted,
    the piece keeps the attempted position.  The grid is the same either
    way. *)
Theorem key_event_reverts (g : Game) (evs : list Event) (g1 : Game) (key : Key) :
  reachable g →
  handle_events evs g = Some g1 →
  game_over g1 = false →
  ∃ (ok : bool) (g2 : Game),
    is_valid_position (attempt key (current_piece g1)) (grid g1) = Some ok ∧
    (ok = true ↔
       Forall (cell_free (grid g1)) (get_cells (attempt key (current_piece g1)))) ∧
    handle_event (KEYDOWN key) g1 = Some g2 ∧
    grid g2 = grid g1 ∧
    (ok = false →
       current_piece g2 = current_piece g1 ∧
       x (current_piece g2) = x (current_piece g1) ∧
       y (current_piece g2) = y (current_piece g1) ∧
       rotation (current_piece g2) = rotation (current_piece g1)) ∧
    (ok = true → current_piece g2 = attempt key (current_piece g1)).
Proof.
  intros Hreach Hevs Hover.
  destruct (handle_events_inv evs g (tetris_reachable_inv g Hreach))
    as (g1' & Hevs' & [Hwf Hcells Hcur Hnext] & _).
  assert (g1' = g1) as -> by congruence.
  destruct (handle_key_spec key (current_piece g1) (grid g1)) as (ok & Hok & Hk);
    [done | apply Hcur |].
  exists ok, (set_current_piece (if ok then attempt key (current_piece g1)
                                 else current_piece g1) g1).
  split; [done|]. split.
  { rewrite <- cells_valid_spec by done. unfold is_valid_position in Hok.
    rewrite Hok. split; congruence. }
  split.
  { unfold handle_event. simpl. rewrite Hover. simpl. by rewrite Hk. }
  split; [done|]. split; intros ->; simpl; done.
Qed.

Lemma key_event_reverts_witness :
  ∃ (ok : bool) (g2 : Game),
    is_valid_position (attempt K_LEFT (current_piece first_state))
      (grid first_state) = Some ok ∧
    (ok = true ↔
       Forall (cell_free (grid first_state))
         (get_cells (attempt K_LEFT (current_piece first_state)))) ∧
    handle_event (KEYDOWN K_LEFT) first_state = Some g2 ∧
    grid g2 = grid first_state ∧
    (ok = false →
       current_piece g2 = current_piece first_state ∧
       x (current_piece g2) = x (current_piece first_state) ∧
       y (current_piece g2) = y (current_piece first_state) ∧
       rotation (current_piece g2) = rotation (current_piece first_state)) ∧
    (ok = true → current_piece g2 = attempt K_LEFT (current_piece first_state)).
Proof.
  apply (key_event_reverts first_state [] first_state K_LEFT);
    [exact tetris_first_state_reachable | reflexivity | reflexivity].
Defined.

(** C4: the grid starts all-zero; in every state of a run both pieces have
    the colour index [shape_idx + 1] with [shape_idx] in 0-6; and in every
    state of a run every cell of the grid holds a value in 0-7. *)
Theorem grid_cells_in_range (g : Game) :
  reachable g →
  Forall (Forall (λ c, c = 0)) create_grid ∧
  (0 ≤ shape_idx (current_piece g) ≤ 6 ∧
   color_idx (current_piece g) = shape_idx (current_piece g) + 1) ∧
  (0 ≤ shape_idx (next_piece g) ≤ 6 ∧
   color_idx (next_piece g) = shape_idx (next_piece g) + 1) ∧
  Forall (Forall (λ c, 0 ≤ c ≤ 7)) (grid g).
Proof.
  intros [Hwf Hcells Hcur Hnext]%tetris_reachable_inv.
  split; [apply create_grid_zero|].
  split; [split; apply Hcur|]. split; [split; apply Hnext|]. done.
Qed.

Lemma grid_cells_in_range_witness :
  Forall (Forall (λ c, c = 0)) create_grid ∧
  (0 ≤ shape_idx (current_piece t_piece_locked) ≤ 6 ∧
   color_idx (current_piece t_piece_locked) =
   shape_idx (current_piece t_piece_locked) + 1) ∧
  (0 ≤ shape_idx (next_piece t_piece_locked) ≤ 6 ∧
   color_idx (next_piece t_piece_locked) =
   shape_idx (next_piece t_piece_locked) + 1) ∧
  Forall (Forall (λ c, 0 ≤ c ≤ 7)) (grid t_piece_locked).
Proof.
  apply (grid_cells_in_range t_piece_locked). exact t_piece_locked_reachable.
Defined.

(** The T piece one row above its spawning position: its top row is above
    the grid. *)
Definition t_piece_above : Piece := set_y (-1) t_piece.

(** C8: on a well-formed grid [lock_piece] does not fail, whatever the
    piece; afterwards a cell of the grid holds the piece's colour index if
    the piece occupies it, and what it held before otherwise.  The cells of
    the piece outside the grid are skipped, without an error and without a
    write: locking the piece is locking its cells inside the grid.  And
    [is_valid_position] skips the cells above the grid, so a piece may extend
    above the grid and be valid. *)
Theorem lock_piece_frame (p : Piece) (gr : list (list Z)) :
  well_formed gr →
  (∃ gr', lock_piece p gr = Some gr' ∧ well_formed gr' ∧
     ∀ cx cy, 0 ≤ cx < GRID_WIDTH → 0 ≤ cy < GRID_HEIGHT →
       cell gr' cx cy =
       if decide ((cx, cy) ∈ get_cells p) then Some (color_idx p)
       else cell gr cx cy) ∧
  lock_piece p gr = lock_cells (filter in_grid (get_cells p)) (color_idx p) gr ∧
  is_valid_position p gr =
    cells_valid (filter (λ c, ¬ above_grid c) (get_cells p)) gr.
Proof.
  intros Hwf. split_and!.
  - by apply lock_cells_spec.
  - apply lock_cells_filter.
  - apply cells_valid_filter.
Qed.

Lemma lock_piece_frame_witness :
  (∃ gr', lock_piece t_piece_above create_grid = Some gr' ∧ well_formed gr' ∧
     ∀ cx cy, 0 ≤ cx < GRID_WIDTH → 0 ≤ cy < GRID_HEIGHT →
       cell gr' cx cy =
       if decide ((cx, cy) ∈ get_cells t_piece_above)
       then Some (color_idx t_piece_above)
       else cell create_grid cx cy) ∧
  lock_piece t_piece_above create_grid =
    lock_cells (filter in_grid (get_cells t_piece_above))
      (color_idx t_piece_above) create_grid ∧
  is_valid_position t_piece_above create_grid =
    cells_valid (filter (λ c, ¬ above_grid c) (get_cells t_piece_above))
      create_grid.
Proof.
  apply (lock_piece_frame t_piece_above create_grid), create_grid_well_formed.
Defined.

(** The piece above is valid on the empty grid, and locking it writes the
    three cells of its lower row only. *)
Example t_piece_above_valid :
  get_cells t_piece_above = [(5, -1); (4, 0); (5, 0); (6, 0)] ∧
  is_valid_position t_piece_above create_grid = Some true ∧
  lock_piece t_piece_above create_grid =
    Some ([0; 0; 0; 0; 3; 3; 3; 0; 0; 0] :: replicate 19 zero_row).
Proof. by vm_compute. Qed.

End TetrisSpec.

(** * Properties of the shooter *)

Module InvadersSpec.
Import Invaders.

(** *** The list of tracked bullets and the sprite groups *)

Lemma discard_length (v : nat) (l : list nat) :
  (length (discard v l) ≤ length l)%nat.
Proof. induction l as [|u l IH]; simpl; [done|]. case_decide; simpl; lia. Qed.

Lemma elem_of_discard_ne (u v : nat) (l : list nat) :
  u ≠ v → u ∈ l → u ∈ discard v l.
Proof.
  intros Hne. induction l as [|w l IH]; simpl; [done|].
  intros [->|Hin]%elem_of_cons.
  - rewrite decide_False by done. left.
  - case_decide; [done|]. right. auto.
Qed.

Lemma elem_of_discard (u v : nat) (l : list nat) :
  u ∈ discard v l → u ∈ l.
Proof.
  induction l as [|w l IH]; simpl; [done|].
  case_decide; [by right|]. intros [->|Hin]%elem_of_cons; [left|right; auto].
Qed.

Lemma remove_ids (id : nat) (grp : list Bullet) :
  bullet_id <$> bullet_group_remove id grp =
  filter (λ i, i ≠ id) (bullet_id <$> grp).
Proof.
  unfold bullet_group_remove.
  induction grp as [|b grp IH]; [done|].
  rewrite fmap_cons, !filter_cons.
  case_decide; [rewrite fmap_cons|]; by rewrite IH.
Qed.

Lemma put_ids (b1 : Bullet) (grp : list Bullet) :
  bullet_id <$> bullet_group_put b1 grp = bullet_id <$> grp.
Proof.
  unfold bullet_group_put. rewrite <- list_fmap_compose.
  apply list_fmap_ext. intros _ b _. simpl. by case_decide.
Qed.

Lemma remove_absent (id : nat) (grp : list Bullet) :
  id ∉ bullet_id <$> grp → bullet_group_remove id grp = grp.
Proof.
  unfold bullet_group_remove.
  induction grp as [|b grp IH]; [done|].
  rewrite fmap_cons, not_elem_of_cons. intros [Hne Hnin].
  rewrite filter_cons_True by done. by rewrite IH.
Qed.

Lemma put_absent (b1 : Bullet) (grp : list Bullet) :
  bullet_id b1 ∉ bullet_id <$> grp → bullet_group_put b1 grp = grp.
Proof.
  unfold bullet_group_put.
  induction grp as [|b grp IH]; [done|].
  rewrite !fmap_cons, not_elem_of_cons. intros [Hne Hnin].
  rewrite decide_False by done. by rewrite IH.
Qed.

Lemma remove_sublist (id : nat) (grp : list Bullet) :
  bullet_group_remove id grp `sublist_of` grp.
Proof. apply sublist_filter. Qed.

(** What links [player.bullets] to the group [player_bullets]: the group
    holds no bullet twice, every bullet of the group is tracked, and at most
    two are tracked. *)
Definition bullets_ok (pl : Player) (pbs : list Bullet) : Prop :=
  max_bullets pl = 2 ∧ (length (bullets pl) ≤ 2)%nat ∧
  NoDup (bullet_id <$> pbs) ∧
  ∀ i, i ∈ bullet_id <$> pbs → i ∈ bullets pl.

Lemma bullets_ok_length (pl : Player) (pbs : list Bullet) :
  bullets_ok pl pbs → (length pbs ≤ 2)%nat.
Proof.
  intros (_ & Hlen & Hnd & Hsub).
  pose proof (submseteq_length _ _ (NoDup_submseteq _ _ Hnd Hsub)) as H.
  rewrite length_fmap in H. lia.
Qed.

Lemma bullets_ok_rect (r : Rect) (pl : Player) (pbs : list Bullet) :
  bullets_ok pl pbs → bullets_ok (set_player_rect r pl) pbs.
Proof. done. Qed.

Lemma bullets_ok_destroy (id : nat) (pl : Player) (pbs : list Bullet) :
  bullets_ok pl pbs →
  bullets_ok (set_bullets (discard id (bullets pl)) pl) (bullet_group_remove id pbs).
Proof.
  intros (Hmax & Hlen & Hnd & Hsub). split_and!; simpl.
  - done.
  - pose proof (discard_length id (bullets pl)). lia.
  - rewrite remove_ids. by apply NoDup_filter.
  - intros i. rewrite remove_ids.
    intros [Hne Hin]%list_elem_of_filter. apply elem_of_discard_ne; auto.
Qed.

Lemma bullets_ok_put (b1 : Bullet) (pl : Player) (pbs : list Bullet) :
  bullets_ok pl pbs → bullets_ok pl (bullet_group_put b1 pbs).
Proof. unfold bullets_ok. by rewrite put_ids. Qed.

Lemma bullets_ok_shoot (id : nat) (pl : Player) (pbs : list Bullet) :
  bullets_ok pl pbs →
  bullets_ok (shoot id pl).1
    (match (shoot id pl).2 with
     | Some b => bullet_group_add b pbs
     | None => pbs
     end).
Proof.
  intros (Hmax & Hlen & Hnd & Hsub). unfold shoot.
  case_decide as Hroom; simpl; [|done].
  split_and!; simpl.
  - done.
  - rewrite length_app. simpl. lia.
  - unfold bullet_group_add. simpl. case_decide as Hin; [done|].
    rewrite fmap_app. apply NoDup_app. split_and!; [done| |apply NoDup_singleton].
    intros i Hi [->|[]%elem_of_nil]%elem_of_cons. done.
  - intros i. unfold bullet_group_add. simpl. case_decide as Hin.
    + intros Hi. apply elem_of_app. left. auto.
    + rewrite fmap_app, !elem_of_app. intros [Hi|Hi]; [left; auto|by right].
Qed.

Lemma update_player_bullets_ok (todo : list Bullet) :
  ∀ (pl : Player) (pbs : list Bullet),
    bullets_ok pl pbs →
    bullets_ok (update_player_bullets todo pl pbs).1
               (update_player_bullets todo pl pbs).2 ∧
    player_rect (update_player_bullets todo pl pbs).1 = player_rect pl ∧
    player_speed (update_player_bullets todo pl pbs).1 = player_speed pl.
Proof.
  induction todo as [|b rest IH]; intros pl pbs Hok; simpl; [done|].
  destruct (Bullet_update b) as [b1 destroyed]. destruct destroyed.
  - destruct (IH _ _ (bullets_ok_destroy (bullet_id b) pl pbs Hok)) as (H1 & H2 & H3).
    done.
  - by apply IH, bullets_ok_put.
Qed.

Lemma hit_aliens_ok (todo : list Bullet) :
  ∀ (pl : Player) (pbs : list Bullet) (als : list Alien) (sc : Z),
    bullets_ok pl pbs →
    bullets_ok (hit_aliens todo pl pbs als sc).1.1.1
               (hit_aliens todo pl pbs als sc).1.1.2 ∧
    player_rect (hit_aliens todo pl pbs als sc).1.1.1 = player_rect pl ∧
    player_speed (hit_aliens todo pl pbs als sc).1.1.1 = player_speed pl ∧
    (hit_aliens todo pl pbs als sc).1.2 `sublist_of` als.
Proof.
  induction todo as [|b rest IH]; intros pl pbs als sc Hok; simpl; [done|].
  destruct (spritecollideany b als) as [a|]; [|by apply IH].
  destruct (IH (set_bullets (discard (bullet_id b) (bullets pl)) pl)
              (bullet_group_remove (bullet_id b) pbs)
              (alien_group_remove (alien_id a) als) (sc + 10)
              (bullets_ok_destroy (bullet_id b) pl pbs Hok)) as (H1 & H2 & H3 & H4).
  split_and!; try done.
  etrans; [exact H4|]. apply sublist_filter.
Qed.

(** *** The player's ship *)

(** On screen up to an overhang of less than [PLAYER_SPEED]. *)
Definition on_screen (r : Rect) : Prop :=
  left r > - PLAYER_SPEED ∧ right r < SCREEN_WIDTH + PLAYER_SPEED.

(** Where the ship is in a run: a whole number of moves away from the
    centre, between the edges. *)
Definition player_ok (pl : Player) : Prop :=
  player_speed pl = PLAYER_SPEED ∧ w (player_rect pl) = PLAYER_WIDTH ∧
  x (player_rect pl) `mod` PLAYER_SPEED = 0 ∧
  0 ≤ left (player_rect pl) ∧ right (player_rect pl) ≤ SCREEN_WIDTH.

Lemma player_ok_on_screen (pl : Player) :
  player_ok pl → on_screen (player_rect pl).
Proof.
  unfold player_ok, on_screen, left, right, PLAYER_SPEED, SCREEN_WIDTH. lia.
Qed.

(** The two tests of [Player.update], one after the other. *)
Ltac player_update_cases H1 H2 :=
  unfold Player_update;
  match goal with
  | |- context [?kl && bool_decide (left ?r > 0)] =>
      destruct (kl && bool_decide (left r > 0)) eqn:H1
  end;
  cbv zeta;
  match goal with
  | |- context [?kr && bool_decide (right ?r < SCREEN_WIDTH)] =>
      destruct (kr && bool_decide (right r < SCREEN_WIDTH)) eqn:H2
  end;
  try (apply andb_true_iff in H1 as [_ H1%bool_decide_eq_true]);
  try (apply andb_true_iff in H2 as [_ H2%bool_decide_eq_true]).

(** A move is taken only from inside the screen, so it ends less than one
    move outside. *)
Lemma Player_update_on_screen (kl kr : bool) (pl : Player) :
  player_speed pl = PLAYER_SPEED → on_screen (player_rect pl) →
  on_screen (player_rect (Player_update kl kr pl)).
Proof.
  intros Hs [Hl Hr].
  player_update_cases H1 H2; unfold on_screen, left, right in *; simpl in *;
    rewrite ?Hs in *; unfold PLAYER_SPEED, SCREEN_WIDTH in *; lia.
Qed.

Lemma Player_update_ok (kl kr : bool) (pl : Player) :
  player_ok pl → player_ok (Player_update kl kr pl).
Proof.
  unfold player_ok, PLAYER_SPEED, PLAYER_WIDTH.
  intros (Hs & Hw & Hm & Hl & Hr). unfold left, right, SCREEN_WIDTH in Hl, Hr.
  assert (∀ v, v `mod` 5 = 0 → (v - 5) `mod` 5 = 0 ∧ (v + 5) `mod` 5 = 0) as Hmod.
  { intros v Hv. split.
    - replace (v - 5) with (v + (-1) * 5) by lia. by rewrite Z.mod_add.
    - replace (v + 5) with (v + 1 * 5) by lia. by rewrite Z.mod_add. }
  assert (∀ v, v `mod` 5 = 0 → 0 < v → 5 ≤ v) as Hstep.
  { intros v Hv Hpos. pose proof (Z.div_mod v 5). lia. }
  assert (∀ v, v `mod` 5 = 0 → v < 750 → v ≤ 745) as Hstep'.
  { intros v Hv Hpos. pose proof (Z.div_mod v 5). lia. }
  specialize (Hstep _ Hm). specialize (Hstep' _ Hm).
  pose proof (Hmod _ Hm) as [Hm1 Hm2].
  pose proof (Hmod _ Hm1) as [_ Hm3].
  player_update_cases H1 H2; unfold left, right, SCREEN_WIDTH in *; simpl in *;
    rewrite ?Hs, ?Hw in *; split_and!; try done; try lia.
Qed.

Lemma Player_update_bullets (kl kr : bool) (pl : Player) :
  bullets (Player_update kl kr pl) = bullets pl ∧
  max_bullets (Player_update kl kr pl) = max_bullets pl.
Proof.
  player_update_cases H1 H2; done.
Qed.

(** *** The aliens *)

Lemma setup_aliens_ids (delays : nat → Z) :
  alien_id <$> setup_aliens delays = seq 0 50.
Proof. reflexivity. Qed.

Lemma should_shoot_id (t d : Z) (a : Alien) :
  alien_id (should_shoot t d a).1 = alien_id a.
Proof. unfold should_shoot. by case_decide. Qed.

Lemma should_shoot_rect (t d : Z) (a : Alien) :
  alien_rect (should_shoot t d a).1 = alien_rect a.
Proof. unfold should_shoot. by case_decide. Qed.

(** The loop that collects the shooting aliens does not fail: the column of
    an alien holds the alien itself.  It keeps the aliens of the group. *)
Lemma shooting_loop_total (inp : Input) (todo : list Alien) :
  ∀ done shooting : list Alien,
  ∃ als1 sh, shooting_loop inp done todo shooting = Some (als1, sh) ∧
             alien_id <$> als1 = alien_id <$> (done ++ todo).
Proof.
  induction todo as [|a rest IH]; intros done shooting; simpl.
  { eexists _, _. split; [done|]. by rewrite app_nil_r. }
  pose proof (should_shoot_id (current_time inp) (new_delay inp (alien_id a)) a) as Hid.
  destruct (should_shoot _ _ a) as [a1 wants]. simpl in Hid.
  assert (alien_id <$> (done ++ [a1]) ++ rest = alien_id <$> done ++ a :: rest) as Hids.
  { rewrite <- app_assoc, !fmap_app, !fmap_cons. simpl. by rewrite Hid. }
  destruct wants.
  - destruct (filter _ (done ++ a1 :: rest)) as [|c column] eqn:Hcol.
    { exfalso. eapply (filter_nil_not_elem_of _ _ a1); [exact Hcol|done|].
      apply elem_of_app. right. left. }
    simpl.
    edestruct IH as (als1 & sh & -> & Hals). eexists _, _. split; [done|].
    by rewrite Hals.
  - edestruct IH as (als1 & sh & -> & Hals). eexists _, _. split; [done|].
    by rewrite Hals.
Qed.

Lemma choice_total {A} (n : nat) (a : A) (l : list A) :
  ∃ c, choice n (a :: l) = Some c.
Proof.
  unfold choice. apply lookup_lt_is_Some_2, Nat.mod_upper_bound. done.
Qed.

(** The speed the end of an update assigns. *)
Definition speed_for (remaining : nat) : number :=
  Int (ALIEN_SPEED + (ALIEN_ROWS * ALIEN_COLS - Z.of_nat remaining) / 10).

(** *** The invariant of the game loop *)

Record inv (g : Game) : Prop := mkInv {
  inv_player : player_ok (player g);
  inv_bullets : bullets_ok (player g) (player_bullets g);
  inv_aliens : alien_id <$> aliens g `sublist_of` seq 0 50;
  inv_speed : alien_speed g = speed_for (length (aliens g))
}.

(** What every part of a frame keeps: the ship stays where it may be, the
    tracking of the bullets stays right, and no alien is added. *)
Definition keeps (g g' : Game) : Prop :=
  (player_ok (player g) ∧ bullets_ok (player g) (player_bullets g) →
   player_ok (player g') ∧ bullets_ok (player g') (player_bullets g')) ∧
  alien_id <$> aliens g' `sublist_of` alien_id <$> aliens g.

Lemma keeps_trans (g1 g2 g3 : Game) : keeps g1 g2 → keeps g2 g3 → keeps g1 g3.
Proof. intros [Hp1 Ha1] [Hp2 Ha2]. split; [auto|by etrans]. Qed.

Lemma player_ok_same (pl pl' : Player) :
  player_rect pl' = player_rect pl → player_speed pl' = player_speed pl →
  player_ok pl → player_ok pl'.
Proof. unfold player_ok. by intros -> ->. Qed.

Lemma handle_event_keeps (ev : Event) (g : Game) :
  keeps g (handle_event ev g) ∧
  player_rect (player (handle_event ev g)) = player_rect (player g) ∧
  aliens (handle_event ev g) = aliens g ∧
  alien_speed (handle_event ev g) = alien_speed g ∧
  (ev ≠ QUIT → running (handle_event ev g) = running g).
Proof.
  unfold handle_event.
  assert (ev ≠ QUIT → (if decide (ev = QUIT) then false else running g) = running g)
    as Hrun by (intros; by rewrite decide_False).
  destruct (negb (game_over g) && negb (win g));
    [|unfold keeps; simpl; split_and!; done].
  destruct ev as [|[]|]; try (unfold keeps; simpl; split_and!; done).
  pose proof (bullets_ok_shoot (next_id g) (player g) (player_bullets g)) as Hshoot.
  assert (player_rect (shoot (next_id g) (player g)).1 = player_rect (player g) ∧
          player_speed (shoot (next_id g) (player g)).1 = player_speed (player g))
    as [Hrect Hspeed].
  { unfold shoot. by destruct (decide (_ < _)). }
  destruct (shoot (next_id g) (player g)) as [pl [b|]]; simpl in *.
  - split_and!; try done. unfold keeps. simpl. split; [|done].
    intros [Hp Hb]. split; [by eapply player_ok_same|auto].
  - split_and!; try done. unfold keeps. simpl. split; [|done].
    intros [Hp Hb]. split; [by eapply player_ok_same|auto].
Qed.

Lemma handle_events_keeps (evs : list Event) :
  ∀ g : Game,
  keeps g (handle_events evs g) ∧
  player_rect (player (handle_events evs g)) = player_rect (player g) ∧
  aliens (handle_events evs g) = aliens g ∧
  alien_speed (handle_events evs g) = alien_speed g ∧
  (QUIT ∉ evs → running (handle_events evs g) = running g).
Proof.
  unfold handle_events.
  induction evs as [|ev evs IH]; intros g; simpl.
  { split_and!; try done. }
  destruct (handle_event_keeps ev g) as (Hk1 & Hr1 & Ha1 & Hs1 & Hq1).
  destruct (IH (handle_event ev g)) as (Hk2 & Hr2 & Ha2 & Hs2 & Hq2).
  split_and!; try congruence.
  - by eapply keeps_trans.
  - intros [Hne Hnin]%not_elem_of_cons. rewrite Hq2, Hq1; done.
Qed.

Lemma move_player_and_bullets_keeps (inp : Input) (g : Game) :
  keeps g (move_player_and_bullets inp g) ∧
  running (move_player_and_bullets inp g) = running g.
Proof.
  unfold move_player_and_bullets.
  pose proof (update_player_bullets_ok (player_bullets g)
                (Player_update (key_left inp) (key_right inp) (player g))
                (player_bullets g)) as Hupd.
  destruct (update_player_bullets _ _ _) as [pl2 pbs]. simpl in *.
  split; [|done]. split; simpl; [|done]. intros [Hp Hb].
  destruct Hupd as (Hb2 & Hrect & Hspeed).
  { destruct (Player_update_bullets (key_left inp) (key_right inp) (player g))
      as [Hbl Hmax].
    unfold bullets_ok in *. by rewrite Hbl, Hmax. }
  split; [|done].
  eapply player_ok_same; [done..|]. by apply Player_update_ok.
Qed.

Lemma move_aliens_keeps (inp : Input) (g : Game) :
  keeps g (move_aliens inp g) ∧ running (move_aliens inp g) = running g.
Proof.
  unfold move_aliens. case_decide; [|by split].
  split; [|done]. split; simpl; [done|].
  destruct (_ && _); rewrite <- ?list_fmap_compose; done.
Qed.

Lemma aliens_shoot_keeps (inp : Input) (g : Game) :
  ∃ g', aliens_shoot inp g = Some g' ∧ keeps g g' ∧ running g' = running g.
Proof.
  unfold aliens_shoot. case_decide; [|by exists g].
  destruct (shooting_loop_total inp (aliens g) [] []) as (als1 & sh & -> & Hids).
  simpl in *. destruct sh as [|a sh].
  - eexists. split; [done|]. split; [|done]. split; simpl; [done|].
    by rewrite Hids.
  - destruct (choice_total (pick inp) a sh) as [c ->]. simpl.
    eexists. split; [done|]. split; [|done]. split; simpl; [done|].
    by rewrite Hids.
Qed.

Lemma check_collisions_eq (pl : Player) (pbs abs : list Bullet) (als : list Alien)
    (sc : Z) :
  let r := hit_aliens pbs pl pbs als sc in
  let c := check_collisions pl pbs abs als sc in
  c_player c = r.1.1.1 ∧ c_player_bullets c = r.1.1.2 ∧ c_aliens c = r.1.2 ∧
  c_score c = r.2 ∧
  c_player_hit c = (hit_player abs r.1.1.1 abs).1 ∧
  c_alien_bullets c = (hit_player abs r.1.1.1 abs).2.
Proof.
  unfold check_collisions.
  destruct (hit_aliens pbs pl pbs als sc) as [[[pl1 pbs1] als1] sc1]. simpl.
  by destruct (hit_player abs pl1 abs).
Qed.

Lemma resolve_keeps (g : Game) :
  keeps g (resolve g) ∧ running (resolve g) = running g ∧
  alien_speed (resolve g) = speed_for (length (aliens (resolve g))).
Proof.
  split; [|done]. unfold resolve.
  destruct (check_collisions_eq (player g) (player_bullets g) (alien_bullets g)
              (aliens g) (score g)) as (Hpl & Hpbs & Hals & _).
  pose proof (hit_aliens_ok (player_bullets g) (player g) (player_bullets g)
                (aliens g) (score g)) as Hhit.
  split; simpl.
  - intros [Hp Hb]. destruct (Hhit Hb) as (Hb' & Hrect & Hspeed & _).
    rewrite Hpl, Hpbs.
    assert (player_ok (hit_aliens (player_bullets g) (player g) (player_bullets g)
                         (aliens g) (score g)).1.1.1) as Hp'
      by by eapply player_ok_same.
    destruct (_ && _); [|done]. split; [|done].
    destruct Hp' as (Hs & Hw & _).
    unfold player_ok, left, right. simpl. rewrite Hs, Hw. by vm_compute.
  - rewrite Hals.
    assert (∀ (todo : list Bullet) pl pbs als sc,
              (hit_aliens todo pl pbs als sc).1.2 `sublist_of` als) as Hsub.
    { induction todo as [|b rest IH]; intros pl pbs als sc; simpl; [done|].
      destruct (spritecollideany b als) as [a|]; [|apply IH].
      etrans; [apply IH|]. apply sublist_filter. }
    apply fmap_sublist, Hsub.
Qed.

Lemma update_keeps (inp : Input) (g : Game) :
  ∃ g', update inp g = Some g' ∧ keeps g g' ∧ running g' = running g ∧
        (alien_speed g = speed_for (length (aliens g)) →
         alien_speed g' = speed_for (length (aliens g'))).
Proof.
  unfold update. destruct (_ && _).
  - destruct (move_player_and_bullets_keeps inp g) as [Hk1 Hr1].
    destruct (move_aliens_keeps inp (move_player_and_bullets inp g)) as [Hk2 Hr2].
    destruct (aliens_shoot_keeps inp (move_aliens inp (move_player_and_bullets inp g)))
      as (g3 & -> & Hk3 & Hr3).
    destruct (resolve_keeps g3) as (Hk4 & Hr4 & Hs4). simpl.
    exists (resolve g3). split_and!; try done; [|congruence].
    eauto using keeps_trans.
  - exists g. by split_and!.
Qed.

Lemma frame_keeps (inp : Input) (g : Game) :
  ∃ g', frame inp g = Some g' ∧ keeps g g' ∧
        (QUIT ∉ events inp → running g' = running g) ∧
        (alien_speed g = speed_for (length (aliens g)) →
         alien_speed g' = speed_for (length (aliens g'))).
Proof.
  unfold frame.
  destruct (handle_events_keeps (events inp) g) as (Hk1 & _ & Ha1 & Hs1 & Hq1).
  destruct (update_keeps inp (handle_events (events inp) g))
    as (g' & -> & Hk2 & Hr2 & Hs2).
  exists g'. split_and!; try done.
  - by eapply keeps_trans.
  - intros Hq. rewrite Hr2. auto.
  - intros Hs. apply Hs2. by rewrite Hs1, Ha1.
Qed.

Lemma invaders_start_inv (delays : nat → Z) : inv (start delays).
Proof.
  split; simpl.
  - by vm_compute.
  - split_and!; simpl; try done; [lia | apply NoDup_nil_2].
  - change (alien_id <$> setup_aliens delays `sublist_of` seq 0 50).
    by rewrite setup_aliens_ids.
  - reflexivity.
Qed.

Lemma invaders_frame_inv (inp : Input) (g g' : Game) :
  inv g → frame inp g = Some g' → inv g'.
Proof.
  intros [Hp Hb Ha Hs] Hframe.
  destruct (frame_keeps inp g) as (g2 & Hg2 & [Hk Hsub] & _ & Hs2).
  assert (g2 = g') as -> by congruence.
  destruct (Hk (conj Hp Hb)) as [Hp' Hb'].
  split; auto. by etrans.
Qed.

Lemma invaders_reachable_inv (g : Game) : reachable g → inv g.
Proof.
  induction 1 as [delays | g inp g' _ IH _ Hframe].
  - apply invaders_start_inv.
  - by eapply invaders_frame_inv.
Qed.

(** *** Bullets leaving the screen *)

(** What [update] makes of a bullet that stays in its group. *)
Definition survivor (b : Bullet) : option Bullet :=
  if (Bullet_update b).2 then None else Some (Bullet_update b).1.

Lemma Bullet_update_id (b : Bullet) : bullet_id (Bullet_update b).1 = bullet_id b.
Proof. unfold Bullet_update. by case_decide. Qed.

Lemma survivors_ids_subseteq (todo : list Bullet) (i : nat) :
  i ∈ bullet_id <$> omap survivor todo → i ∈ bullet_id <$> todo.
Proof.
  induction todo as [|b rest IH]; simpl; [done|].
  unfold survivor at 1. destruct (Bullet_update b).2 eqn:Hk; simpl.
  - intros Hi. right. auto.
  - rewrite Bullet_update_id. intros [->|Hi]%elem_of_cons; [left|right; auto].
Qed.

(** The update loop over a group that holds no bullet twice: the bullets
    that have left the screen are gone, the others have moved. *)
Lemma update_alien_bullets_scan (todo : list Bullet) :
  ∀ seen : list Bullet,
    NoDup (bullet_id <$> seen ++ todo) →
    update_alien_bullets todo (seen ++ todo) = seen ++ omap survivor todo.
Proof.
  induction todo as [|b rest IH]; intros seen Hnd; simpl; [done|].
  rewrite fmap_app, fmap_cons in Hnd.
  apply NoDup_app in Hnd as (Hseen & Hdisj & [Hb Hrest]%NoDup_cons).
  assert (bullet_id b ∉ bullet_id <$> seen) as Hb'.
  { intros Hin. apply (Hdisj _ Hin). left. }
  unfold survivor at 1.
  pose proof (Bullet_update_id b) as Hid.
  destruct (Bullet_update b) as [b1 destroyed]. simpl in *. destruct destroyed.
  - unfold bullet_group_remove. rewrite filter_app, filter_cons_False by tauto.
    fold (bullet_group_remove (bullet_id b) seen).
    fold (bullet_group_remove (bullet_id b) rest).
    rewrite !remove_absent by done.
    apply IH. rewrite fmap_app. apply NoDup_app. split_and!; [done| |done].
    intros i Hi Hi'. apply (Hdisj _ Hi). by right.
  - unfold bullet_group_put. rewrite fmap_app, fmap_cons.
    fold (bullet_group_put b1 seen). fold (bullet_group_put b1 rest).
    rewrite !put_absent by (by rewrite Hid).
    rewrite decide_True by done.
    rewrite (cons_middle b1 seen rest), app_assoc, IH; [by rewrite <- app_assoc|].
    rewrite <- app_assoc. simpl. rewrite fmap_app, fmap_cons, Hid.
    apply NoDup_app. split_and!; [done| |by apply NoDup_cons].
    intros i Hi Hi'. by apply (Hdisj _ Hi).
Qed.

(** The bullets the loop over the player's bullets forgets in
    [player.bullets]. *)
Definition forget_destroyed (todo : list Bullet) (tracked : list nat) : list nat :=
  fold_left (λ l b, if (Bullet_update b).2 then discard (bullet_id b) l else l)
            todo tracked.

Lemma update_player_bullets_scan (todo : list Bullet) :
  ∀ (seen : list Bullet) (pl : Player),
    NoDup (bullet_id <$> seen ++ todo) →
    update_player_bullets todo pl (seen ++ todo) =
    (set_bullets (forget_destroyed todo (bullets pl)) pl, seen ++ omap survivor todo).
Proof.
  induction todo as [|b rest IH]; intros seen pl Hnd; simpl.
  { by destruct pl. }
  rewrite fmap_app, fmap_cons in Hnd.
  apply NoDup_app in Hnd as (Hseen & Hdisj & [Hb Hrest]%NoDup_cons).
  assert (bullet_id b ∉ bullet_id <$> seen) as Hb'.
  { intros Hin. apply (Hdisj _ Hin). left. }
  unfold survivor at 1. unfold forget_destroyed. simpl.
  pose proof (Bullet_update_id b) as Hid.
  destruct (Bullet_update b) as [b1 destroyed]. simpl in *. destruct destroyed.
  - unfold bullet_group_remove. rewrite filter_app, filter_cons_False by tauto.
    fold (bullet_group_remove (bullet_id b) seen).
    fold (bullet_group_remove (bullet_id b) rest).
    rewrite !remove_absent by done.
    rewrite IH; [done|]. rewrite fmap_app. apply NoDup_app. split_and!; [done| |done].
    intros i Hi Hi'. apply (Hdisj _ Hi). by right.
  - unfold bullet_group_put. rewrite fmap_app, fmap_cons.
    fold (bullet_group_put b1 seen). fold (bullet_group_put b1 rest).
    rewrite !put_absent by (by rewrite Hid).
    rewrite decide_True by done.
    rewrite (cons_middle b1 seen rest), app_assoc, IH; [by rewrite <- app_assoc|].
    rewrite <- app_assoc. simpl. rewrite fmap_app, fmap_cons, Hid.
    apply NoDup_app. split_and!; [done| |by apply NoDup_cons].
    intros i Hi Hi'. by apply (Hdisj _ Hi).
Qed.

(** *** Collisions *)

Lemma spritecollideany_Some (b : Bullet) (als : list Alien) (a : Alien) :
  spritecollideany b als = Some a →
  a ∈ als ∧ colliderect (bullet_rect b) (alien_rect a).
Proof.
  unfold spritecollideany.
  destruct (list_find _ als) as [[i a']|] eqn:Hfind; [|done]. simpl.
  intros [= <-]. apply list_find_Some in Hfind as (Hi & Hc & _).
  split; [by eapply list_elem_of_lookup_2|done].
Qed.

Lemma spritecollideany_None (b : Bullet) (als : list Alien) :
  spritecollideany b als = None →
  Forall (λ a, ¬ colliderect (bullet_rect b) (alien_rect a)) als.
Proof.
  unfold spritecollideany.
  destruct (list_find _ als) as [[i a']|] eqn:Hfind; [done|]. intros _.
  by apply list_find_None in Hfind.
Qed.

Lemma hit_aliens_rect (todo : list Bullet) :
  ∀ (pl : Player) (pbs : list Bullet) (als : list Alien) (sc : Z),
    player_rect (hit_aliens todo pl pbs als sc).1.1.1 = player_rect pl.
Proof.
  induction todo as [|b rest IH]; intros pl pbs als sc; simpl; [done|].
  destruct (spritecollideany b als) as [a|]; by rewrite IH.
Qed.

Lemma hit_aliens_sublist (todo : list Bullet) :
  ∀ (pl : Player) (pbs : list Bullet) (als : list Alien) (sc : Z),
    (hit_aliens todo pl pbs als sc).1.1.2 `sublist_of` pbs ∧
    (hit_aliens todo pl pbs als sc).1.2 `sublist_of` als.
Proof.
  induction todo as [|b rest IH]; intros pl pbs als sc; simpl; [done|].
  destruct (spritecollideany b als) as [a|]; [|apply IH].
  edestruct IH as [H1 H2]. split; (etrans; [done|]); apply sublist_filter.
Qed.

(** After the loop, a bullet it has visited and left in the group touches
    none of the aliens that are left. *)
Lemma hit_aliens_clear (todo : list Bullet) :
  ∀ (pl : Player) (pbs : list Bullet) (als : list Alien) (sc : Z) (b : Bullet) (a : Alien),
    b ∈ todo →
    b ∈ (hit_aliens todo pl pbs als sc).1.1.2 →
    a ∈ (hit_aliens todo pl pbs als sc).1.2 →
    ¬ colliderect (bullet_rect b) (alien_rect a).
Proof.
  induction todo as [|b0 rest IH]; intros pl pbs als sc b a; simpl; [by intros ?%elem_of_nil|].
  destruct (spritecollideany b0 als) as [a0|] eqn:Hhit.
  - intros [->|Hin]%elem_of_cons Hb Ha; [|by eapply IH].
    exfalso. eapply elem_of_sublist in Hb; [|apply hit_aliens_sublist].
    by apply list_elem_of_filter in Hb as [Hne _].
  - intros [->|Hin]%elem_of_cons Hb Ha; [|by eapply IH].
    apply spritecollideany_None in Hhit. rewrite Forall_forall in Hhit.
    apply Hhit. eapply elem_of_sublist; [done|apply hit_aliens_sublist].
Qed.

(** Ten points for every alien taken out of a group that holds no alien
    twice. *)
Lemma alien_group_remove_length (a : Alien) (als : list Alien) :
  NoDup (alien_id <$> als) → a ∈ als →
  (length (alien_group_remove (alien_id a) als) + 1 = length als)%nat.
Proof.
  unfold alien_group_remove.
  induction als as [|c als IH]; [by intros _ ?%elem_of_nil|].
  rewrite fmap_cons. intros [Hc Hnd]%NoDup_cons Hin.
  destruct (decide (alien_id c = alien_id a)) as [Heq|Hne].
  - rewrite filter_cons_False by tauto.
    fold (alien_group_remove (alien_id a) als).
    assert (alien_group_remove (alien_id a) als = als) as ->; [|simpl; lia].
    unfold alien_group_remove. clear IH Hin Hnd.
    rewrite Heq in Hc. induction als as [|d als IH]; [done|].
    rewrite fmap_cons, not_elem_of_cons in Hc. destruct Hc as [Hd Hc].
    rewrite filter_cons_True by done. by rewrite IH.
  - rewrite filter_cons_True by done. simpl.
    apply elem_of_cons in Hin as [->|Hin]; [done|]. rewrite <- IH by done. lia.
Qed.

Lemma alien_group_remove_NoDup (id : nat) (als : list Alien) :
  NoDup (alien_id <$> als) → NoDup (alien_id <$> alien_group_remove id als).
Proof.
  intros Hnd. eapply sublist_NoDup; [exact Hnd|].
  apply fmap_sublist. unfold alien_group_remove. apply sublist_filter.
Qed.

Lemma hit_aliens_score (todo : list Bullet) :
  ∀ (pl : Player) (pbs : list Bullet) (als : list Alien) (sc : Z),
    NoDup (alien_id <$> als) →
    (hit_aliens todo pl pbs als sc).2 =
    sc + 10 * (Z.of_nat (length als) -
               Z.of_nat (length (hit_aliens todo pl pbs als sc).1.2)).
Proof.
  induction todo as [|b rest IH]; intros pl pbs als sc Hnd; simpl; [lia|].
  destruct (spritecollideany b als) as [a|] eqn:Hhit; [|by apply IH].
  apply spritecollideany_Some in Hhit as [Hin _].
  rewrite IH by by apply alien_group_remove_NoDup.
  pose proof (alien_group_remove_length a als Hnd Hin). lia.
Qed.

(** The second loop stops at the first alien bullet that touches the
    player. *)
Lemma hit_player_spec (todo : list Bullet) (pl : Player) (abs : list Bullet) :
  hit_player todo pl abs =
  match list_find (λ b, colliderect (bullet_rect b) (player_rect pl)) todo with
  | Some (_, b) => (true, bullet_group_remove (bullet_id b) abs)
  | None => (false, abs)
  end.
Proof.
  induction todo as [|b rest IH]; simpl; [done|].
  case_decide; [done|]. rewrite IH.
  by destruct (list_find _ rest) as [[i b']|].
Qed.

Lemma same_id_same_bullet (grp : list Bullet) (b b' : Bullet) :
  NoDup (bullet_id <$> grp) → b ∈ grp → b' ∈ grp →
  bullet_id b = bullet_id b' → b = b'.
Proof.
  induction grp as [|c grp IH]; [by intros _ ?%elem_of_nil|].
  rewrite fmap_cons. intros [Hc Hnd]%NoDup_cons.
  intros [->|Hb]%elem_of_cons [->|Hb']%elem_of_cons Hid; [done| | |by apply IH].
  - exfalso. apply Hc. rewrite Hid. by apply list_elem_of_fmap_2.
  - exfalso. apply Hc. rewrite <- Hid. by apply list_elem_of_fmap_2.
Qed.

(** A bullet leaves the group in the first loop only together with an alien
    it touches. *)
Lemma hit_aliens_only_hits (todo : list Bullet) :
  ∀ (pl : Player) (pbs : list Bullet) (als : list Alien) (sc : Z) (b : Bullet),
    NoDup (bullet_id <$> pbs) → NoDup (bullet_id <$> todo) →
    (∀ c, c ∈ todo → c ∈ pbs) →
    b ∈ pbs → b ∉ ((hit_aliens todo pl pbs als sc).1.1.2) →
    ∃ a, a ∈ als ∧ (a ∉ ((hit_aliens todo pl pbs als sc).1.2)) ∧
         colliderect (bullet_rect b) (alien_rect a).
Proof.
  induction todo as [|b0 rest IH]; intros pl pbs als sc b Hnd Hnd0 Hsub Hb; simpl;
    [done|].
  rewrite fmap_cons in Hnd0. apply NoDup_cons in Hnd0 as [Hb0 Hrest].
  destruct (spritecollideany b0 als) as [a0|] eqn:Hhit.
  - intros Hgone. apply spritecollideany_Some in Hhit as [Ha0 Hcol].
    destruct (decide (bullet_id b = bullet_id b0)) as [Heq|Hne].
    + assert (b = b0) as ->.
      { eapply same_id_same_bullet; [exact Hnd|done| |done]. apply Hsub. left. }
      exists a0. split_and!; [done| |done].
      intros Hin. eapply elem_of_sublist in Hin; [|apply hit_aliens_sublist].
      by apply list_elem_of_filter in Hin as [Hin _].
    + edestruct (IH (set_bullets (discard (bullet_id b0) (bullets pl)) pl)
                   (bullet_group_remove (bullet_id b0) pbs)
                   (alien_group_remove (alien_id a0) als) (sc + 10) b)
        as (a & Ha & Ha' & Hc); try done.
      * rewrite remove_ids. by apply NoDup_filter.
      * intros c Hc. apply list_elem_of_filter. split; [|apply Hsub; by right].
        intros Heq. apply Hb0. rewrite <- Heq. by apply list_elem_of_fmap_2.
      * by apply list_elem_of_filter.
      * exists a. split_and!; [|done..].
        by apply list_elem_of_filter in Ha as [_ Ha].
  - intros Hgone. apply (IH pl pbs als sc b); try done.
    intros c Hc. apply Hsub. by right.
Qed.

Lemma same_id_same_alien (als : list Alien) (a a' : Alien) :
  NoDup (alien_id <$> als) → a ∈ als → a' ∈ als →
  alien_id a = alien_id a' → a = a'.
Proof.
  intros Hnd [i Hi]%list_elem_of_lookup [j Hj]%list_elem_of_lookup Hid.
  assert (i = j) as ->; [|congruence].
  eapply NoDup_lookup; [exact Hnd|..]; rewrite list_lookup_fmap.
  - by rewrite Hi.
  - rewrite Hj. cbn. by rewrite Hid.
Qed.

(** On a list without duplicates [remove] takes out every occurrence. *)
Lemma discard_filter (v : nat) (l : list nat) :
  NoDup l → discard v l = filter (λ i, i ≠ v) l.
Proof.
  induction 1 as [|u l Hu Hnd IH]; [done|]. cbn [discard]. rewrite filter_cons.
  destruct (decide (u = v)) as [->|Hne].
  - rewrite decide_False by (by intros ?).
    clear IH Hnd. induction l as [|u l IH]; [done|].
    apply not_elem_of_cons in Hu as [Hne Hu].
    by rewrite filter_cons_True, <- IH by done.
  - rewrite decide_True by done. by rewrite IH.
Qed.

(** The list [player.bullets] follows the group through the first loop. *)
Lemma hit_aliens_tracked (todo : list Bullet) :
  ∀ (pl : Player) (pbs : list Bullet) (als : list Alien) (sc : Z),
    bullets pl = bullet_id <$> pbs → NoDup (bullet_id <$> pbs) →
    bullets (hit_aliens todo pl pbs als sc).1.1.1 =
    bullet_id <$> (hit_aliens todo pl pbs als sc).1.1.2.
Proof.
  induction todo as [|b rest IH]; intros pl pbs als sc Hb Hnd; cbn [hit_aliens];
    [done|].
  destruct (spritecollideany b als) as [a|]; [|by apply IH].
  apply IH.
  - cbn. by rewrite Hb, discard_filter, remove_ids.
  - rewrite remove_ids. eapply sublist_NoDup; [exact Hnd|apply sublist_filter].
Qed.

Lemma hit_player_sublist (todo : list Bullet) (pl : Player) (abs : list Bullet) :
  (hit_player todo pl abs).2 `sublist_of` abs.
Proof.
  rewrite hit_player_spec. destruct (list_find _ _) as [[? b]|]; [|done].
  apply remove_sublist.
Qed.

(** *** The turn of a player bullet *)

(** The aliens still in the group when the bullets [before] have had their
    turn in the first loop of [check_collisions]: each of them has taken out
    the first alien, in the order of the group, that it overlapped, if there
    was one. *)
Definition aliens_after (before : list Bullet) (als : list Alien) : list Alien :=
  fold_left
    (λ left_ b,
       match list_find (λ a, colliderect (bullet_rect b) (alien_rect a)) left_ with
       | Some (_, a) => alien_group_remove (alien_id a) left_
       | None => left_
       end)
    before als.

Lemma spritecollideany_find (b : Bullet) (als : list Alien) :
  spritecollideany b als =
  match list_find (λ a, colliderect (bullet_rect b) (alien_rect a)) als with
  | Some (_, a) => Some a
  | None => None
  end.
Proof.
  unfold spritecollideany. by destruct (list_find _ als) as [[i a]|].
Qed.

Lemma aliens_after_cons (b : Bullet) (before : list Bullet) (als : list Alien) :
  aliens_after (b :: before) als =
  aliens_after before
    (match spritecollideany b als with
     | Some a => alien_group_remove (alien_id a) als
     | None => als
     end).
Proof.
  rewrite spritecollideany_find. unfold aliens_after. cbn [fold_left].
  by destruct (list_find _ als) as [[i a]|].
Qed.

(** The aliens the first loop leaves are those left after the turn of every
    bullet. *)
Lemma hit_aliens_aliens_after (todo : list Bullet) :
  ∀ (pl : Player) (pbs : list Bullet) (als : list Alien) (sc : Z),
    (hit_aliens todo pl pbs als sc).1.2 = aliens_after todo als.
Proof.
  induction todo as [|b rest IH]; intros pl pbs als sc; [done|].
  rewrite aliens_after_cons. cbn [hit_aliens].
  destruct (spritecollideany b als) as [a|]; apply IH.
Qed.

(** A bullet of the group whose turn does not come stays in the group. *)
Lemma hit_aliens_stays (todo : list Bullet) :
  ∀ (pl : Player) (pbs : list Bullet) (als : list Alien) (sc : Z) (b : Bullet),
    b ∈ pbs → (bullet_id b ∉ bullet_id <$> todo) →
    b ∈ (hit_aliens todo pl pbs als sc).1.1.2.
Proof.
  induction todo as [|b0 rest IH]; intros pl pbs als sc b Hb Hid; [done|].
  rewrite fmap_cons in Hid. apply not_elem_of_cons in Hid as [Hne Hid].
  cbn [hit_aliens]. destruct (spritecollideany b0 als) as [a|]; apply IH; try done.
  by apply list_elem_of_filter.
Qed.

Lemma bullet_group_remove_length (b : Bullet) (grp : list Bullet) :
  NoDup (bullet_id <$> grp) → b ∈ grp →
  (length (bullet_group_remove (bullet_id b) grp) + 1 = length grp)%nat.
Proof.
  unfold bullet_group_remove.
  induction grp as [|c grp IH]; [by intros _ ?%elem_of_nil|].
  rewrite fmap_cons. intros [Hc Hnd]%NoDup_cons Hin.
  destruct (decide (bullet_id c = bullet_id b)) as [Heq|Hne].
  - rewrite filter_cons_False by tauto.
    assert (filter (λ b0, bullet_id b0 ≠ bullet_id b) grp = grp) as ->;
      [|cbn; lia].
    clear IH Hin Hnd. rewrite Heq in Hc. induction grp as [|d grp IH]; [done|].
    rewrite fmap_cons, not_elem_of_cons in Hc. destruct Hc as [Hd Hc].
    rewrite filter_cons_True by done. by rewrite IH.
  - rewrite filter_cons_True by done. cbn [length].
    apply elem_of_cons in Hin as [->|Hin]; [done|]. rewrite <- IH by done. lia.
Qed.

(** The turn of the bullet [pb]: if it overlaps an alien that is still in
    the group, the bullet and the first such alien are gone after the loop;
    if it overlaps none, the bullet is still in its group. *)
Lemma hit_aliens_turn (before : list Bullet) :
  ∀ (pb : Bullet) (after : list Bullet) (pl : Player) (pbs : list Bullet)
    (als : list Alien) (sc : Z),
    NoDup (bullet_id <$> pbs) → NoDup (bullet_id <$> before ++ pb :: after) →
    (∀ c, c ∈ before ++ pb :: after → c ∈ pbs) →
    match spritecollideany pb (aliens_after before als) with
    | Some a =>
        (pb ∉ (hit_aliens (before ++ pb :: after) pl pbs als sc).1.1.2) ∧
        (a ∉ (hit_aliens (before ++ pb :: after) pl pbs als sc).1.2)
    | None => pb ∈ (hit_aliens (before ++ pb :: after) pl pbs als sc).1.1.2
    end.
Proof.
  induction before as [|b0 before IH]; intros pb after pl pbs als sc Hnd Hnd0 Hsub.
  - cbn [app hit_aliens] in *. change (aliens_after [] als) with als.
    rewrite fmap_cons in Hnd0. apply NoDup_cons in Hnd0 as [Hpb _].
    destruct (spritecollideany pb als) as [a|] eqn:Hhit.
    + split; intros Hin.
      * eapply elem_of_sublist in Hin; [|apply hit_aliens_sublist].
        by apply list_elem_of_filter in Hin as [Hne _].
      * eapply elem_of_sublist in Hin; [|apply hit_aliens_sublist].
        by apply list_elem_of_filter in Hin as [Hne _].
    + apply hit_aliens_stays; [|done]. apply Hsub. left.
  - rewrite aliens_after_cons. cbn [app hit_aliens].
    rewrite <- app_comm_cons, fmap_cons in Hnd0.
    apply NoDup_cons in Hnd0 as [Hb0 Hrest].
    assert (∀ c, c ∈ before ++ pb :: after →
                 c ∈ bullet_group_remove (bullet_id b0) pbs) as Hsub'.
    { intros c Hc. apply list_elem_of_filter. split; [|apply Hsub; by right].
      intros Heq. apply Hb0. rewrite <- Heq. by apply list_elem_of_fmap_2. }
    destruct (spritecollideany b0 als) as [a0|] eqn:Hhit.
    + apply IH; try done. rewrite remove_ids. by apply NoDup_filter.
    + apply IH; try done. intros c Hc. apply Hsub. by right.
Qed.

(** An alien is taken out of the group only at the turn of a bullet that
    finds it first. *)
Lemma aliens_after_taken (todo : list Bullet) :
  ∀ (als : list Alien) (a : Alien),
    NoDup (alien_id <$> als) → a ∈ als → (a ∉ aliens_after todo als) →
    ∃ before pb after,
      todo = before ++ pb :: after ∧
      spritecollideany pb (aliens_after before als) = Some a.
Proof.
  induction todo as [|b0 rest IH]; intros als a Hnd Ha Hgone; [done|].
  rewrite aliens_after_cons in Hgone.
  destruct (spritecollideany b0 als) as [a0|] eqn:Hhit.
  - destruct (decide (alien_id a = alien_id a0)) as [Heq|Hne].
    + assert (a = a0) as ->.
      { apply (same_id_same_alien als); try done.
        by apply spritecollideany_Some in Hhit as [? _]. }
      by exists [], b0, rest.
    + destruct (IH (alien_group_remove (alien_id a0) als) a)
        as (before & pb & after & -> & Hfind); try done.
      * by apply alien_group_remove_NoDup.
      * by apply list_elem_of_filter.
      * exists (b0 :: before), pb, after. split; [done|].
        by rewrite aliens_after_cons, Hhit.
  - destruct (IH als a) as (before & pb & after & -> & Hfind); try done.
    exists (b0 :: before), pb, after. split; [done|].
    by rewrite aliens_after_cons, Hhit.
Qed.

(** As many aliens are taken out as bullets. *)
Lemma hit_aliens_pairs (todo : list Bullet) :
  ∀ (pl : Player) (pbs : list Bullet) (als : list Alien) (sc : Z),
    NoDup (bullet_id <$> pbs) → NoDup (bullet_id <$> todo) →
    NoDup (alien_id <$> als) → (∀ c, c ∈ todo → c ∈ pbs) →
    (length pbs + length (hit_aliens todo pl pbs als sc).1.2 =
     length (hit_aliens todo pl pbs als sc).1.1.2 + length als)%nat.
Proof.
  induction todo as [|b0 rest IH]; intros pl pbs als sc Hnd Hnd0 Hals Hsub;
    cbn [hit_aliens fst snd]; [lia|].
  rewrite fmap_cons in Hnd0. apply NoDup_cons in Hnd0 as [Hb0 Hrest].
  destruct (spritecollideany b0 als) as [a0|] eqn:Hhit.
  - apply spritecollideany_Some in Hhit as [Ha0 _].
    pose proof (alien_group_remove_length a0 als Hals Ha0) as Hla.
    pose proof (bullet_group_remove_length b0 pbs Hnd (Hsub b0 ltac:(left)))
      as Hlb.
    assert (length (bullet_group_remove (bullet_id b0) pbs) +
            length (hit_aliens rest
                      (set_bullets (discard (bullet_id b0) (bullets pl)) pl)
                      (bullet_group_remove (bullet_id b0) pbs)
                      (alien_group_remove (alien_id a0) als) (sc + 10)).1.2 =
            length (hit_aliens rest
                      (set_bullets (discard (bullet_id b0) (bullets pl)) pl)
                      (bullet_group_remove (bullet_id b0) pbs)
                      (alien_group_remove (alien_id a0) als) (sc + 10)).1.1.2 +
            length (alien_group_remove (alien_id a0) als))%nat as Hrec; [|lia].
    apply IH.
    + rewrite remove_ids. by apply NoDup_filter.
    + done.
    + by apply alien_group_remove_NoDup.
    + intros c Hc. apply list_elem_of_filter. split; [|apply Hsub; by right].
      intros Heq. apply Hb0. rewrite <- Heq. by apply list_elem_of_fmap_2.
  - apply IH; try done. intros c Hc. apply Hsub. by right.
Qed.

Lemma Bullet_update_spec (b : Bullet) :
  bullet_id (Bullet_update b).1 = bullet_id b ∧
  x (bullet_rect (Bullet_update b).1) = x (bullet_rect b) ∧
  y (bullet_rect (Bullet_update b).1) =
    y (bullet_rect b) + bullet_speed b * bullet_direction b ∧
  ((Bullet_update b).2 = true ↔
     bottom (bullet_rect (Bullet_update b).1) < 0 ∨
     top (bullet_rect (Bullet_update b).1) > SCREEN_HEIGHT).
Proof.
  unfold Bullet_update. case_decide as Hoff; simpl; split_and!; try done.
Qed.

Lemma update_active_speed (inp : Input) (g g' : Game) :
  game_over g = false → win g = false → update inp g = Some g' →
  alien_speed g' = speed_for (length (aliens g')).
Proof.
  unfold update. intros -> ->. simpl.
  destruct (aliens_shoot _ _) as [g1|]; [|done]. simpl. intros [= <-].
  apply resolve_keeps.
Qed.

(** *** The claims about the shooter *)

(** A ship in the middle of the screen with two alien bullets on it, one
    behind the other. *)
Definition first_alien_bullet : Bullet := Bullet_init 0 400 565 1.
Definition second_alien_bullet : Bullet := Bullet_init 1 410 558 1.

(** A player bullet on an alien, and an alien out of its way. *)
Definition player_bullet : Bullet := Bullet_init 2 70 75 (-1).
Definition alien_in_the_way : Alien := Alien_init 0 50 50 2000.
Definition alien_aside : Alien := Alien_init 1 100 50 2000.

(** C6, as the code has it, for groups that hold no sprite twice (as sprite
    groups do).  [Bullet.update] moves the bullet by [speed * direction] and
    then kills it and returns [True] if and only if its rectangle is off
    screen ([bottom < 0] or [top > SCREEN_HEIGHT]), so the update of a group
    drops exactly the bullets that have left the screen.

    The first loop of [check_collisions] gives every player bullet its turn,
    in the order of the group.  A bullet that at its turn overlaps an alien
    still in the group is taken out, of the group and of [player.bullets],
    together with the first such alien in the order of the group; a bullet
    that overlaps none stays.  An alien leaves only in this way, one alien
    for one bullet, and the score rises by 10 for each.  So the aliens left
    are [aliens_after pbs als], no bullet left overlaps an alien left, and
    the ship does not move.

    Of the alien bullets the second loop removes the first one, in the
    order of the group, that overlaps the player, and reports the hit; every
    other alien bullet stays in the group, whether it overlaps the player or
    not. *)
Theorem bullets_leave_on_exit_or_hit (b : Bullet) (pl : Player)
    (pbs abs : list Bullet) (als : list Alien) (sc : Z) :
  NoDup (bullet_id <$> pbs) → NoDup (bullet_id <$> abs) →
  NoDup (alien_id <$> als) →
  (bullet_id (Bullet_update b).1 = bullet_id b ∧
   x (bullet_rect (Bullet_update b).1) = x (bullet_rect b) ∧
   y (bullet_rect (Bullet_update b).1) =
     y (bullet_rect b) + bullet_speed b * bullet_direction b ∧
   ((Bullet_update b).2 = true ↔
      bottom (bullet_rect (Bullet_update b).1) < 0 ∨
      top (bullet_rect (Bullet_update b).1) > SCREEN_HEIGHT)) ∧
  update_alien_bullets abs abs = omap survivor abs ∧
  update_player_bullets pbs pl pbs =
    (set_bullets (forget_destroyed pbs (bullets pl)) pl, omap survivor pbs) ∧
  (let c := check_collisions pl pbs abs als sc in
   (∀ pb, pb ∈ pbs → pb ∉ c_player_bullets c →
      ∃ a, a ∈ als ∧ (a ∉ c_aliens c) ∧
           colliderect (bullet_rect pb) (alien_rect a)) ∧
   (∀ pb a, pb ∈ c_player_bullets c → a ∈ c_aliens c →
      ¬ colliderect (bullet_rect pb) (alien_rect a)) ∧
   c_player_bullets c `sublist_of` pbs ∧
   c_aliens c `sublist_of` als ∧
   c_score c =
     sc + 10 * (Z.of_nat (length als) - Z.of_nat (length (c_aliens c))) ∧
   match list_find (λ ab, colliderect (bullet_rect ab) (player_rect pl)) abs with
   | Some (_, hit) =>
       c_player_hit c = true ∧
       ∀ ab, ab ∈ c_alien_bullets c ↔ ab ∈ abs ∧ ab ≠ hit
   | None => c_player_hit c = false ∧ c_alien_bullets c = abs
   end ∧
   (∀ before pb after, pbs = before ++ pb :: after →
      match list_find (λ a, colliderect (bullet_rect pb) (alien_rect a))
                      (aliens_after before als) with
      | Some (_, a) => (pb ∉ c_player_bullets c) ∧ (a ∉ c_aliens c)
      | None => pb ∈ c_player_bullets c
      end) ∧
   (∀ a, a ∈ als → a ∉ c_aliens c →
      ∃ before pb after i,
        pbs = before ++ pb :: after ∧
        list_find (λ a', colliderect (bullet_rect pb) (alien_rect a'))
                  (aliens_after before als) = Some (i, a)) ∧
   c_aliens c = aliens_after pbs als ∧
   (length pbs + length (c_aliens c) =
    length (c_player_bullets c) + length als)%nat ∧
   c_score c =
     sc + 10 * (Z.of_nat (length pbs) - Z.of_nat (length (c_player_bullets c))) ∧
   c_alien_bullets c `sublist_of` abs ∧
   player_rect (c_player c) = player_rect pl ∧
   (bullets pl = bullet_id <$> pbs →
    bullets (c_player c) = bullet_id <$> c_player_bullets c)).
Proof.
  intros Hpbs Habs Hals.
  split; [apply Bullet_update_spec|].
  split; [apply (update_alien_bullets_scan abs []); by rewrite app_nil_l|].
  split; [apply (update_player_bullets_scan pbs []); by rewrite app_nil_l|].
  destruct (check_collisions_eq pl pbs abs als sc)
    as (Hpl & Hcp & Hca & Hsc & Hhit & Hab).
  cbv zeta. rewrite Hpl, Hcp, Hca, Hsc, Hhit, Hab.
  destruct (hit_aliens_sublist pbs pl pbs als sc) as [Hs1 Hs2].
  pose proof (hit_aliens_score pbs pl pbs als sc Hals) as Hscore.
  pose proof (hit_aliens_pairs pbs pl pbs als sc Hpbs Hpbs Hals (λ c Hc, Hc))
    as Hpairs.
  split_and!; try done.
  - intros pb Hin Hgone. by apply hit_aliens_only_hits.
  - intros pb a Hpb Ha. eapply hit_aliens_clear; [|exact Hpb|exact Ha].
    by eapply elem_of_sublist.
  - rewrite hit_player_spec, hit_aliens_rect.
    destruct (list_find _ abs) as [[i hit]|] eqn:Hfind; [|done].
    split; [done|]. simpl. intros ab.
    apply list_find_Some in Hfind as (Hi%list_elem_of_lookup_2 & _).
    unfold bullet_group_remove. rewrite list_elem_of_filter.
    split; intros [H1 H2]; split; try done.
    + by intros ->.
    + intros Hid. apply H2. by eapply same_id_same_bullet.
  - intros before pb after ->.
    pose proof (hit_aliens_turn before pb after pl (before ++ pb :: after) als sc
                  Hpbs Hpbs (λ c Hc, Hc)) as Hturn.
    rewrite spritecollideany_find in Hturn.
    by destruct (list_find _ (aliens_after before als)) as [[i a]|].
  - intros a Ha Hgone. rewrite hit_aliens_aliens_after in Hgone.
    destruct (aliens_after_taken pbs als a Hals Ha Hgone)
      as (before & pb & after & -> & Hfind).
    rewrite spritecollideany_find in Hfind.
    destruct (list_find _ (aliens_after before als)) as [[i a']|] eqn:Hf; [|done].
    injection Hfind as ->. by exists before, pb, after, i.
  - apply hit_aliens_aliens_after.
  - rewrite Hscore. lia.
  - apply hit_player_sublist.
  - apply hit_aliens_rect.
  - intros Htracked. by apply hit_aliens_tracked.
Qed.

(** The example: a ship that has shot one bullet, which is on the first
    of two aliens, and two alien bullets on the ship. *)
Definition ship_with_a_shot : Player :=
  set_bullets [bullet_id player_bullet] Player_init.
Definition one_shot_fired : list Bullet := [player_bullet].
Definition shots_on_the_ship : list Bullet :=
  [first_alien_bullet; second_alien_bullet].
Definition two_aliens : list Alien := [alien_in_the_way; alien_aside].

Lemma bullets_leave_on_exit_or_hit_witness :
  (bullet_id (Bullet_update player_bullet).1 = bullet_id player_bullet ∧
   x (bullet_rect (Bullet_update player_bullet).1) = x (bullet_rect player_bullet) ∧
   y (bullet_rect (Bullet_update player_bullet).1) =
     y (bullet_rect player_bullet) +
     bullet_speed player_bullet * bullet_direction player_bullet ∧
   ((Bullet_update player_bullet).2 = true ↔
      bottom (bullet_rect (Bullet_update player_bullet).1) < 0 ∨
      top (bullet_rect (Bullet_update player_bullet).1) > SCREEN_HEIGHT)) ∧
  update_alien_bullets shots_on_the_ship shots_on_the_ship =
    omap survivor shots_on_the_ship ∧
  update_player_bullets one_shot_fired ship_with_a_shot one_shot_fired =
    (set_bullets (forget_destroyed one_shot_fired (bullets ship_with_a_shot))
                 ship_with_a_shot,
     omap survivor one_shot_fired) ∧
  (let c := check_collisions ship_with_a_shot one_shot_fired shots_on_the_ship
              two_aliens 0 in
   (∀ pb, pb ∈ one_shot_fired → pb ∉ c_player_bullets c →
      ∃ a, a ∈ two_aliens ∧ (a ∉ c_aliens c) ∧
           colliderect (bullet_rect pb) (alien_rect a)) ∧
   (∀ pb a, pb ∈ c_player_bullets c → a ∈ c_aliens c →
      ¬ colliderect (bullet_rect pb) (alien_rect a)) ∧
   c_player_bullets c `sublist_of` one_shot_fired ∧
   c_aliens c `sublist_of` two_aliens ∧
   c_score c =
     0 + 10 * (Z.of_nat (length two_aliens) - Z.of_nat (length (c_aliens c))) ∧
   match list_find (λ ab, colliderect (bullet_rect ab) (player_rect ship_with_a_shot)) shots_on_the_ship with
   | Some (_, hit) =>
       c_player_hit c = true ∧
       ∀ ab, ab ∈ c_alien_bullets c ↔ ab ∈ shots_on_the_ship ∧ ab ≠ hit
   | None => c_player_hit c = false ∧ c_alien_bullets c = shots_on_the_ship
   end ∧
   (∀ before pb after, one_shot_fired = before ++ pb :: after →
      match list_find (λ a, colliderect (bullet_rect pb) (alien_rect a))
                      (aliens_after before two_aliens) with
      | Some (_, a) => (pb ∉ c_player_bullets c) ∧ (a ∉ c_aliens c)
      | None => pb ∈ c_player_bullets c
      end) ∧
   (∀ a, a ∈ two_aliens → a ∉ c_aliens c →
      ∃ before pb after i,
        one_shot_fired = before ++ pb :: after ∧
        list_find (λ a', colliderect (bullet_rect pb) (alien_rect a'))
                  (aliens_after before two_aliens) = Some (i, a)) ∧
   c_aliens c = aliens_after one_shot_fired two_aliens ∧
   (length one_shot_fired + length (c_aliens c) =
    length (c_player_bullets c) + length two_aliens)%nat ∧
   c_score c =
     0 + 10 * (Z.of_nat (length one_shot_fired) - Z.of_nat (length (c_player_bullets c))) ∧
   c_alien_bullets c `sublist_of` shots_on_the_ship ∧
   player_rect (c_player c) = player_rect ship_with_a_shot ∧
   (bullets ship_with_a_shot = bullet_id <$> one_shot_fired →
    bullets (c_player c) = bullet_id <$> c_player_bullets c)).
Proof.
  apply (bullets_leave_on_exit_or_hit player_bullet ship_with_a_shot
           one_shot_fired shots_on_the_ship two_aliens 0);
    by_decision.
Defined.

(** C6, as the claim has it, fails: with two alien bullets on the player,
    [check_collisions] reports the hit and removes the first; the second
    overlaps the player and is still in the group after the call. *)
Lemma second_alien_bullet_stays :
  colliderect (bullet_rect first_alien_bullet) (player_rect Player_init) ∧
  colliderect (bullet_rect second_alien_bullet) (player_rect Player_init) ∧
  c_player_hit (check_collisions Player_init []
                  [first_alien_bullet; second_alien_bullet] [] 0) = true ∧
  c_alien_bullets (check_collisions Player_init []
                     [first_alien_bullet; second_alien_bullet] [] 0) =
    [second_alien_bullet].
Proof.
  split_and!; [by_decision..| |]; vm_compute; reflexivity.
Qed.

(** Two player bullets on the same alien: the first takes the alien with
    it, the second finds no alien at its turn and stays. *)
Example second_player_bullet_flies_on :
  c_player_bullets
    (check_collisions Player_init [player_bullet; Bullet_init 3 70 75 (-1)] []
       [alien_in_the_way] 0) = [Bullet_init 3 70 75 (-1)] ∧
  c_aliens
    (check_collisions Player_init [player_bullet; Bullet_init 3 70 75 (-1)] []
       [alien_in_the_way] 0) = [] ∧
  c_score
    (check_collisions Player_init [player_bullet; Bullet_init 3 70 75 (-1)] []
       [alien_in_the_way] 0) = 10.
Proof. by vm_compute. Qed.

(** What the call does to the example of the witness: the player bullet
    and the alien it is on are gone, ten points are scored. *)
Example player_bullet_hits :
  c_player_bullets (check_collisions Player_init [player_bullet] []
                      [alien_in_the_way; alien_aside] 0) = [] ∧
  c_aliens (check_collisions Player_init [player_bullet] []
              [alien_in_the_way; alien_aside] 0) = [alien_aside] ∧
  c_score (check_collisions Player_init [player_bullet] []
             [alien_in_the_way; alien_aside] 0) = 10.
Proof. by vm_compute. Qed.

(** The state [main] starts in when every alien draws the shortest delay. *)
Definition first_state : Game := start (λ _, 2000).

Lemma invaders_first_state_reachable : reachable first_state.
Proof. apply reachable_start. Defined.

(** A frame in which the space key goes down three times while the left key
    is held: two bullets are fired, the third press fires nothing, and the
    ship moves one step to the left. *)
Definition three_presses : Input :=
  {| events := [KEYDOWN K_SPACE; KEYDOWN K_SPACE; KEYDOWN K_SPACE];
     key_left := true; key_right := false; current_time := 1000;
     new_delay := λ _, 2000; pick := 0 |}.

Definition after_three_presses : Game :=
  Eval vm_compute in default first_state (frame three_presses first_state).

Example three_presses_two_bullets :
  frame three_presses first_state = Some after_three_presses ∧
  bullet_rect <$> player_bullets after_three_presses =
    [mkRect 399 553 3 10; mkRect 399 553 3 10] ∧
  bullets (player after_three_presses) = [0; 1]%nat ∧
  player_rect (player after_three_presses) = mkRect 370 560 50 30 ∧
  length (aliens after_three_presses) = 50%nat.
Proof. by vm_compute. Qed.

Lemma after_three_presses_reachable : reachable after_three_presses.
Proof.
  apply (reachable_frame first_state three_presses);
    [exact invaders_first_state_reachable | reflexivity | by vm_compute].
Defined.

(** C9: in every state of a run, that is at the end of every frame,
    [alien_speed] is [ALIEN_SPEED + (50 - number of aliens) // 10].  The
    events of the next frame leave it alone, so this integer is the speed the
    aliens are moved with.  And whatever [alien_speed] was before and became
    during the update of an active frame (the drop adds [0.5]), the end of
    the update assigns it anew from the number of aliens. *)
Theorem alien_speed_tracks_count (g : Game) :
  reachable g →
  alien_speed g =
    Int (ALIEN_SPEED +
         (ALIEN_ROWS * ALIEN_COLS - Z.of_nat (length (aliens g))) / 10) ∧
  (∀ evs, alien_speed (handle_events evs g) = alien_speed g) ∧
  (∀ inp g1 g2,
     game_over g1 = false → win g1 = false → update inp g1 = Some g2 →
     alien_speed g2 =
       Int (ALIEN_SPEED +
            (ALIEN_ROWS * ALIEN_COLS - Z.of_nat (length (aliens g2))) / 10)).
Proof.
  intros [_ _ _ Hspeed]%invaders_reachable_inv. split_and!.
  - exact Hspeed.
  - intros evs. apply handle_events_keeps.
  - intros inp g1 g2. apply update_active_speed.
Qed.

Lemma alien_speed_tracks_count_witness :
  alien_speed after_three_presses =
    Int (ALIEN_SPEED +
         (ALIEN_ROWS * ALIEN_COLS - Z.of_nat (length (aliens after_three_presses))) / 10) ∧
  (∀ evs, alien_speed (handle_events evs after_three_presses) = alien_speed after_three_presses) ∧
  (∀ inp g1 g2,
     game_over g1 = false → win g1 = false → update inp g1 = Some g2 →
     alien_speed g2 =
       Int (ALIEN_SPEED +
            (ALIEN_ROWS * ALIEN_COLS - Z.of_nat (length (aliens g2))) / 10)).
Proof. apply (alien_speed_tracks_count after_three_presses), after_three_presses_reachable. Defined.

(** A swarm of one alien at the left edge: the movement phase drops it and
    leaves the speed at 5.5; the end of the same update sets it back to 5. *)
Definition lone_alien_at_edge : Game :=
  {| player := Player_init; aliens := [Alien_init 0 0 50 2000];
     player_bullets := []; alien_bullets := []; score := 490; lives := 3;
     alien_speed := Int 5; game_over := false; win := false;
     last_alien_shot := 0; last_alien_move := 0; last_alien_drop := 0;
     running := true; next_id := 0 |}.

Definition quiet_input (t : Z) : Input :=
  {| events := []; key_left := false; key_right := false; current_time := t;
     new_delay := λ _, 2000; pick := 0 |}.

Example half_step_is_overwritten :
  alien_speed (move_aliens (quiet_input 1000) lone_alien_at_edge) =
    Float (Qplus (inject_Z 5) (Qmake 1 2)) ∧
  alien_speed <$> update (quiet_input 1000) lone_alien_at_edge = Some (Int 5).
Proof. split; reflexivity. Qed.

(** A sequence of calls of [Player.update], one for each pair of key
    states ([keys[K_LEFT]], [keys[K_RIGHT]]). *)
Definition updates (keys : list (bool * bool)) (pl : Player) : Player :=
  fold_left (λ p k, Player_update k.1 k.2 p) keys pl.

Lemma Player_init_ok : player_ok Player_init.
Proof. by vm_compute. Qed.

Lemma updates_ok (keys : list (bool * bool)) :
  ∀ pl, player_ok pl → player_ok (updates keys pl).
Proof.
  unfold updates. induction keys as [|k keys IH]; intros pl Hp; [done|].
  cbn [fold_left]. by apply IH, Player_update_ok.
Qed.

(** C10, as the code has it: the ship starts centred; in every state of a
    run, and after every [Player.update] of a run whatever the keys, its
    rectangle satisfies [left > -PLAYER_SPEED] and
    [right < SCREEN_WIDTH + PLAYER_SPEED]; this is because [Player.update]
    keeps the two bounds, moving by [PLAYER_SPEED] only from [left > 0] or
    [right < SCREEN_WIDTH], without clamping.  From the centred start the
    bound is not reached: after every sequence of updates, and in every
    state of a run, the ship is a whole number of moves from the centre and
    lies within the screen, [0 ≤ left] and [right ≤ SCREEN_WIDTH]; it does
    not hang over by a single pixel. *)
Theorem player_stays_on_screen (g : Game) :
  reachable g →
  x (player_rect Player_init) = SCREEN_WIDTH / 2 - PLAYER_WIDTH / 2 ∧
  (left (player_rect (player g)) > - PLAYER_SPEED ∧
   right (player_rect (player g)) < SCREEN_WIDTH + PLAYER_SPEED) ∧
  (∀ evs kl kr,
     left (player_rect (Player_update kl kr (player (handle_events evs g))))
       > - PLAYER_SPEED ∧
     right (player_rect (Player_update kl kr (player (handle_events evs g))))
       < SCREEN_WIDTH + PLAYER_SPEED) ∧
  (∀ pl kl kr,
     player_speed pl = PLAYER_SPEED →
     left (player_rect pl) > - PLAYER_SPEED ∧
     right (player_rect pl) < SCREEN_WIDTH + PLAYER_SPEED →
     left (player_rect (Player_update kl kr pl)) > - PLAYER_SPEED ∧
     right (player_rect (Player_update kl kr pl)) < SCREEN_WIDTH + PLAYER_SPEED) ∧
  (∀ keys,
     0 ≤ left (player_rect (updates keys Player_init)) ∧
     right (player_rect (updates keys Player_init)) ≤ SCREEN_WIDTH ∧
     x (player_rect (updates keys Player_init)) `mod` PLAYER_SPEED = 0) ∧
  (0 ≤ left (player_rect (player g)) ∧
   right (player_rect (player g)) ≤ SCREEN_WIDTH ∧
   x (player_rect (player g)) `mod` PLAYER_SPEED = 0) ∧
  (∀ evs kl kr,
     0 ≤ left (player_rect (Player_update kl kr (player (handle_events evs g)))) ∧
     right (player_rect (Player_update kl kr (player (handle_events evs g))))
       ≤ SCREEN_WIDTH).
Proof.
  intros [Hp Hb _ _]%invaders_reachable_inv.
  assert (∀ evs kl kr,
            player_ok (Player_update kl kr (player (handle_events evs g))))
    as Hupd.
  { intros evs kl kr. destruct (handle_events_keeps evs g) as ([Hk _] & _).
    destruct (Hk (conj Hp Hb)) as [Hp' _]. by apply Player_update_ok. }
  split_and!.
  - reflexivity.
  - apply (player_ok_on_screen _ Hp).
  - apply (player_ok_on_screen _ Hp).
  - intros evs kl kr. apply player_ok_on_screen, Hupd.
  - intros pl kl kr. apply Player_update_on_screen.
  - intros keys. destruct (updates_ok keys Player_init Player_init_ok)
      as (_ & _ & Hm & Hl & Hr). by split_and!.
  - apply Hp.
  - apply Hp.
  - apply Hp.
  - intros evs kl kr. destruct (Hupd evs kl kr) as (_ & _ & _ & Hl & Hr).
    by split.
Qed.

Lemma player_stays_on_screen_witness :
  x (player_rect Player_init) = SCREEN_WIDTH / 2 - PLAYER_WIDTH / 2 ∧
  (left (player_rect (player after_three_presses)) > - PLAYER_SPEED ∧
   right (player_rect (player after_three_presses)) < SCREEN_WIDTH + PLAYER_SPEED) ∧
  (∀ evs kl kr,
     left (player_rect (Player_update kl kr (player (handle_events evs after_three_presses))))
       > - PLAYER_SPEED ∧
     right (player_rect (Player_update kl kr (player (handle_events evs after_three_presses))))
       < SCREEN_WIDTH + PLAYER_SPEED) ∧
  (∀ pl kl kr,
     player_speed pl = PLAYER_SPEED →
     left (player_rect pl) > - PLAYER_SPEED ∧
     right (player_rect pl) < SCREEN_WIDTH + PLAYER_SPEED →
     left (player_rect (Player_update kl kr pl)) > - PLAYER_SPEED ∧
     right (player_rect (Player_update kl kr pl)) < SCREEN_WIDTH + PLAYER_SPEED) ∧
  (∀ keys,
     0 ≤ left (player_rect (updates keys Player_init)) ∧
     right (player_rect (updates keys Player_init)) ≤ SCREEN_WIDTH ∧
     x (player_rect (updates keys Player_init)) `mod` PLAYER_SPEED = 0) ∧
  (0 ≤ left (player_rect (player after_three_presses)) ∧
   right (player_rect (player after_three_presses)) ≤ SCREEN_WIDTH ∧
   x (player_rect (player after_three_presses)) `mod` PLAYER_SPEED = 0) ∧
  (∀ evs kl kr,
     0 ≤ left (player_rect (Player_update kl kr
                              (player (handle_events evs after_three_presses)))) ∧
     right (player_rect (Player_update kl kr
                           (player (handle_events evs after_three_presses))))
       ≤ SCREEN_WIDTH).
Proof. apply (player_stays_on_screen after_three_presses), after_three_presses_reachable. Defined.

(** C10, as the claim has it, fails in its last part.  With the left key
    held from the centred start the ship comes to stand with its left side
    exactly on the left edge of the screen after 75 updates, and stays
    there; with the right key held its right side comes to stand exactly on
    the right edge.  And whatever the keys, no update from the centred start
    leaves the ship over an edge, by 4 pixels or by 1. *)
Lemma ship_stops_on_the_edge :
  left (player_rect (updates (replicate 74 (true, false)) Player_init)) = 5 ∧
  left (player_rect (updates (replicate 75 (true, false)) Player_init)) = 0 ∧
  left (player_rect (updates (replicate 76 (true, false)) Player_init)) = 0 ∧
  right (player_rect (updates (replicate 75 (false, true)) Player_init))
    = SCREEN_WIDTH ∧
  right (player_rect (updates (replicate 76 (false, true)) Player_init))
    = SCREEN_WIDTH ∧
  ∀ keys,
    ¬ (left (player_rect (updates keys Player_init)) < 0 ∨
       right (player_rect (updates keys Player_init)) > SCREEN_WIDTH).
Proof.
  split_and!; try (by vm_compute).
  intros keys. destruct (updates_ok keys Player_init Player_init_ok)
    as (_ & _ & _ & Hl & Hr). lia.
Qed.

(** A float step, which no run makes, would be rounded. *)
Example float_step_is_rounded :
  coord_add 10 (Float (Qmake 3 2)) = 12 ∧ coord_add 10 (Float (Qmake 7 5)) = 11 ∧
  coord_add 0 (Float (Qmake (-1) 2)) = -1 ∧ coord_add 0 (Float (Qmake (-2) 5)) = 0.
Proof. by vm_compute. Qed.

(** In a run the ship is a whole number of moves from the centre, so it stops
    exactly at the edges; from another position [Player.update] does leave
    it up to 4 pixels outside. *)
Lemma player_within_edges (g : Game) :
  reachable g →
  0 ≤ left (player_rect (player g)) ∧ right (player_rect (player g)) ≤ SCREEN_WIDTH.
Proof. intros [Hp _ _ _]%invaders_reachable_inv. apply Hp. Qed.

Example player_overhangs_from_off_step :
  left (player_rect (Player_update true false
          (set_player_rect (set_rect_x 1 (player_rect Player_init)) Player_init)))
  = -4.
Proof. reflexivity. Qed.

End InvadersSpec.

(** * Properties of both games *)

Module GamesSpec.

(** A frame of the puzzle game with keys, a due fall and no [QUIT]. *)
Definition tetris_input : Tetris.Input :=
  {| Tetris.events := [KEYDOWN K_LEFT; KEYDOWN K_UP; OTHER_EVENT];
     Tetris.fall_due := true; Tetris.rnd := 3 |}.

(** A frame of the shooter with a shot and no [QUIT]. *)
Definition invaders_input : Invaders.Input :=
  {| Invaders.events := [KEYDOWN K_SPACE; OTHER_EVENT];
     Invaders.key_left := true; Invaders.key_right := false;
     Invaders.current_time := 1000; Invaders.new_delay := λ _, 2000;
     Invaders.pick := 0 |}.

(** C5: in every state of a run of the puzzle game the grid has 20 rows of
    10 cells.  The shooter starts with 50 aliens; a frame never adds one (the
    aliens after it are among those before it, in the same order), so in
    every state of a run there are at most 50.  In every state of a run, and
    after the events of a frame, the player has at most 2 bullets, in the
    sprite group as in [player.bullets]; [shoot] returns [None] and leaves
    the player as it is when [max_bullets] bullets are tracked. *)
Theorem state_is_bounded (tg : Tetris.Game) (ig : Invaders.Game) :
  Tetris.reachable tg → Invaders.reachable ig →
  (length (Tetris.grid tg) = 20%nat ∧
   Forall (λ row, length row = 10%nat) (Tetris.grid tg)) ∧
  (∀ delays, length (Invaders.setup_aliens delays) = 50%nat) ∧
  (length (Invaders.aliens ig) ≤ 50)%nat ∧
  (∀ inp ig', Invaders.frame inp ig = Some ig' →
     Invaders.alien_id <$> Invaders.aliens ig'
       `sublist_of` Invaders.alien_id <$> Invaders.aliens ig) ∧
  ((length (Invaders.player_bullets ig) ≤ 2)%nat ∧
   (length (Invaders.bullets (Invaders.player ig)) ≤ 2)%nat) ∧
  (∀ evs,
     (length (Invaders.player_bullets (Invaders.handle_events evs ig)) ≤ 2)%nat) ∧
  (∀ id pl,
     Invaders.max_bullets pl ≤ Z.of_nat (length (Invaders.bullets pl)) →
     Invaders.shoot id pl = (pl, None)) ∧
  Invaders.max_bullets (Invaders.player ig) = 2.
Proof.
  intros [[Hh Hw] _ _ _]%TetrisSpec.tetris_reachable_inv
         [Hp Hb Ha _]%InvadersSpec.invaders_reachable_inv.
  split_and!; try done.
  - apply sublist_length in Ha. by rewrite length_fmap, length_seq in Ha.
  - intros inp ig' Hframe.
    destruct (InvadersSpec.frame_keeps inp ig) as (g2 & Hg2 & [_ Hsub] & _).
    congruence.
  - by eapply InvadersSpec.bullets_ok_length.
  - apply Hb.
  - intros evs.
    destruct (InvadersSpec.handle_events_keeps evs ig) as ([Hk _] & _).
    destruct (Hk (conj Hp Hb)) as [_ Hb'].
    by eapply InvadersSpec.bullets_ok_length.
  - intros id pl Hfull. unfold Invaders.shoot. by rewrite decide_False by lia.
  - apply Hb.
Qed.

Lemma state_is_bounded_witness :
  (length (Tetris.grid TetrisSpec.t_piece_locked) = 20%nat ∧
   Forall (λ row, length row = 10%nat) (Tetris.grid TetrisSpec.t_piece_locked)) ∧
  (∀ delays, length (Invaders.setup_aliens delays) = 50%nat) ∧
  (length (Invaders.aliens InvadersSpec.after_three_presses) ≤ 50)%nat ∧
  (∀ inp ig', Invaders.frame inp InvadersSpec.after_three_presses = Some ig' →
     Invaders.alien_id <$> Invaders.aliens ig'
       `sublist_of` Invaders.alien_id <$> Invaders.aliens InvadersSpec.after_three_presses) ∧
  ((length (Invaders.player_bullets InvadersSpec.after_three_presses) ≤ 2)%nat ∧
   (length (Invaders.bullets (Invaders.player InvadersSpec.after_three_presses)) ≤ 2)%nat) ∧
  (∀ evs,
     (length (Invaders.player_bullets
                (Invaders.handle_events evs InvadersSpec.after_three_presses)) ≤ 2)%nat) ∧
  (∀ id pl,
     Invaders.max_bullets pl ≤ Z.of_nat (length (Invaders.bullets pl)) →
     Invaders.shoot id pl = (pl, None)) ∧
  Invaders.max_bullets (Invaders.player InvadersSpec.after_three_presses) = 2.
Proof.
  apply (state_is_bounded TetrisSpec.t_piece_locked InvadersSpec.after_three_presses);
    [exact TetrisSpec.t_piece_locked_reachable | exact InvadersSpec.after_three_presses_reachable].
Defined.

(** C7: an iteration of either main loop that receives no [QUIT] event
    completes and leaves [running] true, whatever else is in the event
    queue, whatever the other inputs, and whether or not the game is over or
    won. *)
Theorem loop_exits_only_on_quit (tg : Tetris.Game) (tinp : Tetris.Input)
    (ig : Invaders.Game) (iinp : Invaders.Input) :
  Tetris.reachable tg → Tetris.running tg = true →
  Tetris.randint_shape (Tetris.rnd tinp) → QUIT ∉ Tetris.events tinp →
  Invaders.running ig = true → QUIT ∉ Invaders.events iinp →
  (∃ tg', Tetris.frame tinp tg = Some tg' ∧ Tetris.running tg' = true) ∧
  (∃ ig', Invaders.frame iinp ig = Some ig' ∧ Invaders.running ig' = true).
Proof.
  intros Hreach Hrun Hrnd Hq Hrun' Hq'. split.
  - destruct (TetrisSpec.tetris_frame_inv tinp tg (TetrisSpec.tetris_reachable_inv tg Hreach) Hrnd)
      as (tg' & Hframe & _ & Hr).
    exists tg'. split; [done|]. by rewrite Hr.
  - destruct (InvadersSpec.frame_keeps iinp ig) as (ig' & Hframe & _ & Hr & _).
    exists ig'. split; [done|]. by rewrite Hr.
Qed.

Lemma loop_exits_only_on_quit_witness :
  (∃ tg', Tetris.frame tetris_input TetrisSpec.first_state = Some tg' ∧
          Tetris.running tg' = true) ∧
  (∃ ig', Invaders.frame invaders_input InvadersSpec.first_state = Some ig' ∧
          Invaders.running ig' = true).
Proof.
  apply (loop_exits_only_on_quit TetrisSpec.first_state tetris_input
           InvadersSpec.first_state invaders_input);
    [exact TetrisSpec.tetris_first_state_reachable | reflexivity | by vm_compute
    | by_decision | reflexivity | by_decision].
Defined.

End GamesSpec.

(** * Further properties of the puzzle game *)

Module TetrisMore.
Import Tetris TetrisSpec.

(** *** Rotation of a rectangular shape *)

(** A matrix of [h] rows of [w] entries. *)
Definition rectangular (h w : nat) (m : list (list Z)) : Prop :=
  length m = h ∧ Forall (λ row, length row = w) m.

(** The entry in row [i], column [j]. *)
Definition entry (m : list (list Z)) (i j : nat) : option Z :=
  m !! i ≫= λ row, row !! j.

Lemma rectangular_eq (h w : nat) (m1 m2 : list (list Z)) :
  rectangular h w m1 → rectangular h w m2 →
  (∀ i j, (i < h)%nat → (j < w)%nat → entry m1 i j = entry m2 i j) →
  m1 = m2.
Proof.
  intros [Hh1 Hw1] [Hh2 Hw2] Hentry.
  apply (list_eq_same_length _ _ h); [done..|].
  intros i r1 r2 Hi Hr1 Hr2.
  apply (list_eq_same_length _ _ w).
  - by eapply Forall_lookup_1 in Hw2.
  - by eapply Forall_lookup_1 in Hw1.
  - intros j c1 c2 Hj Hc1 Hc2.
    specialize (Hentry i j Hi Hj). unfold entry in Hentry.
    rewrite Hr1, Hr2 in Hentry. simpl in Hentry. congruence.
Qed.

Lemma map_is_fmap {A B} (f : A → B) (l : list A) : map f l = f <$> l.
Proof. induction l as [|a l IH]; [done|]. simpl. by rewrite IH. Qed.

Lemma zip_star_length (w : nat) (m : list (list Z)) :
  m ≠ [] → Forall (λ row, length row = w) m → length (zip_star m) = w.
Proof.
  induction m as [|r m IH]; [done|]. intros _ [Hr Hm]%Forall_cons.
  destruct m as [|r' m]; simpl.
  - by rewrite length_map.
  - rewrite length_zip_with. simpl in IH. rewrite IH by done. lia.
Qed.

(** [zip( *m )] transposes. *)
Lemma zip_star_entry (w : nat) (m : list (list Z)) :
  Forall (λ row, length row = w) m →
  ∀ i k, (i < w)%nat → (k < length m)%nat →
    entry (zip_star m) i k = entry m k i.
Proof.
  induction m as [|r m IH]; intros Hm i k Hi Hk; [simpl in Hk; lia|].
  apply Forall_cons in Hm as [Hr Hm].
  destruct (lookup_lt_is_Some_2 r i) as [c Hc]; [lia|].
  destruct m as [|r' m].
  - destruct k; [|simpl in Hk; lia].
    unfold entry. simpl. by rewrite map_is_fmap, list_lookup_fmap, Hc.
  - assert (length (zip_star (r' :: m)) = w) as Hlen
      by by apply zip_star_length.
    destruct (lookup_lt_is_Some_2 (zip_star (r' :: m)) i) as [col Hcol]; [lia|].
    change (zip_star (r :: r' :: m))
      with (zip_with cons r (zip_star (r' :: m))).
    unfold entry at 1. rewrite lookup_zip_with, Hc, Hcol. simpl.
    destruct k as [|k].
    + unfold entry. simpl. by rewrite Hc.
    + specialize (IH Hm i k Hi ltac:(simpl in *; lia)).
      unfold entry in IH at 1. rewrite Hcol in IH. simpl in IH.
      simpl. by rewrite IH.
Qed.

Lemma zip_star_rectangular (h w : nat) (m : list (list Z)) :
  (0 < h)%nat → rectangular h w m → rectangular w h (zip_star m).
Proof.
  intros Hh [Hlen Hrows].
  assert (m ≠ []) as Hne by (intros ->; simpl in *; lia).
  split; [by apply zip_star_length|].
  revert h Hh Hlen. induction m as [|r m IH]; [done|]. intros h Hh Hlen.
  apply Forall_cons in Hrows as [Hr Hm].
  destruct m as [|r' m].
  - simpl in *. subst h. rewrite map_is_fmap. apply Forall_fmap, Forall_true. done.
  - change (zip_star (r :: r' :: m))
      with (zip_with cons r (zip_star (r' :: m))).
    specialize (IH Hm ltac:(done) (length (r' :: m)) ltac:(simpl; lia) eq_refl).
    simpl length in Hlen. subst h.
    apply Forall_lookup. intros i row Hrow.
    apply lookup_zip_with_Some in Hrow as (c & col & -> & _ & Hcol).
    eapply Forall_lookup_1 in IH; [|exact Hcol]. simpl in *. lia.
Qed.

Lemma reverse_rectangular (h w : nat) (m : list (list Z)) :
  rectangular h w m → rectangular h w (reverse m).
Proof.
  intros [Hlen Hrows]. split; [by rewrite length_reverse|].
  by apply Forall_reverse.
Qed.

Lemma rotate_cw_rectangular (h w : nat) (m : list (list Z)) :
  (0 < h)%nat → rectangular h w m → rectangular w h (rotate_cw m).
Proof.
  intros Hh Hm. apply zip_star_rectangular; [done|]. by apply reverse_rectangular.
Qed.

(** Row [i] of the rotated shape is column [i] read from the bottom up. *)
Lemma rotate_cw_entry (h w : nat) (m : list (list Z)) (i j : nat) :
  rectangular h w m → (i < w)%nat → (j < h)%nat →
  entry (rotate_cw m) i j = entry m (h - S j) i.
Proof.
  intros [Hlen Hrows] Hi Hj. unfold rotate_cw.
  rewrite (zip_star_entry w) by
    (rewrite ?length_reverse; try apply Forall_reverse; done || lia).
  unfold entry. rewrite reverse_lookup by lia. by rewrite Hlen.
Qed.

(** The shape turned upside down, every row read backwards. *)
Definition half_turn (m : list (list Z)) : list (list Z) :=
  reverse (reverse <$> m).

Lemma half_turn_rectangular (h w : nat) (m : list (list Z)) :
  rectangular h w m → rectangular h w (half_turn m).
Proof.
  intros [Hlen Hrows]. unfold half_turn. split.
  - by rewrite length_reverse, length_fmap.
  - apply Forall_reverse, Forall_fmap. eapply Forall_impl; [exact Hrows|].
    intros row Hrow. simpl. by rewrite length_reverse.
Qed.

Lemma half_turn_involutive (m : list (list Z)) : half_turn (half_turn m) = m.
Proof.
  unfold half_turn. rewrite fmap_reverse, reverse_involutive, <- list_fmap_compose.
  rewrite <- (list_fmap_id m) at 2. apply list_fmap_ext.
  intros _ row _. simpl. apply reverse_involutive.
Qed.

Lemma rotate_cw_twice (h w : nat) (m : list (list Z)) :
  (0 < h)%nat → (0 < w)%nat → rectangular h w m →
  rotate_cw (rotate_cw m) = half_turn m.
Proof.
  intros Hh Hw Hm.
  pose proof (rotate_cw_rectangular h w m Hh Hm) as Hm1.
  apply (rectangular_eq h w).
  - by apply rotate_cw_rectangular.
  - by apply half_turn_rectangular.
  - intros i j Hi Hj.
    rewrite (rotate_cw_entry w h) by done.
    rewrite (rotate_cw_entry h w) by (done || lia).
    destruct Hm as [Hlen Hrows].
    unfold half_turn, entry.
    rewrite reverse_lookup by (rewrite length_fmap; lia).
    rewrite length_fmap, Hlen, list_lookup_fmap.
    destruct (m !! (h - S i)%nat) as [row|] eqn:Hrow; [simpl|done].
    eapply Forall_lookup_1 in Hrows; [|exact Hrow]. simpl in Hrows.
    rewrite reverse_lookup by lia. by rewrite Hrows.
Qed.

Lemma rotate_cw_four (h w : nat) (m : list (list Z)) :
  (0 < h)%nat → (0 < w)%nat → rectangular h w m →
  Nat.iter 4 rotate_cw m = m.
Proof.
  intros Hh Hw Hm. simpl.
  rewrite (rotate_cw_twice h w (rotate_cw (rotate_cw m))); [|done..|].
  - rewrite (rotate_cw_twice h w m) by done. apply half_turn_involutive.
  - rewrite (rotate_cw_twice h w m) by done. by apply half_turn_rectangular.
Qed.

(** A row shorter than the others cuts the rotated shape short: [zip] stops
    at the shortest of its arguments. *)
Lemma zip_star_length_le (m : list (list Z)) (row : list Z) :
  row ∈ m → (length (zip_star m) ≤ length row)%nat.
Proof.
  induction m as [|r m IH]; [by intros ?%elem_of_nil|].
  intros Hin. destruct m as [|r' m].
  - apply list_elem_of_singleton in Hin as ->. simpl. by rewrite length_map.
  - change (zip_star (r :: r' :: m))
      with (zip_with cons r (zip_star (r' :: m))).
    rewrite length_zip_with.
    apply elem_of_cons in Hin as [->|Hin]; [lia|].
    specialize (IH Hin). lia.
Qed.

Lemma zip_star_length_attained (m : list (list Z)) :
  m ≠ [] → ∃ row, row ∈ m ∧ length (zip_star m) = length row.
Proof.
  induction m as [|r m IH]; [done|]. intros _.
  destruct m as [|r' m].
  - exists r. split; [left|]. simpl. by rewrite length_map.
  - change (zip_star (r :: r' :: m))
      with (zip_with cons r (zip_star (r' :: m))).
    rewrite length_zip_with.
    destruct IH as (row & Hrow & Hlen); [done|].
    destruct (decide (length r ≤ length (zip_star (r' :: m)))%nat).
    + exists r. split; [left|lia].
    + exists row. split; [by right|lia].
Qed.

(** A shape of two by three, and a shape with an empty row. *)
Definition two_by_three : list (list Z) := [[1; 2; 3]; [4; 5; 6]].

(** X1: one clockwise rotation of a shape of [h] rows and [w] columns (both
    at least 1) gives a shape of [w] rows and [h] columns whose row [i] is
    column [i] of the original read from the bottom row up; two rotations
    turn the shape upside down with every row reversed; four rotations give
    the shape back. *)
Theorem rotate_cw_rectangle (h w : nat) (m : list (list Z)) :
  (0 < h)%nat → (0 < w)%nat →
  length m = h → Forall (λ row, length row = w) m →
  (length (rotate_cw m) = w ∧ Forall (λ row, length row = h) (rotate_cw m)) ∧
  (∀ i j, (i < w)%nat → (j < h)%nat →
     (rotate_cw m !! i ≫= λ row, row !! j) =
     (m !! (h - S j)%nat ≫= λ row, row !! i)) ∧
  rotate_cw (rotate_cw m) = reverse (reverse <$> m) ∧
  Nat.iter 4 rotate_cw m = m.
Proof.
  intros Hh Hw Hlen Hrows.
  assert (rectangular h w m) as Hm by done.
  split_and!.
  - by apply (rotate_cw_rectangular h w).
  - by apply (rotate_cw_rectangular h w).
  - intros i j Hi Hj. by apply (rotate_cw_entry h w).
  - by apply (rotate_cw_twice h w).
  - by apply (rotate_cw_four h w).
Qed.

Lemma rotate_cw_rectangle_witness :
  (length (rotate_cw two_by_three) = 3%nat ∧
   Forall (λ row, length row = 2%nat) (rotate_cw two_by_three)) ∧
  (∀ i j, (i < 3)%nat → (j < 2)%nat →
     (rotate_cw two_by_three !! i ≫= λ row, row !! j) =
     (two_by_three !! (2 - S j)%nat ≫= λ row, row !! i)) ∧
  rotate_cw (rotate_cw two_by_three) = reverse (reverse <$> two_by_three) ∧
  Nat.iter 4 rotate_cw two_by_three = two_by_three.
Proof.
  apply (rotate_cw_rectangle 2 3 two_by_three);
    [lia | lia | reflexivity | by_decision].
Defined.

(** X2: on a shape that is not rectangular the rotation cuts off: the
    rotated shape has as many rows as the shortest row of the original has
    entries, so no rows at all when some row is empty, and none for the
    empty shape. *)
Theorem rotate_cw_ragged (m : list (list Z)) :
  Forall (λ row, (length (rotate_cw m) ≤ length row)%nat) m ∧
  (m ≠ [] → ∃ row, row ∈ m ∧ length (rotate_cw m) = length row) ∧
  ([] ∈ m → rotate_cw m = []) ∧
  rotate_cw [] = [].
Proof.
  unfold rotate_cw. split_and!.
  - apply Forall_forall. intros row Hrow.
    apply zip_star_length_le. by apply elem_of_reverse.
  - intros Hne.
    destruct (zip_star_length_attained (reverse m)) as (row & Hrow & Hlen).
    + intros Hrev. apply Hne. by rewrite <- (reverse_involutive m), Hrev.
    + exists row. split; [by apply elem_of_reverse|done].
  - intros Hin. apply nil_length_inv.
    pose proof (zip_star_length_le (reverse m) [] ltac:(by apply elem_of_reverse)).
    simpl in *. lia.
  - reflexivity.
Qed.

Lemma rotate_cw_ragged_witness :
  (∃ row, row ∈ [[1; 2; 3]; [4]] ∧
          length (rotate_cw [[1; 2; 3]; [4]]) = length row) ∧
  rotate_cw [[1; 2]; []] = [].
Proof.
  split.
  - apply (proj1 (proj2 (rotate_cw_ragged [[1; 2; 3]; [4]]))). done.
  - apply (proj1 (proj2 (proj2 (rotate_cw_ragged [[1; 2]; []])))). by_decision.
Defined.

Example rotate_ragged_shape :
  rotate_cw [[1; 2; 3]; [4]] = [[4; 1]] ∧
  Nat.iter 4 rotate_cw [[1; 2; 3]; [4]] = [[1]; [4]].
Proof. by vm_compute. Qed.

(** *** The cells of a piece *)

(** A cell moved by [dx] columns and [dy] rows. *)
Definition shift (dx dy : Z) (c : Z * Z) : Z * Z := (c.1 + dx, c.2 + dy).

Lemma row_cells_shift (p q : Piece) (dx dy : Z) (row : list Z) :
  x q = x p + dx → y q = y p + dy →
  ∀ line col, row_cells q line col row = shift dx dy <$> row_cells p line col row.
Proof.
  intros Hx Hy. induction row as [|c row IH]; intros line col; simpl; [done|].
  case_decide; rewrite IH; [|done].
  rewrite fmap_cons, Hx, Hy. f_equal. unfold shift. simpl. f_equal; lia.
Qed.

Lemma shape_cells_shift (p q : Piece) (dx dy : Z) (rows : list (list Z)) :
  x q = x p + dx → y q = y p + dy →
  ∀ line, shape_cells q line rows = shift dx dy <$> shape_cells p line rows.
Proof.
  intros Hx Hy. induction rows as [|row rows IH]; intros line; simpl; [done|].
  by rewrite fmap_app, IH, (row_cells_shift p q dx dy).
Qed.

Lemma get_cells_shift (p q : Piece) (dx dy : Z) :
  shape q = shape p → rotation q = rotation p →
  x q = x p + dx → y q = y p + dy →
  get_cells q = shift dx dy <$> get_cells p.
Proof.
  intros Hs Hr Hx Hy. unfold get_cells, get_rotated_shape.
  rewrite Hs, Hr. by apply shape_cells_shift.
Qed.

(** The cells of each tetromino in each of its four rotation states, with
    the origin at (0, 0): four different cells inside a square of side 4. *)
Definition tetromino (cells : list (Z * Z)) : Prop :=
  length cells = 4%nat ∧ NoDup cells ∧
  Forall (λ c, 0 ≤ c.1 ≤ 3 ∧ 0 ≤ c.2 ≤ 3) cells.

Lemma tetromino_at_origin (sh : list (list Z)) (r : nat) :
  sh ∈ SHAPES → (r < 4)%nat →
  tetromino (shape_cells (mkPiece 0 0 sh 0 0 0) 0 (Nat.iter r rotate_cw sh)).
Proof.
  intros Hsh Hr. unfold SHAPES in Hsh.
  repeat (apply elem_of_cons in Hsh as [->|Hsh]);
    [..|by apply elem_of_nil in Hsh];
    (destruct r as [|[|[|[|r]]]]; [..|lia]);
    (split_and!; [reflexivity | by_decision | by_decision]).
Qed.

Lemma piece_cells_from_origin (p : Piece) :
  get_cells p =
  shift (x p) (y p) <$>
    shape_cells (mkPiece 0 0 (shape p) 0 0 0) 0 (get_rotated_shape p).
Proof.
  unfold get_cells. by apply shape_cells_shift.
Qed.

Lemma iter_rotate_whole_turns (sh : list (list Z)) (k r : nat) :
  Nat.iter 4 rotate_cw sh = sh →
  Nat.iter (4 * k + r) rotate_cw sh = Nat.iter r rotate_cw sh.
Proof.
  intros H4. induction k as [|k IH]; [done|].
  replace (4 * S k + r)%nat with ((4 * k + r) + 4)%nat by lia.
  by rewrite iter_rotate_period.
Qed.

(** X3: moving a piece moves its cells: the cells of a piece whose origin
    is [dx] columns and [dy] rows further are the cells of the piece, in
    the same order, each moved by [dx] and [dy]; the rotated shape does not
    depend on the position. *)
Theorem get_cells_translate (p : Piece) (dx dy : Z) :
  get_cells (set_y (y p + dy) (set_x (x p + dx) p)) =
    (λ c, (c.1 + dx, c.2 + dy)) <$> get_cells p ∧
  get_rotated_shape (set_y (y p + dy) (set_x (x p + dx) p)) = get_rotated_shape p.
Proof. split; [by apply get_cells_shift|done]. Qed.

(** X4: a piece made by [Piece.__init__] from a shape index 0-6, put at any
    position and rotated any number of times, occupies exactly four
    different cells, all within the 4 by 4 square that starts at its
    origin. *)
Theorem piece_has_four_cells (sidx cidx : Z) (p0 : Piece) (vx vy r : Z) :
  Piece_init sidx cidx = Some p0 → 0 ≤ sidx ≤ 6 → 0 ≤ r →
  let p := set_rotation r (set_y vy (set_x vx p0)) in
  length (get_cells p) = 4%nat ∧
  NoDup (get_cells p) ∧
  Forall (λ c, vx ≤ c.1 ≤ vx + 3 ∧ vy ≤ c.2 ≤ vy + 3) (get_cells p).
Proof.
  intros Hinit Hs Hr p.
  destruct (Piece_init_Some sidx cidx Hs) as (p0' & Hp0 & _ & _ & _ & _ & Hsh).
  assert (p0' = p0) as -> by congruence.
  apply list_elem_of_lookup_2 in Hsh.
  assert (Nat.iter 4 rotate_cw (shape p0) = shape p0) as H4.
  { pose proof rotate_four_SHAPES as Hall. rewrite Forall_forall in Hall. auto. }
  assert (get_rotated_shape p =
          Nat.iter (Z.to_nat r `mod` 4) rotate_cw (shape p0)) as Hrot.
  { unfold get_rotated_shape.
    change (rotation p) with r. change (shape p) with (shape p0).
    etrans; [|exact (iter_rotate_whole_turns _ (Z.to_nat r `div` 4)
                       (Z.to_nat r `mod` 4) H4)].
    f_equal. apply Nat.div_mod_eq. }
  pose proof (tetromino_at_origin (shape p0) (Z.to_nat r `mod` 4) Hsh
                ltac:(apply Nat.mod_upper_bound; done)) as (Hlen & Hnd & Hbox).
  rewrite (piece_cells_from_origin p), Hrot. simpl.
  split_and!.
  - by rewrite length_fmap.
  - apply NoDup_fmap_2; [|done]. intros [a b] [c d]. unfold shift. simpl.
    intros [= ? ?]. f_equal; lia.
  - apply Forall_fmap. eapply Forall_impl; [exact Hbox|].
    intros [a b]. unfold shift. simpl. lia.
Qed.

Lemma piece_has_four_cells_witness :
  length (get_cells (set_rotation 5 (set_y (-2) (set_x 7 t_piece)))) = 4%nat ∧
  NoDup (get_cells (set_rotation 5 (set_y (-2) (set_x 7 t_piece)))) ∧
  Forall (λ c, 7 ≤ c.1 ≤ 7 + 3 ∧ -2 ≤ c.2 ≤ -2 + 3)
    (get_cells (set_rotation 5 (set_y (-2) (set_x 7 t_piece)))).
Proof.
  apply (piece_has_four_cells 2 3 t_piece 7 (-2) 5); [reflexivity | lia | lia].
Defined.

(** *** More about [clear_lines] *)

Lemma filter_all {A} (P : A → Prop) `{∀ a, Decision (P a)} (l : list A) :
  Forall P l → filter P l = l.
Proof.
  induction 1 as [|a l Ha _ IH]; [done|].
  by rewrite filter_cons_True, IH.
Qed.

Lemma filter_none {A} (P : A → Prop) `{∀ a, Decision (P a)} (l : list A) :
  Forall (λ a, ¬ P a) l → filter P l = [].
Proof.
  induction 1 as [|a l Ha _ IH]; [done|].
  by rewrite filter_cons_False.
Qed.




(** The number of occupied cells of a grid. *)
Definition blocks (gr : list (list Z)) : nat :=
  sum_list_with (λ row, length (filter (λ c, c ≠ 0) row)) gr.

Lemma blocks_app (g1 g2 : list (list Z)) : blocks (g1 ++ g2) = (blocks g1 + blocks g2)%nat.
Proof. apply sum_list_with_app. Qed.

Lemma blocks_zero_rows (n : nat) : blocks (replicate n zero_row) = 0%nat.
Proof. induction n as [|n IH]; [done|]. unfold blocks in *. simpl. by rewrite IH. Qed.

Lemma blocks_cleared (gr : list (list Z)) :
  Forall (λ row, length row = 10%nat) gr →
  blocks gr =
  (blocks (filter (λ row, ¬ full row) gr) + 10 * length (filter full gr))%nat.
Proof.
  induction 1 as [|row gr Hrow _ IH]; [done|].
  rewrite !filter_cons. unfold blocks in *. cbn [sum_list_with].
  destruct (decide (full row)) as [Hfull|Hfull].
  - rewrite decide_False by tauto. cbn [length].
    rewrite (filter_all _ row) by done. lia.
  - rewrite decide_True by done. cbn [sum_list_with]. lia.
Qed.

(** A grid of 23 rows whose row 19 is full, and a grid of 3 rows. *)
Definition tall_grid : list (list Z) :=
  replicate 19 zero_row ++ [replicate 10 1] ++ replicate 3 (replicate 10 2).



Example clear_lines_heights :
  clear_lines (replicate 3 (replicate 10 1)) = None ∧
  clear_lines tall_grid =
    Some (replicate 20 zero_row ++ replicate 3 (replicate 10 2), 1).
Proof. by vm_compute. Qed.

(** X6: on a grid of 20 rows none of which is full, [clear_lines] returns 0
    and the grid as it is; so clearing twice is clearing once: after a call
    on a grid of 20 rows, a second call returns 0 and changes nothing. *)
Theorem clear_lines_twice (gr : list (list Z)) :
  length gr = 20%nat →
  (Forall (λ row, ¬ full row) gr → clear_lines gr = Some (gr, 0)) ∧
  ∃ gr' n, clear_lines gr = Some (gr', n) ∧ clear_lines gr' = Some (gr', 0).
Proof.
  intros Hlen.
  assert (∀ g : list (list Z), length g = 20%nat →
            Forall (λ row, ¬ full row) g → clear_lines g = Some (g, 0)) as Hid.
  { intros g Hg Hnone. rewrite clear_lines_eq by done.
    by rewrite (filter_none _ g), (filter_all _ g). }
  split; [by apply Hid|].
  eexists _, _. split; [by apply clear_lines_eq|].
  apply Hid; [by rewrite cleared_length|].
  apply Forall_app. split.
  - apply Forall_replicate, zero_row_not_full.
  - apply Forall_forall. by intros row [? _]%list_elem_of_filter.
Qed.

Lemma clear_lines_twice_witness :
  (Forall (λ row, ¬ full row) two_full_rows →
   clear_lines two_full_rows = Some (two_full_rows, 0)) ∧
  ∃ gr' n, clear_lines two_full_rows = Some (gr', n) ∧
           clear_lines gr' = Some (gr', 0).
Proof. apply (clear_lines_twice two_full_rows). reflexivity. Defined.

(** X7: on a grid of 20 rows of 10 cells, every line [clear_lines] counts
    takes exactly 10 occupied cells out of the grid, and nothing else
    changes the number of occupied cells. *)
Theorem clear_lines_blocks (gr gr' : list (list Z)) (n : Z) :
  well_formed gr → clear_lines gr = Some (gr', n) →
  0 ≤ n ≤ 20 ∧ Z.of_nat (blocks gr) = Z.of_nat (blocks gr') + 10 * n.
Proof.
  intros [Hlen Hrows]. rewrite clear_lines_eq by done. intros [= <- <-].
  rewrite blocks_app, blocks_zero_rows, (blocks_cleared gr) by done.
  pose proof (length_filter full gr). change (Z.to_nat GRID_HEIGHT) with 20%nat in Hlen.
  lia.
Qed.

Lemma clear_lines_blocks_witness :
  0 ≤ 2 ≤ 20 ∧
  Z.of_nat (blocks two_full_rows) = Z.of_nat (blocks create_grid) + 10 * 2.
Proof.
  apply (clear_lines_blocks two_full_rows create_grid 2);
    [by_decision | by vm_compute].
Defined.

(** *** More invariants of the game loop *)

(** No row of the grid is full, and the current piece fits exactly as long
    as the game is not over. *)
Record settled (g : Game) : Prop := mkSettled {
  settled_rows : Forall (λ row, ¬ full row) (grid g);
  settled_piece :
    is_valid_position (current_piece g) (grid g) = Some (negb (game_over g))
}.

Lemma spawn_fits (v : Z) (p : Piece) :
  randint_shape v → get_random_piece v = Some p →
  is_valid_position p create_grid = Some true.
Proof.
  unfold randint_shape. simpl. intros Hv.
  assert (v = 0 ∨ v = 1 ∨ v = 2 ∨ v = 3 ∨ v = 4 ∨ v = 5 ∨ v = 6) as Hcases by lia.
  destruct_or! Hcases; subst v; intros [= <-]; reflexivity.
Qed.

Lemma create_grid_no_full_row : Forall (λ row, ¬ full row) create_grid.
Proof. apply Forall_replicate, zero_row_not_full. Qed.

Lemma start_settled (v1 v2 : Z) (g : Game) :
  randint_shape v1 → randint_shape v2 → start v1 v2 = Some g → settled g.
Proof.
  intros H1 H2. unfold start.
  destruct (get_random_piece v1) as [p1|] eqn:Hp1; [|done].
  destruct (get_random_piece v2) as [p2|]; [|done]. simpl.
  intros [= <-]. split; simpl.
  - apply create_grid_no_full_row.
  - exact (spawn_fits v1 p1 H1 Hp1).
Qed.

Lemma handle_event_settled (ev : Event) (g g' : Game) :
  inv g → settled g → handle_event ev g = Some g' → settled g'.
Proof.
  intros [Hwf Hcells Hcur Hnext] [Hrows Hfit]. unfold handle_event.
  destruct (decide (ev = QUIT)) as [->|Hq]; simpl.
  { intros Heq.
    assert (g' = set_running false g) as ->
      by (destruct (negb (game_over g)); congruence).
    by split. }
  destruct (game_over g) eqn:Hover; simpl.
  { intros [= <-]. split; [done|]. by rewrite Hover. }
  destruct ev as [|key|]; try (intros [= <-]; split; [done|]; by rewrite Hover).
  destruct (handle_key_spec key (current_piece g) (grid g)) as (ok & Hok & Hk);
    [done | apply Hcur |].
  rewrite Hk. simpl. intros [= <-]. split; simpl; [done|].
  rewrite Hover. by destruct ok.
Qed.

Lemma handle_events_settled (evs : list Event) :
  ∀ g g' : Game, inv g → settled g → handle_events evs g = Some g' → settled g'.
Proof.
  induction evs as [|ev evs IH]; intros g g' Hinv Hset; simpl.
  { by intros [= <-]. }
  destruct (handle_event_inv ev g Hinv) as (g1 & Hg1 & Hinv1 & _).
  rewrite Hg1. simpl. apply IH; [done|].
  exact (handle_event_settled ev g g1 Hinv Hset Hg1).
Qed.

Lemma undo_fall (p : Piece) : set_y (y (set_y (y p + 1) p) - 1) (set_y (y p + 1) p) = p.
Proof. destruct p. unfold set_y. simpl. f_equal. lia. Qed.

Lemma fall_settled (due : bool) (v : Z) (g g' : Game) :
  inv g → settled g → fall due v g = Some g' → settled g'.
Proof.
  intros [Hwf Hcells Hcur Hnext] [Hrows Hfit]. unfold fall.
  destruct (game_over g) eqn:Hover; simpl.
  { intros [= <-]. split; [done|]. by rewrite Hover. }
  destruct due; [|intros [= <-]; split; [done|]; by rewrite Hover].
  set (p1 := set_y (y (current_piece g) + 1) (current_piece g)).
  destruct (is_valid_position p1 (grid g)) as [ok|] eqn:Hok; [|done].
  cbn [mbind option_bind]. destruct ok; cbn [negb].
  { intros [= <-]. split; simpl; [done|]. by rewrite Hover. }
  change (lock_piece _ (grid g))
    with (lock_piece (set_y (y p1 - 1) p1) (grid g)).
  unfold p1 at 1 2. rewrite undo_fall.
  destruct (lock_cells_spec (get_cells (current_piece g))
              (color_idx (current_piece g)) (grid g) Hwf)
    as (gr1 & Hlock & Hwf1 & _).
  unfold lock_piece. rewrite Hlock. cbn [mbind option_bind].
  rewrite clear_lines_eq by apply Hwf1. cbn [mbind option_bind].
  destruct (get_random_piece v) as [fresh|]; [|done]. cbn [mbind option_bind].
  unfold is_game_over.
  destruct (is_valid_position (next_piece g) _) as [fits|] eqn:Hfits; [|done].
  simpl. intros [= <-]. split; simpl.
  - apply Forall_app. split.
    + apply Forall_replicate, zero_row_not_full.
    + apply Forall_forall. by intros row [? _]%list_elem_of_filter.
  - rewrite Hfits. by destruct fits.
Qed.

Lemma frame_settled (inp : Input) (g g' : Game) :
  inv g → settled g → frame inp g = Some g' → settled g'.
Proof.
  intros Hinv Hset. unfold frame.
  destruct (handle_events_inv (events inp) g Hinv) as (g1 & Hg1 & Hinv1 & _).
  rewrite Hg1. simpl. apply fall_settled; [done|].
  exact (handle_events_settled (events inp) g g1 Hinv Hset Hg1).
Qed.

Lemma reachable_settled (g : Game) : reachable g → settled g.
Proof.
  induction 1 as [v1 v2 g H1 H2 Hstart | g inp g' Hreach IH _ Hv Hframe].
  - exact (start_settled v1 v2 g H1 H2 Hstart).
  - eapply frame_settled; [|exact IH|exact Hframe].
    by apply tetris_reachable_inv.
Qed.

(** X8: in every state of a run no row of the grid is full: whatever is
    locked, the completed lines are gone before the frame ends. *)
Theorem no_full_row_in_a_run (g : Game) :
  reachable g → Forall (λ row, ¬ full row) (grid g).
Proof. intros Hreach. by apply reachable_settled. Qed.

Lemma no_full_row_in_a_run_witness :
  Forall (λ row, ¬ full row) (grid t_piece_locked).
Proof. apply (no_full_row_in_a_run t_piece_locked), t_piece_locked_reachable. Defined.

(** X9: in every state of a run the current piece is in a valid position
    exactly when the game is not over: a piece is only ever moved to a
    position that [is_valid_position] accepts, and the game is over from the
    moment a new piece does not fit where it is spawned. *)
Theorem current_piece_fits (g : Game) :
  reachable g →
  is_valid_position (current_piece g) (grid g) = Some (negb (game_over g)) ∧
  (game_over g = false →
   Forall (cell_free (grid g)) (get_cells (current_piece g))).
Proof.
  intros Hreach.
  destruct (reachable_settled g Hreach) as [_ Hfit].
  split; [done|]. intros Hover. rewrite Hover in Hfit.
  apply cells_valid_spec; [|done]. by apply tetris_reachable_inv.
Qed.

Lemma current_piece_fits_witness :
  is_valid_position (current_piece t_piece_locked) (grid t_piece_locked) =
    Some (negb (game_over t_piece_locked)) ∧
  (game_over t_piece_locked = false →
   Forall (cell_free (grid t_piece_locked))
     (get_cells (current_piece t_piece_locked))).
Proof. apply (current_piece_fits t_piece_locked), t_piece_locked_reachable. Defined.

(** *** Locking a piece that fits *)

(** X10: locking a piece that is in a valid position on a well-formed grid
    writes to cells that were empty only: every cell of the piece inside the
    grid held 0 and holds the piece's colour index afterwards, and every
    occupied cell of the grid holds afterwards what it held before. *)
Theorem lock_keeps_occupied_cells (p : Piece) (gr gr' : list (list Z)) :
  well_formed gr →
  is_valid_position p gr = Some true →
  lock_piece p gr = Some gr' →
  (∀ cx cy, (cx, cy) ∈ get_cells p → 0 ≤ cy →
     0 ≤ cx < GRID_WIDTH ∧ cy < GRID_HEIGHT ∧
     cell gr cx cy = Some 0 ∧ cell gr' cx cy = Some (color_idx p)) ∧
  (∀ cx cy v, 0 ≤ cx < GRID_WIDTH → 0 ≤ cy < GRID_HEIGHT →
     cell gr cx cy = Some v → v ≠ 0 → cell gr' cx cy = Some v).
Proof.
  intros Hwf Hvalid Hlock.
  apply cells_valid_spec in Hvalid; [|done]. rewrite Forall_forall in Hvalid.
  destruct (lock_cells_spec (get_cells p) (color_idx p) gr Hwf)
    as (gr1 & Hlock1 & _ & Hcells).
  assert (gr1 = gr') as -> by (unfold lock_piece in Hlock; congruence).
  split.
  - intros cx cy Hin Hcy.
    destruct (Hvalid _ Hin) as (Hx & Hy & Hfree). simpl in *.
    split_and!; [lia..|by apply Hfree|].
    rewrite Hcells by lia. by rewrite decide_True.
  - intros cx cy v Hcx Hcy Hv Hne. rewrite Hcells by done.
    case_decide as Hin; [|done].
    destruct (Hvalid _ Hin) as (_ & _ & Hfree). simpl in Hfree.
    rewrite Hfree in Hv by lia. congruence.
Qed.

(** The I piece lying on the locked T piece, and the grid with both. *)
Definition i_piece_resting : Piece := set_y 17 i_piece.

Definition two_pieces_locked : list (list Z) :=
  replicate 17 zero_row ++
  [[0; 0; 0; 1; 1; 1; 1; 0; 0; 0]; [0; 0; 0; 0; 0; 3; 0; 0; 0; 0];
   [0; 0; 0; 0; 3; 3; 3; 0; 0; 0]].

Lemma lock_keeps_occupied_cells_witness :
  (∀ cx cy, (cx, cy) ∈ get_cells i_piece_resting → 0 ≤ cy →
     0 ≤ cx < GRID_WIDTH ∧ cy < GRID_HEIGHT ∧
     cell (grid t_piece_locked) cx cy = Some 0 ∧
     cell two_pieces_locked cx cy = Some (color_idx i_piece_resting)) ∧
  (∀ cx cy v, 0 ≤ cx < GRID_WIDTH → 0 ≤ cy < GRID_HEIGHT →
     cell (grid t_piece_locked) cx cy = Some v → v ≠ 0 →
     cell two_pieces_locked cx cy = Some v).
Proof.
  apply (lock_keeps_occupied_cells i_piece_resting (grid t_piece_locked)
           two_pieces_locked); [by_decision | reflexivity | reflexivity].
Defined.

(** *** After the game is over *)

Lemma handle_event_over (ev : Event) (g : Game) :
  game_over g = true →
  ∃ g', handle_event ev g = Some g' ∧ grid g' = grid g ∧
        current_piece g' = current_piece g ∧ next_piece g' = next_piece g ∧
        game_over g' = true.
Proof.
  intros Hover. unfold handle_event.
  destruct (decide (ev = QUIT)); simpl; rewrite Hover; simpl; eauto 10.
Qed.

Lemma handle_events_over (evs : list Event) :
  ∀ g : Game, game_over g = true →
  ∃ g', handle_events evs g = Some g' ∧ grid g' = grid g ∧
        current_piece g' = current_piece g ∧ next_piece g' = next_piece g ∧
        game_over g' = true.
Proof.
  induction evs as [|ev evs IH]; intros g Hover; simpl; [eauto 10|].
  destruct (handle_event_over ev g Hover) as (g1 & -> & Hg & Hc & Hn & Ho). simpl.
  destruct (IH g1 Ho) as (g2 & -> & Hg2 & Hc2 & Hn2 & Ho2).
  exists g2. split_and!; congruence.
Qed.

(** O pieces dropped one on another until the stack reaches the top. *)
Definition o_piece_falls : list Input :=
  replicate 120 {| events := []; fall_due := true; rnd := 1 |}.

Definition stacked_to_the_top : Game :=
  Eval vm_compute in default first_state (run_frames o_piece_falls first_state).

Example stack_ends_the_game :
  run_frames o_piece_falls first_state = Some stacked_to_the_top ∧
  game_over stacked_to_the_top = true ∧
  take 2 (grid stacked_to_the_top) = [zero_row; [0; 0; 0; 0; 2; 2; 0; 0; 0; 0]] ∧
  current_piece stacked_to_the_top =
    {| shape_idx := 1; color_idx := 2; shape := [[1; 1]; [1; 1]];
       x := 4; y := 0; rotation := 0 |}.
Proof. by vm_compute. Qed.

Lemma stacked_to_the_top_reachable : reachable stacked_to_the_top.
Proof.
  apply (run_frames_reachable o_piece_falls first_state stacked_to_the_top);
    [exact tetris_first_state_reachable | reflexivity | by_decision
    | by vm_compute].
Defined.

(** X11: once the game is over, a frame changes neither the grid nor the
    pieces, whatever keys are pressed and whether or not a fall is due, and
    the game stays over; the frame does not fail. *)
Theorem game_over_is_final (inp : Input) (g : Game) :
  game_over g = true →
  ∃ g', frame inp g = Some g' ∧ grid g' = grid g ∧
        current_piece g' = current_piece g ∧ next_piece g' = next_piece g ∧
        game_over g' = true.
Proof.
  intros Hover. unfold frame.
  destruct (handle_events_over (events inp) g Hover)
    as (g1 & -> & Hg & Hc & Hn & Ho). simpl.
  exists g1. unfold fall. by rewrite Ho.
Qed.

Lemma game_over_is_final_witness :
  ∃ g', frame {| events := [KEYDOWN K_LEFT; KEYDOWN K_UP]; fall_due := true;
                 rnd := 4 |} stacked_to_the_top = Some g' ∧
        grid g' = grid stacked_to_the_top ∧
        current_piece g' = current_piece stacked_to_the_top ∧
        next_piece g' = next_piece stacked_to_the_top ∧
        game_over g' = true.
Proof.
  apply (game_over_is_final _ stacked_to_the_top). reflexivity.
Defined.

End TetrisMore.

(** * Drawing the puzzle game (main.py)

    The drawing functions call the graphics library for their effect on the
    screen.  They are modelled by the list of calls they make, in order; an
    [IndexError] is [None] as before. *)

Module TetrisDraw.
Import Tetris.

Definition SCREEN_WIDTH : Z := 800.
Definition SCREEN_HEIGHT : Z := 700.
Definition CELL_SIZE : Z := 30.
Definition GRID_OFFSET_X : Z := (SCREEN_WIDTH - GRID_WIDTH * CELL_SIZE) / 2.
Definition GRID_OFFSET_Y : Z := (SCREEN_HEIGHT - GRID_HEIGHT * CELL_SIZE) / 2.

Definition BLACK : Z * Z * Z := (0, 0, 0).
Definition GRAY : Z * Z * Z := (128, 128, 128).
Definition RED : Z * Z * Z := (255, 0, 0).
Definition GREEN : Z * Z * Z := (0, 255, 0).
Definition BLUE : Z * Z * Z := (0, 0, 255).
Definition CYAN : Z * Z * Z := (0, 255, 255).
Definition MAGENTA : Z * Z * Z := (255, 0, 255).
Definition YELLOW : Z * Z * Z := (255, 255, 0).
Definition ORANGE : Z * Z * Z := (255, 165, 0).

Definition COLORS : list (Z * Z * Z) :=
  [BLACK; CYAN; YELLOW; MAGENTA; GREEN; RED; BLUE; ORANGE].

(** The calls on the screen: [screen.fill], [pygame.draw.line],
    [pygame.draw.rect] with a [pygame.Rect(left, top, width, height)], the
    blit of the rendered 'GAME OVER' text centred at a point, and
    [pygame.display.flip]. *)
Inductive Draw : Type :=
  | Fill (color : Z * Z * Z)
  | Line (color : Z * Z * Z) (start_pos end_pos : Z * Z)
  | DrawRect (color : Z * Z * Z) (left top width height : Z)
  | BlitGameOver (color : Z * Z * Z) (center : Z * Z)
  | Flip.

(** [draw_grid] *)
Definition draw_grid : list Draw :=
  ((λ cx, Line GRAY (GRID_OFFSET_X + cx * CELL_SIZE, GRID_OFFSET_Y)
                    (GRID_OFFSET_X + cx * CELL_SIZE,
                     GRID_OFFSET_Y + GRID_HEIGHT * CELL_SIZE))
     <$> seqZ 0 (GRID_WIDTH + 1)) ++
  ((λ cy, Line GRAY (GRID_OFFSET_X, GRID_OFFSET_Y + cy * CELL_SIZE)
                    (GRID_OFFSET_X + GRID_WIDTH * CELL_SIZE,
                     GRID_OFFSET_Y + cy * CELL_SIZE))
     <$> seqZ 0 (GRID_HEIGHT + 1)).

(** The rectangle of a cell, one pixel inside the lines of the grid. *)
Definition cell_rect (color : Z * Z * Z) (cx cy : Z) : Draw :=
  DrawRect color (GRID_OFFSET_X + cx * CELL_SIZE + 1)
                 (GRID_OFFSET_Y + cy * CELL_SIZE + 1)
                 (CELL_SIZE - 2) (CELL_SIZE - 2).

(** The body of the inner loop of [draw_board]. *)
Definition draw_board_cell (gr : list (list Z)) (cy cx : Z) : option (list Draw) :=
  row ← py_get gr cy;
  c ← py_get row cx;
  if decide (c ≠ 0) then
    color ← py_get COLORS c;
    Some [cell_rect color cx cy]
  else Some [].

(** [for x in range(GRID_WIDTH)], over the columns still to come. *)
Fixpoint draw_board_row (gr : list (list Z)) (cy : Z) (cols : list Z)
  : option (list Draw) :=
  match cols with
  | [] => Some []
  | cx :: cols' =>
      calls ← draw_board_cell gr cy cx;
      more ← draw_board_row gr cy cols';
      Some (calls ++ more)
  end.

(** [for y in range(GRID_HEIGHT)], over the rows still to come. *)
Fixpoint draw_board_rows (gr : list (list Z)) (rows : list Z) : option (list Draw) :=
  match rows with
  | [] => Some []
  | cy :: rows' =>
      calls ← draw_board_row gr cy (seqZ 0 GRID_WIDTH);
      more ← draw_board_rows gr rows';
      Some (calls ++ more)
  end.

Definition draw_board (gr : list (list Z)) : option (list Draw) :=
  draw_board_rows gr (seqZ 0 GRID_HEIGHT).

(** The loop of [draw_piece] over the cells. *)
Fixpoint draw_cells (color : Z * Z * Z) (cells : list (Z * Z)) : list Draw :=
  match cells with
  | [] => []
  | (cx, cy) :: rest =>
      if decide ((0 ≤ cy < GRID_HEIGHT) ∧ (0 ≤ cx < GRID_WIDTH))
      then cell_rect color cx cy :: draw_cells color rest
      else draw_cells color rest
  end.

Definition draw_piece (p : Piece) : option (list Draw) :=
  color ← py_get COLORS (color_idx p);
  Some (draw_cells color (get_cells p)).

(** [draw_window] *)
Definition draw_window (gr : list (list Z)) (p : Piece) (over : bool)
  : option (list Draw) :=
  board ← draw_board gr;
  falling ← (if negb over then draw_piece p else Some []);
  Some ([Fill BLACK] ++ draw_grid ++ board ++ falling ++
        (if over
         then [BlitGameOver RED (SCREEN_WIDTH / 2, SCREEN_HEIGHT / 2)]
         else []) ++
        [Flip]).

End TetrisDraw.

Module TetrisDrawSpec.
Import Tetris TetrisSpec TetrisDraw.

(** The call that draws the cell in column [cx] of row [cy] of the grid, if
    the cell is occupied. *)
Definition draws_cell (gr : list (list Z)) (d : Draw) (cx cy : Z) : Prop :=
  ∃ v color, cell gr cx cy = Some v ∧ v ≠ 0 ∧
             COLORS !! Z.to_nat v = Some color ∧ d = cell_rect color cx cy.

(** A rectangle strictly inside the area of the grid on the screen. *)
Definition in_playfield (left top width height : Z) : Prop :=
  GRID_OFFSET_X < left ∧ left + width < GRID_OFFSET_X + GRID_WIDTH * CELL_SIZE ∧
  GRID_OFFSET_Y < top ∧ top + height < GRID_OFFSET_Y + GRID_HEIGHT * CELL_SIZE.

Lemma block_color (v : Z) :
  1 ≤ v ≤ 7 → ∃ color, py_get COLORS v = Some color ∧
                       COLORS !! Z.to_nat v = Some color ∧ color ≠ BLACK.
Proof.
  intros Hv.
  assert (v = 1 ∨ v = 2 ∨ v = 3 ∨ v = 4 ∨ v = 5 ∨ v = 6 ∨ v = 7) as Hcases by lia.
  destruct_or! Hcases; subst v; eexists; (split_and!; [reflexivity..|done]).
Qed.

Lemma draw_board_cell_spec (gr : list (list Z)) (cx cy : Z) :
  well_formed gr → cells_in_range gr →
  0 ≤ cx < GRID_WIDTH → 0 ≤ cy < GRID_HEIGHT →
  ∃ calls, draw_board_cell gr cy cx = Some calls ∧
           ∀ d, d ∈ calls ↔ draws_cell gr d cx cy.
Proof.
  intros Hwf Hrange Hcx Hcy.
  destruct (well_formed_cell gr cx cy) as (row & v & Hrow & _ & Hv); [done..|].
  assert (0 ≤ v ≤ 7) as Hv07.
  { eapply Forall_lookup_1 in Hrange; [|exact Hrow].
    by eapply Forall_lookup_1 in Hrange. }
  unfold draw_board_cell.
  rewrite (py_get_nonneg gr), Hrow by lia. simpl.
  rewrite (py_get_nonneg row), Hv by lia. simpl.
  assert (cell gr cx cy = Some v) as Hcell by (unfold cell; by rewrite Hrow).
  case_decide as Hv0.
  - destruct (block_color v) as (color & -> & Hcolor & _); [lia|]. simpl.
    eexists. split; [done|]. intros d. rewrite list_elem_of_singleton.
    split.
    + intros ->. by exists v, color.
    + intros (v' & color' & Hcell' & _ & Hcolor' & ->).
      assert (v' = v) as -> by congruence. congruence.
  - exists []. split; [done|]. intros d. split; [by intros ?%elem_of_nil|].
    intros (v' & color' & Hcell' & Hne & _). congruence.
Qed.

Lemma draw_board_row_spec (gr : list (list Z)) (cy : Z) (cols : list Z) :
  well_formed gr → cells_in_range gr → 0 ≤ cy < GRID_HEIGHT →
  Forall (λ cx, 0 ≤ cx < GRID_WIDTH) cols →
  ∃ calls, draw_board_row gr cy cols = Some calls ∧
           ∀ d, d ∈ calls ↔ ∃ cx, cx ∈ cols ∧ draws_cell gr d cx cy.
Proof.
  intros Hwf Hrange Hcy. induction 1 as [|cx cols Hcx _ IH]; simpl.
  { exists []. split; [done|]. intros d. split; [by intros ?%elem_of_nil|].
    by intros (cx & ?%elem_of_nil & _). }
  destruct (draw_board_cell_spec gr cx cy) as (calls & -> & Hcalls); [done..|].
  destruct IH as (more & -> & Hmore). simpl.
  eexists. split; [done|]. intros d. rewrite elem_of_app, Hcalls, Hmore.
  split.
  - intros [Hd|(cx' & Hin & Hd)]; [exists cx; split; [left|done]|].
    exists cx'. split; [by right|done].
  - intros (cx' & [->|Hin]%elem_of_cons & Hd); [by left|right; eauto].
Qed.

Lemma draw_board_rows_spec (gr : list (list Z)) (rows : list Z) :
  well_formed gr → cells_in_range gr →
  Forall (λ cy, 0 ≤ cy < GRID_HEIGHT) rows →
  ∃ calls, draw_board_rows gr rows = Some calls ∧
           ∀ d, d ∈ calls ↔
                ∃ cx cy, 0 ≤ cx < GRID_WIDTH ∧ cy ∈ rows ∧ draws_cell gr d cx cy.
Proof.
  intros Hwf Hrange. induction 1 as [|cy rows Hcy _ IH]; cbn [draw_board_rows].
  { exists []. split; [done|]. intros d. split; [by intros ?%elem_of_nil|].
    by intros (cx & cy & _ & ?%elem_of_nil & _). }
  destruct (draw_board_row_spec gr cy (seqZ 0 GRID_WIDTH))
    as (calls & -> & Hcalls); [done..| |].
  { apply Forall_forall. intros cx Hin%elem_of_seqZ. lia. }
  destruct IH as (more & -> & Hmore). cbn [mbind option_bind].
  eexists. split; [done|]. intros d. rewrite elem_of_app, Hcalls, Hmore.
  split.
  - intros [(cx & Hin%elem_of_seqZ & Hd)|(cx & cy' & Hcx & Hin & Hd)].
    + exists cx, cy. split; [lia|]. split; [left|done].
    + exists cx, cy'. split; [done|]. split; [by right|done].
  - intros (cx & cy' & Hcx & [->|Hin]%elem_of_cons & Hd).
    + left. exists cx. split; [|done]. apply elem_of_seqZ. lia.
    + right. eauto.
Qed.

Lemma draw_cells_spec (color : Z * Z * Z) (cells : list (Z * Z)) (d : Draw) :
  d ∈ draw_cells color cells ↔
  ∃ c, c ∈ cells ∧ in_grid c ∧ d = cell_rect color c.1 c.2.
Proof.
  induction cells as [|[cx cy] rest IH]; simpl.
  { split; [by intros ?%elem_of_nil|by intros (c & ?%elem_of_nil & _)]. }
  case_decide as Hin.
  - rewrite elem_of_cons, IH. split.
    + intros [->|(c & Hc & Hg & ->)]; [exists (cx, cy); split_and!; [left|done..]|].
      exists c. split_and!; [by right|done..].
    + intros (c & [->|Hc]%elem_of_cons & Hg & ->); [by left|right; eauto].
  - rewrite IH. split.
    + intros (c & Hc & Hg & ->). exists c. split_and!; [by right|done..].
    + intros (c & [->|Hc]%elem_of_cons & Hg & ->); [done|eauto].
Qed.

Lemma cell_rect_in_playfield (color : Z * Z * Z) (cx cy : Z) :
  0 ≤ cx < GRID_WIDTH → 0 ≤ cy < GRID_HEIGHT →
  ∃ l t, cell_rect color cx cy = DrawRect color l t 28 28 ∧ in_playfield l t 28 28.
Proof.
  intros Hcx Hcy. eexists _, _. split; [reflexivity|].
  unfold in_playfield, GRID_OFFSET_X, GRID_OFFSET_Y, SCREEN_WIDTH, SCREEN_HEIGHT,
    CELL_SIZE, GRID_WIDTH, GRID_HEIGHT in *.
  change ((800 - 10 * 30) `div` 2) with 250.
  change ((700 - 20 * 30) `div` 2) with 50. lia.
Qed.

(** X12: on a grid of 20 rows of 10 cells holding values in 0-7,
    [draw_board] raises nothing and draws exactly the occupied cells: a
    call is made if and only if it is the rectangle of an occupied cell, in
    the colour [COLORS] gives for the value of the cell. *)
Theorem draw_board_draws_blocks (gr : list (list Z)) :
  well_formed gr → cells_in_range gr →
  ∃ calls, draw_board gr = Some calls ∧
    ∀ d, d ∈ calls ↔
         ∃ cx cy v color,
           0 ≤ cx < GRID_WIDTH ∧ 0 ≤ cy < GRID_HEIGHT ∧
           cell gr cx cy = Some v ∧ v ≠ 0 ∧
           COLORS !! Z.to_nat v = Some color ∧ d = cell_rect color cx cy.
Proof.
  intros Hwf Hrange.
  destruct (draw_board_rows_spec gr (seqZ 0 GRID_HEIGHT) Hwf Hrange)
    as (calls & Hcalls & Hspec).
  { apply Forall_forall. intros cy Hin%elem_of_seqZ. lia. }
  exists calls. split; [done|]. intros d. rewrite Hspec. split.
  - intros (cx & cy & Hcx & Hcy%elem_of_seqZ & v & color & Hv & Hne & Hc & Hd).
    exists cx, cy, v, color. split; [done|]. split; [lia|done].
  - intros (cx & cy & v & color & Hcx & Hcy & Hd).
    exists cx, cy. split; [done|]. split; [apply elem_of_seqZ; lia|].
    by exists v, color.
Qed.

Lemma draw_board_draws_blocks_witness :
  ∃ calls, draw_board two_full_rows = Some calls ∧
    ∀ d, d ∈ calls ↔
         ∃ cx cy v color,
           0 ≤ cx < GRID_WIDTH ∧ 0 ≤ cy < GRID_HEIGHT ∧
           cell two_full_rows cx cy = Some v ∧ v ≠ 0 ∧
           COLORS !! Z.to_nat v = Some color ∧ d = cell_rect color cx cy.
Proof.
  apply (draw_board_draws_blocks two_full_rows); by_decision.
Defined.

(** The code on a small input: a value outside [COLORS] in the grid makes
    [draw_board] raise, a negative one counts from the end of [COLORS]. *)
Example draw_board_bad_cell :
  draw_board (<[0%nat := [8; 0; 0; 0; 0; 0; 0; 0; 0; 0]]> create_grid) = None ∧
  draw_board (<[0%nat := [-1; 0; 0; 0; 0; 0; 0; 0; 0; 0]]> create_grid) =
    Some [cell_rect ORANGE 0 0].
Proof. by vm_compute. Qed.

(** X13: [draw_piece] raises exactly when [color_idx] is outside the range
    of [COLORS] (-8 to 7, a negative index counting from the end);
    otherwise it draws the cells of the piece that lie inside the grid, each
    in the colour of the piece, and none of the others. *)
Theorem draw_piece_draws_visible_cells (p : Piece) :
  (draw_piece p = None ↔ ¬ (-8 ≤ color_idx p < 8)) ∧
  ∀ calls, draw_piece p = Some calls →
    ∃ color, py_get COLORS (color_idx p) = Some color ∧
      ∀ d, d ∈ calls ↔
           ∃ c, c ∈ get_cells p ∧
                (0 ≤ c.2 < GRID_HEIGHT) ∧ (0 ≤ c.1 < GRID_WIDTH) ∧
                d = cell_rect color c.1 c.2.
Proof.
  unfold draw_piece. split.
  - destruct (decide (-8 ≤ color_idx p < 8)) as [Hin|Hout].
    + assert (is_Some (py_get COLORS (color_idx p))) as [color ->].
      { unfold py_get. simpl length.
        destruct (decide (0 ≤ color_idx p)).
        - apply lookup_lt_is_Some_2. simpl. lia.
        - rewrite decide_True by lia. apply lookup_lt_is_Some_2. simpl. lia. }
      simpl. split; [done|tauto].
    + assert (py_get COLORS (color_idx p) = None) as ->; [|done].
      unfold py_get. simpl length.
      destruct (decide (0 ≤ color_idx p)).
      * apply lookup_ge_None_2. simpl. lia.
      * by rewrite decide_False by lia.
  - intros calls.
    destruct (py_get COLORS (color_idx p)) as [color|]; [|done]. simpl.
    intros [= <-]. exists color. split; [done|]. intros d.
    rewrite draw_cells_spec. unfold in_grid. split.
    + intros (c & Hc & [Hy Hx] & ->). exists c. tauto.
    + intros (c & Hc & Hy & Hx & ->). exists c. tauto.
Qed.

(** The T piece with its upper row above the grid: the three cells of its
    lower row are drawn. *)
Lemma draw_piece_draws_visible_cells_witness :
  ∃ color, py_get COLORS (color_idx t_piece_above) = Some color ∧
    ∀ d, d ∈ [cell_rect MAGENTA 4 0; cell_rect MAGENTA 5 0; cell_rect MAGENTA 6 0] ↔
         ∃ c, c ∈ get_cells t_piece_above ∧
              (0 ≤ c.2 < GRID_HEIGHT) ∧ (0 ≤ c.1 < GRID_WIDTH) ∧
              d = cell_rect color c.1 c.2.
Proof.
  apply (proj2 (draw_piece_draws_visible_cells t_piece_above)). reflexivity.
Defined.

Lemma draw_grid_lines (d : Draw) :
  d ∈ draw_grid → ∃ color a b, d = Line color a b.
Proof.
  unfold draw_grid. intros [Hd|Hd]%elem_of_app;
    apply list_elem_of_fmap in Hd as (k & -> & _); eauto.
Qed.

(** The calls of [draw_window], by the part of the function that makes
    them. *)
Lemma window_calls (board falling : list Draw) (over : bool) (d : Draw) :
  d ∈ [Fill BLACK] ++ draw_grid ++ board ++ falling ++
      (if over
       then [BlitGameOver RED (SCREEN_WIDTH / 2, SCREEN_HEIGHT / 2)]
       else []) ++ [Flip] ↔
  d = Fill BLACK ∨ d ∈ draw_grid ∨ d ∈ board ∨ d ∈ falling ∨
  (over = true ∧ d = BlitGameOver RED (SCREEN_WIDTH / 2, SCREEN_HEIGHT / 2)) ∨
  d = Flip.
Proof.
  rewrite !elem_of_app, !list_elem_of_singleton.
  destruct over.
  - rewrite list_elem_of_singleton. tauto.
  - rewrite elem_of_nil. intuition congruence.
Qed.

(** X14: in every state of a run [draw_window] raises nothing; every
    rectangle it draws is a square of side 28 strictly inside the area of
    the grid on the screen, in a colour other than the black of the
    background; and the 'GAME OVER' text is drawn exactly when the game is
    over. *)
Theorem draw_window_in_a_run (g : Game) :
  reachable g →
  ∃ calls, draw_window (grid g) (current_piece g) (game_over g) = Some calls ∧
    (∀ color l t w h, DrawRect color l t w h ∈ calls →
       color ≠ BLACK ∧ w = 28 ∧ h = 28 ∧ in_playfield l t w h) ∧
    (BlitGameOver RED (SCREEN_WIDTH / 2, SCREEN_HEIGHT / 2) ∈ calls ↔
     game_over g = true).
Proof.
  intros [Hwf Hrange Hcur _]%tetris_reachable_inv.
  destruct (draw_board_rows_spec (grid g) (seqZ 0 GRID_HEIGHT) Hwf Hrange)
    as (board & Hboard & Hb).
  { apply Forall_forall. intros cy Hin%elem_of_seqZ. lia. }
  destruct Hcur as (Hs & Hc & _).
  destruct (block_color (color_idx (current_piece g))) as (pc & Hpc & _ & Hpc');
    [lia|].
  unfold draw_window, draw_board. rewrite Hboard. cbn [mbind option_bind].
  assert (∃ falling,
            (if negb (game_over g) then draw_piece (current_piece g) else Some [])
            = Some falling ∧
            ∀ d, d ∈ falling →
                 ∃ c, in_grid c ∧ d = cell_rect pc c.1 c.2)
    as (falling & -> & Hf).
  { destruct (game_over g); cbn [negb].
    - exists []. split; [done|]. by intros d ?%elem_of_nil.
    - unfold draw_piece. rewrite Hpc. cbn [mbind option_bind].
      eexists. split; [done|].
      intros d (c & _ & Hg & ->)%draw_cells_spec. eauto. }
  cbn [mbind option_bind]. eexists. split; [done|]. split.
  - intros color l t w h.
    intros [?|[Hgrid|[Hin|[Hin|[[_ ?]|?]]]]]%window_calls; try done.
    + by apply draw_grid_lines in Hgrid as (? & ? & ? & ?).
    + apply Hb in Hin
        as (cx & cy & Hcx & Hcy%elem_of_seqZ & v & col & Hv & Hne & Hcol & Hd).
      destruct (cell_rect_in_playfield col cx cy) as (l' & t' & Heq & Hpf);
        [lia..|].
      rewrite Heq in Hd. injection Hd as -> -> -> -> ->.
      split_and!; try done.
      assert (0 ≤ v ≤ 7) as Hv07.
      { unfold cell in Hv.
        destruct (grid g !! Z.to_nat cy) as [row|] eqn:Hrow; [|done].
        simpl in Hv. eapply Forall_lookup_1 in Hrange; [|exact Hrow].
        by eapply Forall_lookup_1 in Hrange. }
      destruct (block_color v) as (col' & _ & Hcol' & Hnb); [lia|]. congruence.
    + apply Hf in Hin as (c & [Hy Hx] & Hd).
      destruct (cell_rect_in_playfield pc c.1 c.2) as (l' & t' & Heq & Hpf);
        [done..|].
      rewrite Heq in Hd. by injection Hd as -> -> -> -> ->.
  - rewrite window_calls. split.
    + intros [?|[Hgrid|[Hin|[Hin|[[? _]|?]]]]]; try done.
      * by apply draw_grid_lines in Hgrid as (? & ? & ? & ?).
      * by apply Hb in Hin as (cx & cy & _ & _ & v & col & _ & _ & _ & ?).
      * by apply Hf in Hin as (c & _ & ?).
    + intros ->. tauto.
Qed.

Lemma draw_window_in_a_run_witness :
  ∃ calls, draw_window (grid t_piece_locked) (current_piece t_piece_locked)
             (game_over t_piece_locked) = Some calls ∧
    (∀ color l t w h, DrawRect color l t w h ∈ calls →
       color ≠ BLACK ∧ w = 28 ∧ h = 28 ∧ in_playfield l t w h) ∧
    (BlitGameOver RED (SCREEN_WIDTH / 2, SCREEN_HEIGHT / 2) ∈ calls ↔
     game_over t_piece_locked = true).
Proof.
  apply (draw_window_in_a_run t_piece_locked), t_piece_locked_reachable.
Defined.

Example draw_t_piece_above :
  draw_piece t_piece_above =
    Some [cell_rect MAGENTA 4 0; cell_rect MAGENTA 5 0; cell_rect MAGENTA 6 0].
Proof. by vm_compute. Qed.

End TetrisDrawSpec.

(** * More on the shooter: the parts of a frame, and what a run keeps *)

Module InvadersMore.
Import Invaders InvadersSpec.

(** The condition [not game_over and not win] under which a frame shoots
    and updates. *)
Definition active (g : Game) : Prop := game_over g = false ∧ win g = false.

Lemma active_true (g : Game) :
  active g → negb (game_over g) && negb (win g) = true.
Proof. by intros [-> ->]. Qed.

Lemma not_active_false (g : Game) :
  game_over g = true ∨ win g = true → negb (game_over g) && negb (win g) = false.
Proof. intros [->| ->]; [done|by destruct (game_over g)]. Qed.

Lemma active_dec (g : Game) : active g ∨ (game_over g = true ∨ win g = true).
Proof. unfold active. destruct (game_over g), (win g); auto. Qed.

(** ** What each part of a frame touches *)

(** An event changes [running], and for a shot the player, the group of
    the player's bullets and the count of the objects made. *)
Lemma handle_event_fields (ev : Event) (g : Game) :
  let g' := handle_event ev g in
  aliens g' = aliens g ∧ alien_bullets g' = alien_bullets g ∧
  score g' = score g ∧ lives g' = lives g ∧ alien_speed g' = alien_speed g ∧
  game_over g' = game_over g ∧ win g' = win g ∧
  last_alien_shot g' = last_alien_shot g ∧
  last_alien_move g' = last_alien_move g ∧
  last_alien_drop g' = last_alien_drop g ∧
  running g' = (if decide (ev = QUIT) then false else running g) ∧
  ((player g' = player g ∧ player_bullets g' = player_bullets g ∧
    next_id g' = next_id g) ∨
   (active g ∧ ev = KEYDOWN K_SPACE ∧
    Z.of_nat (length (bullets (player g))) < max_bullets (player g) ∧
    player g' = set_bullets (bullets (player g) ++ [next_id g]) (player g) ∧
    player_bullets g' =
      bullet_group_add
        (Bullet_init (next_id g) (centerx (player_rect (player g)))
                     (top (player_rect (player g))) (-1))
        (player_bullets g) ∧
    next_id g' = S (next_id g))).
Proof.
  unfold handle_event.
  destruct (active_dec g) as [Hact|Hend].
  - rewrite (active_true g Hact).
    destruct ev as [|[]|]; try (cbn; split_and!; try done; by left).
    unfold shoot. destruct (decide (_ < _)) as [Hlt|Hge]; cbn.
    + split_and!; try done. right. by split_and!.
    + split_and!; try done. by left.
  - rewrite (not_active_false g Hend). cbn. split_and!; try done. by left.
Qed.

Lemma move_player_and_bullets_fields (inp : Input) (g : Game) :
  let g' := move_player_and_bullets inp g in
  let upd := update_player_bullets (player_bullets g)
               (Player_update (key_left inp) (key_right inp) (player g))
               (player_bullets g) in
  player g' = upd.1 ∧ player_bullets g' = upd.2 ∧
  alien_bullets g' = update_alien_bullets (alien_bullets g) (alien_bullets g) ∧
  aliens g' = aliens g ∧ score g' = score g ∧ lives g' = lives g ∧
  alien_speed g' = alien_speed g ∧
  game_over g' = game_over g ∧ win g' = win g ∧
  last_alien_shot g' = last_alien_shot g ∧
  last_alien_move g' = last_alien_move g ∧
  last_alien_drop g' = last_alien_drop g ∧
  running g' = running g ∧ next_id g' = next_id g.
Proof.
  unfold move_player_and_bullets.
  destruct (update_player_bullets _ _ _) as [pl2 pbs]. cbn. by split_and!.
Qed.

(** Whether the swarm turns around and drops in this frame. *)
Definition dropping (inp : Input) (g : Game) : bool :=
  bool_decide (current_time inp - last_alien_move g > alien_move_delay) &&
  bool_decide (Exists (λ a, left (alien_rect a) ≤ 0 ∨
                            right (alien_rect a) >= SCREEN_WIDTH) (aliens g)) &&
  bool_decide (current_time inp - last_alien_drop g > alien_drop_cooldown).

Lemma move_aliens_fields (inp : Input) (g : Game) :
  let g' := move_aliens inp g in
  player g' = player g ∧ player_bullets g' = player_bullets g ∧
  alien_bullets g' = alien_bullets g ∧
  score g' = score g ∧ lives g' = lives g ∧
  game_over g' = game_over g ∧ win g' = win g ∧
  last_alien_shot g' = last_alien_shot g ∧
  running g' = running g ∧ next_id g' = next_id g ∧
  aliens g' =
    (if decide (current_time inp - last_alien_move g > alien_move_delay)
     then
       if dropping inp g
       then drop_alien <$> (Alien_update (current_time inp) (alien_speed g) <$> aliens g)
       else Alien_update (current_time inp) (alien_speed g) <$> aliens g
     else aliens g).
Proof.
  unfold move_aliens, dropping.
  destruct (decide (_ > alien_move_delay)) as [Hmove|Hstay]; cbn.
  - rewrite (bool_decide_eq_true_2 _ Hmove). cbn. by split_and!.
  - by split_and!.
Qed.

(** The timer of an alien after [should_shoot]. *)
Definition asked (inp : Input) (a : Alien) : Alien :=
  (should_shoot (current_time inp) (new_delay inp (alien_id a)) a).1.

(** Whether [should_shoot] returns [True]. *)
Definition expired (inp : Input) (a : Alien) : Prop :=
  current_time inp - last_shot a > shot_delay a.

#[global] Instance expired_dec inp a : Decision (expired inp a).
Proof. unfold expired. apply _. Defined.

Lemma asked_fields (inp : Input) (a : Alien) :
  alien_id (asked inp a) = alien_id a ∧ alien_rect (asked inp a) = alien_rect a ∧
  alien_direction (asked inp a) = alien_direction a.
Proof. unfold asked, should_shoot. by case_decide. Qed.

Lemma should_shoot_asked (inp : Input) (a : Alien) :
  should_shoot (current_time inp) (new_delay inp (alien_id a)) a =
  (asked inp a, bool_decide (expired inp a)).
Proof.
  unfold asked, expired, should_shoot.
  case_decide; [by rewrite bool_decide_eq_true_2|by rewrite bool_decide_eq_false_2].
Qed.

(** ** The alien that shoots *)

(** [max(l, key=key)] is an element of [l] with the largest key. *)
Lemma py_max_by_spec {A : Type} (key : A → Z) (l : list A) (m : A) :
  py_max_by key l = Some m → m ∈ l ∧ Forall (λ c, key c ≤ key m) l.
Proof.
  destruct l as [|a l]; [done|]. unfold py_max_by. intros [= <-].
  set (f := λ best c, if decide (key c > key best) then c else best).
  assert (∀ l best,
            (fold_left f l best = best ∨ fold_left f l best ∈ l) ∧
            key best ≤ key (fold_left f l best) ∧
            Forall (λ c, key c ≤ key (fold_left f l best)) l) as Hfold.
  { clear. induction l as [|c l IH]; intros best; cbn [fold_left].
    { split_and!; [by left|lia|constructor]. }
    destruct (IH (f best c)) as (Hin & Hle & Hall).
    assert (key best ≤ key (f best c) ∧ key c ≤ key (f best c) ∧
            (f best c = best ∨ f best c = c)) as (Hb & Hc & Hbc).
    { unfold f. case_decide; split_and!; auto; lia. }
    split_and!.
    - destruct Hin as [->|Hin]; [|right; by right].
      destruct Hbc as [->| ->]; [by left|right; left].
    - lia.
    - constructor; [lia|done]. }
  destruct (Hfold l a) as (Hin & Hle & Hall). split.
  - destruct Hin as [->|Hin]; [left|by right].
  - by constructor.
Qed.

(** The aliens of the group with [rect.x == xc]. *)
Definition column (all : list Alien) (xc : Z) : list Alien :=
  filter (λ a, x (alien_rect a) = xc) all.

(** The identity of [max(column_aliens, key=lambda a: a.rect.y)]. *)
Definition lowest_id (all : list Alien) (xc : Z) : option nat :=
  alien_id <$> py_max_by (λ a, y (alien_rect a)) (column all xc).

(** The same sprite at the same place, whatever its timer holds. *)
Definition same_place (a a' : Alien) : Prop :=
  alien_id a = alien_id a' ∧ alien_rect a = alien_rect a'.

Lemma column_same_place (l l' : list Alien) (xc : Z) :
  Forall2 same_place l l' → Forall2 same_place (column l xc) (column l' xc).
Proof.
  unfold column. induction 1 as [|a a' l l' [Hid Hrect] _ IH]; [constructor|].
  rewrite !filter_cons, Hrect. case_decide; [by constructor|done].
Qed.

Lemma lowest_id_same_place (l l' : list Alien) (xc : Z) :
  Forall2 same_place l l' → lowest_id l xc = lowest_id l' xc.
Proof.
  intros Hcol%(column_same_place _ _ xc). unfold lowest_id.
  destruct Hcol as [|a a' l1 l1' Ha Hl]; [done|]. unfold py_max_by. cbn.
  f_equal. revert a a' Ha.
  induction Hl as [|c c' l2 l2' [Hcid Hcrect] _ IH]; intros a a' [Hid Hrect];
    cbn [fold_left]; [done|].
  apply IH. rewrite Hcrect, Hrect. by case_decide.
Qed.

(** Whether an alien is put on the list [shooting_aliens]. *)
Definition shoots (inp : Input) (all : list Alien) (a : Alien) : Prop :=
  expired inp a ∧ lowest_id all (x (alien_rect a)) = Some (alien_id a).

#[global] Instance shoots_dec inp all a : Decision (shoots inp all a).
Proof. unfold shoots. apply _. Defined.

Lemma same_place_asked (inp : Input) (a a' : Alien) :
  same_place a a' → same_place (asked inp a) a'.
Proof.
  intros [Hid Hrect]. destruct (asked_fields inp a) as (Hid' & Hrect' & _).
  split; congruence.
Qed.

(** The loop over the aliens asks every alien whether it shoots, which
    restarts every timer that has run out, and collects the aliens that are
    the lowest of their column. *)
Lemma shooting_loop_spec (inp : Input) (all todo : list Alien) :
  ∀ done sh : list Alien,
    Forall2 same_place (done ++ todo) all →
    shooting_loop inp done todo sh =
    Some (done ++ (asked inp <$> todo),
          sh ++ (asked inp <$> filter (shoots inp all) todo)).
Proof.
  induction todo as [|a rest IH]; intros done sh Hall.
  { cbn. by rewrite !app_nil_r. }
  cbn [shooting_loop]. rewrite should_shoot_asked.
  assert (Forall2 same_place (done ++ asked inp a :: rest) all) as Hall1.
  { apply Forall2_app_inv_l in Hall as (all1 & all2 & H1 & H2 & ->).
    apply Forall2_cons_inv_l in H2 as (a' & all2' & Ha & H2 & ->).
    apply Forall2_app; [done|]. constructor; [by apply same_place_asked|done]. }
  assert (Forall2 same_place ((done ++ [asked inp a]) ++ rest) all) as Hall2
    by by rewrite <- app_assoc.
  destruct (asked_fields inp a) as (Hid & Hrect & _).
  rewrite filter_cons, fmap_cons.
  destruct (bool_decide (expired inp a)) eqn:Hexp.
  - apply bool_decide_eq_true in Hexp.
    pose proof (lowest_id_same_place _ _ (x (alien_rect (asked inp a))) Hall1)
      as Hlow.
    unfold lowest_id, column in Hlow.
    destruct (py_max_by _ (filter _ (done ++ asked inp a :: rest)))
      as [lowest|] eqn:Hmax.
    2:{ exfalso. unfold py_max_by in Hmax.
        destruct (filter _ (done ++ asked inp a :: rest)) as [|c col] eqn:Hcol;
          [|done].
        eapply (filter_nil_not_elem_of _ _ (asked inp a)); [exact Hcol|done|].
        apply elem_of_app. right. left. }
    cbn [mbind option_bind]. rewrite (IH _ _ Hall2), <- app_assoc.
    cbn [app]. f_equal. f_equal.
    cbn in Hlow. rewrite Hrect in Hlow.
    destruct (decide (alien_id (asked inp a) = alien_id lowest)) as [Heq|Hne].
    + rewrite decide_True.
      2:{ split; [done|]. unfold lowest_id, column. rewrite <- Hlow.
          by rewrite <- Heq, Hid. }
      rewrite fmap_cons, <- app_assoc. done.
    + rewrite decide_False; [done|].
      intros [_ Hl]. unfold lowest_id, column in Hl. rewrite <- Hlow in Hl.
      injection Hl as Hl. congruence.
  - apply bool_decide_eq_false in Hexp.
    rewrite (IH _ _ Hall2), <- app_assoc. cbn [app].
    rewrite decide_False; [done|]. by intros [? _].
Qed.

Lemma same_place_refl (l : list Alien) : Forall2 same_place l l.
Proof. apply Forall_Forall2_diag, Forall_forall. by intros a _. Qed.

(** The lowest alien of a column is in the column and no alien of the
    column is below it. *)
Lemma lowest_id_spec (all : list Alien) (a : Alien) :
  NoDup (alien_id <$> all) → a ∈ all →
  lowest_id all (x (alien_rect a)) = Some (alien_id a) →
  ∀ a', a' ∈ all → x (alien_rect a') = x (alien_rect a) →
        y (alien_rect a') ≤ y (alien_rect a).
Proof.
  intros Hnd Ha Hlow a' Ha' Hx. unfold lowest_id in Hlow.
  destruct (py_max_by _ _) as [m|] eqn:Hmax; [|done]. injection Hlow as Hid.
  apply py_max_by_spec in Hmax as [[Hmx Hm]%list_elem_of_filter Hle].
  assert (m = a) as ->.
  { apply list_elem_of_lookup in Hm as [i Hi]. apply list_elem_of_lookup in Ha as [j Hj].
    assert (i = j) as ->; [|congruence].
    eapply NoDup_lookup; [exact Hnd|..]; rewrite list_lookup_fmap.
    - by rewrite Hi.
    - rewrite Hj. cbn. by rewrite Hid. }
  rewrite Forall_forall in Hle. apply (Hle a'). apply list_elem_of_filter. by split.
Qed.

(** The global cooldown of the aliens' shots has run out. *)
Definition cooled (inp : Input) (g : Game) : Prop :=
  current_time inp - last_alien_shot g > global_alien_shot_cooldown.

#[global] Instance cooled_dec inp g : Decision (cooled inp g).
Proof. unfold cooled. apply _. Defined.

(** The bullet an alien shoots. *)
Definition alien_shot (id : nat) (a : Alien) : Bullet :=
  Bullet_init id (centerx (alien_rect a)) (bottom (alien_rect a)) 1.

Lemma aliens_shoot_fields (inp : Input) (g : Game) :
  ∃ g', aliens_shoot inp g = Some g' ∧
    player g' = player g ∧ player_bullets g' = player_bullets g ∧
    score g' = score g ∧ lives g' = lives g ∧ alien_speed g' = alien_speed g ∧
    game_over g' = game_over g ∧ win g' = win g ∧
    last_alien_move g' = last_alien_move g ∧
    last_alien_drop g' = last_alien_drop g ∧
    running g' = running g ∧
    aliens g' = (if decide (cooled inp g) then asked inp <$> aliens g else aliens g) ∧
    (((¬ cooled inp g ∨ filter (shoots inp (aliens g)) (aliens g) = []) ∧
      alien_bullets g' = alien_bullets g ∧ next_id g' = next_id g ∧
      last_alien_shot g' = last_alien_shot g) ∨
     (cooled inp g ∧
      ∃ a, a ∈ aliens g ∧ shoots inp (aliens g) a ∧
           alien_bullets g' =
             bullet_group_add (alien_shot (next_id g) a) (alien_bullets g) ∧
           next_id g' = S (next_id g) ∧
           last_alien_shot g' = current_time inp)).
Proof.
  unfold aliens_shoot. fold (cooled inp g).
  destruct (decide (cooled inp g)) as [Hcool|Hwait].
  2:{ exists g. split_and!; try done. left. split_and!; auto. }
  rewrite (shooting_loop_spec inp (aliens g) (aliens g) [] [] (same_place_refl _)).
  cbn [mbind option_bind app].
  destruct (filter (shoots inp (aliens g)) (aliens g)) as [|a0 sh] eqn:Hsh.
  { cbn. eexists. split; [done|]. cbn. split_and!; try done. left.
    split_and!; auto. }
  rewrite fmap_cons.
  destruct (choice_total (pick inp) (asked inp a0) (asked inp <$> sh)) as [c Hc].
  rewrite Hc. cbn [mbind option_bind].
  eexists. split; [done|]. cbn. split_and!; try done. right. split; [done|].
  assert (c ∈ asked inp <$> filter (shoots inp (aliens g)) (aliens g)) as Hin.
  { rewrite Hsh, fmap_cons. unfold choice in Hc. by eapply list_elem_of_lookup_2. }
  apply list_elem_of_fmap in Hin as (a & -> & [Hs Ha]%list_elem_of_filter).
  exists a. split_and!; try done.
  unfold alien_shot. destruct (asked_fields inp a) as (_ & -> & _). done.
Qed.

(** ** Invariants of the loop, part by part *)

Section Frames.
Context (P Q R : Game → Prop).
Hypothesis P_event : ∀ ev g, P g → P (handle_event ev g).
Hypothesis P_player :
  ∀ inp g, active g → P g → P (move_player_and_bullets inp g).
Hypothesis PQ_aliens : ∀ inp g, active g → P g → Q (move_aliens inp g).
Hypothesis Q_shoot :
  ∀ inp g g', active g → Q g → aliens_shoot inp g = Some g' → Q g'.
Hypothesis QR_resolve : ∀ g, active g → Q g → R (resolve g).
Hypothesis PR_ended : ∀ g, game_over g = true ∨ win g = true → P g → R g.

Lemma events_invariant (evs : list Event) : ∀ g, P g → P (handle_events evs g).
Proof.
  unfold handle_events. induction evs as [|ev evs IH]; intros g HP; cbn; auto.
Qed.

Lemma update_step (inp : Input) (g g' : Game) :
  P g → update inp g = Some g' → R g'.
Proof.
  intros HP. unfold update.
  destruct (active_dec g) as [Hact|Hend].
  2:{ rewrite (not_active_false g Hend). intros [= <-]. by apply PR_ended. }
  rewrite (active_true g Hact).
  set (g1 := move_player_and_bullets inp g).
  set (g2 := move_aliens inp g1).
  assert (active g1) as Hact1.
  { destruct (move_player_and_bullets_fields inp g)
      as (_ & _ & _ & _ & _ & _ & _ & Hgo & Hw & _).
    destruct Hact. split; unfold g1; congruence. }
  assert (active g2) as Hact2.
  { destruct (move_aliens_fields inp g1) as (_ & _ & _ & _ & _ & Hgo & Hw & _).
    destruct Hact1. split; unfold g2; congruence. }
  destruct (aliens_shoot inp g2) as [g3|] eqn:Hshoot; [|done].
  cbn [mbind option_bind]. intros [= <-].
  assert (active g3) as Hact3.
  { destruct (aliens_shoot_fields inp g2)
      as (g3' & Hg3 & _ & _ & _ & _ & _ & Hgo & Hw & _).
    assert (g3' = g3) as -> by congruence.
    destruct Hact2. split; congruence. }
  apply QR_resolve; [done|].
  eapply Q_shoot; [exact Hact2| |exact Hshoot].
  apply PQ_aliens; [done|]. by apply P_player.
Qed.

Lemma frame_step (inp : Input) (g g' : Game) :
  P g → frame inp g = Some g' → R g'.
Proof.
  unfold frame. intros HP. apply update_step. by apply events_invariant.
Qed.
End Frames.

Section Invariants.
Context (P Q : Game → Prop).
Hypothesis P_start : ∀ delays, P (start delays).
Hypothesis P_event : ∀ ev g, P g → P (handle_event ev g).
Hypothesis P_player :
  ∀ inp g, active g → P g → P (move_player_and_bullets inp g).
Hypothesis PQ_aliens : ∀ inp g, active g → P g → Q (move_aliens inp g).
Hypothesis Q_shoot :
  ∀ inp g g', active g → Q g → aliens_shoot inp g = Some g' → Q g'.
Hypothesis QP_resolve : ∀ g, active g → Q g → P (resolve g).

Lemma frame_invariant (inp : Input) (g g' : Game) :
  P g → frame inp g = Some g' → P g'.
Proof. apply (frame_step P Q P); auto. Qed.

Lemma reachable_invariant (g : Game) : reachable g → P g.
Proof.
  induction 1 as [delays | g inp g' _ IH _ Hframe]; [apply P_start|].
  by eapply frame_invariant.
Qed.
End Invariants.

(** ** Score, lives and the end of the game *)

(** An alien has come down to the height of the ship. *)
Definition landed (g : Game) : Prop :=
  Exists (λ a, bottom (alien_rect a) >= top (player_rect (player g))) (aliens g).

Record tally (g : Game) : Prop := mkTally {
  tally_aliens : alien_id <$> aliens g `sublist_of` seq 0 50;
  tally_score : score g = 10 * (50 - Z.of_nat (length (aliens g)));
  tally_lives : 0 ≤ lives g ≤ 3;
  tally_alive : game_over g = false → 1 ≤ lives g;
  tally_win : win g = true ↔ aliens g = []
}.

Definition ended_right (g : Game) : Prop :=
  game_over g = true ↔ lives g = 0 ∨ landed g.

Lemma tally_same (g g' : Game) :
  alien_id <$> aliens g' = alien_id <$> aliens g →
  score g' = score g → lives g' = lives g →
  game_over g' = game_over g → win g' = win g →
  tally g → tally g'.
Proof.
  intros Hids Hs Hl Hgo Hw [Hsub Hscore Hlives Halive Hwin].
  assert (length (aliens g') = length (aliens g)) as Hlen.
  { apply (f_equal length) in Hids. by rewrite !length_fmap in Hids. }
  split; rewrite ?Hids, ?Hs, ?Hl, ?Hgo, ?Hw, ?Hlen; try done.
  rewrite Hwin. split; intros Hnil.
  - rewrite Hnil in Hlen. by destruct (aliens g').
  - rewrite Hnil in Hlen. by destruct (aliens g).
Qed.

Lemma move_aliens_ids (inp : Input) (g : Game) :
  alien_id <$> aliens (move_aliens inp g) = alien_id <$> aliens g.
Proof.
  destruct (move_aliens_fields inp g) as (_ & _ & _ & _ & _ & _ & _ & _ & _ & _ & ->).
  case_decide; [|done].
  destruct (dropping inp g); rewrite <- ?list_fmap_compose; done.
Qed.

Lemma asked_ids (inp : Input) (als : list Alien) :
  alien_id <$> (asked inp <$> als) = alien_id <$> als.
Proof.
  rewrite <- list_fmap_compose. apply list_fmap_ext. intros _ a _. cbn.
  apply asked_fields.
Qed.

Lemma aliens_shoot_ids (inp : Input) (g g' : Game) :
  aliens_shoot inp g = Some g' → alien_id <$> aliens g' = alien_id <$> aliens g.
Proof.
  intros Hshoot.
  destruct (aliens_shoot_fields inp g)
    as (g2 & Hg2 & _ & _ & _ & _ & _ & _ & _ & _ & _ & _ & Hals & _).
  assert (g2 = g') as -> by congruence. rewrite Hals.
  case_decide; [apply asked_ids|done].
Qed.

(** The player, apart from the bullets it tracks, is the same after the
    loops over the bullets. *)
Lemma update_player_bullets_player (todo : list Bullet) :
  ∀ (pl : Player) (pbs : list Bullet),
    player_rect (update_player_bullets todo pl pbs).1 = player_rect pl ∧
    player_speed (update_player_bullets todo pl pbs).1 = player_speed pl ∧
    max_bullets (update_player_bullets todo pl pbs).1 = max_bullets pl.
Proof.
  induction todo as [|b rest IH]; intros pl pbs; cbn [update_player_bullets];
    [done|].
  destruct (Bullet_update b) as [b1 []]; [|apply IH].
  destruct (IH (set_bullets (discard (bullet_id b) (bullets pl)) pl)
               (bullet_group_remove (bullet_id b) pbs)) as (-> & -> & ->).
  done.
Qed.

Lemma hit_aliens_player (todo : list Bullet) :
  ∀ (pl : Player) (pbs : list Bullet) (als : list Alien) (sc : Z),
    player_rect (hit_aliens todo pl pbs als sc).1.1.1 = player_rect pl ∧
    player_speed (hit_aliens todo pl pbs als sc).1.1.1 = player_speed pl ∧
    max_bullets (hit_aliens todo pl pbs als sc).1.1.1 = max_bullets pl.
Proof.
  induction todo as [|b rest IH]; intros pl pbs als sc; cbn [hit_aliens];
    [done|].
  destruct (spritecollideany b als) as [a|]; [|apply IH].
  destruct (IH (set_bullets (discard (bullet_id b) (bullets pl)) pl)
               (bullet_group_remove (bullet_id b) pbs)
               (alien_group_remove (alien_id a) als) (sc + 10)) as (-> & -> & ->).
  done.
Qed.

(** [Player.update] moves the ship sideways only. *)
Lemma Player_update_fields (kl kr : bool) (pl : Player) :
  y (player_rect (Player_update kl kr pl)) = y (player_rect pl) ∧
  w (player_rect (Player_update kl kr pl)) = w (player_rect pl) ∧
  h (player_rect (Player_update kl kr pl)) = h (player_rect pl) ∧
  player_speed (Player_update kl kr pl) = player_speed pl ∧
  bullets (Player_update kl kr pl) = bullets pl ∧
  max_bullets (Player_update kl kr pl) = max_bullets pl.
Proof. player_update_cases H1 H2; done. Qed.

Lemma handle_event_player (ev : Event) (g : Game) :
  player_rect (player (handle_event ev g)) = player_rect (player g) ∧
  player_speed (player (handle_event ev g)) = player_speed (player g) ∧
  max_bullets (player (handle_event ev g)) = max_bullets (player g).
Proof.
  destruct (handle_event_fields ev g)
    as (_ & _ & _ & _ & _ & _ & _ & _ & _ & _ & _ & [(-> & _)|(_ & _ & _ & -> & _)]);
    done.
Qed.

Lemma move_player_and_bullets_player (inp : Input) (g : Game) :
  let pl' := player (move_player_and_bullets inp g) in
  y (player_rect pl') = y (player_rect (player g)) ∧
  w (player_rect pl') = w (player_rect (player g)) ∧
  h (player_rect pl') = h (player_rect (player g)) ∧
  player_speed pl' = player_speed (player g) ∧
  max_bullets pl' = max_bullets (player g).
Proof.
  cbv zeta. destruct (move_player_and_bullets_fields inp g) as (-> & _).
  destruct (update_player_bullets_player (player_bullets g)
              (Player_update (key_left inp) (key_right inp) (player g))
              (player_bullets g)) as (-> & -> & ->).
  destruct (Player_update_fields (key_left inp) (key_right inp) (player g))
    as (-> & -> & -> & -> & _ & ->).
  done.
Qed.

Lemma resolve_tally (g : Game) :
  active g → tally g → tally (resolve g) ∧ ended_right (resolve g).
Proof.
  intros [Hgo Hwin] [Hsub Hscore Hlives Halive Hw].
  pose proof (sublist_NoDup _ _ (NoDup_seq 0 50) Hsub) as Hnd.
  destruct (check_collisions_eq (player g) (player_bullets g) (alien_bullets g)
              (aliens g) (score g)) as (_ & _ & Hals & Hsc & _).
  pose proof (hit_aliens_score (player_bullets g) (player g) (player_bullets g)
                (aliens g) (score g) Hnd) as Hscore'.
  destruct (hit_aliens_sublist (player_bullets g) (player g) (player_bullets g)
              (aliens g) (score g)) as [_ Hsub'].
  rewrite <- Hals in Hscore', Hsub'. rewrite <- Hsc in Hscore'.
  unfold ended_right, landed, resolve.
  set (c := check_collisions _ _ _ _ _) in *. cbn.
  specialize (Halive Hgo). rewrite Hgo, Hwin.
  set (pl1 := if c_player_hit c && negb (bool_decide _) then _ else _).
  split; [split|]; cbn.
  - etrans; [|exact Hsub]. by apply fmap_sublist.
  - rewrite Hscore', Hscore. lia.
  - destruct (c_player_hit c); lia.
  - destruct (c_player_hit c); cbn; [|by intros; lia].
    destruct (bool_decide (Exists _ _)); [done|]. case_bool_decide; [done|lia].
  - case_decide as Hlen; [|split; [done|]].
    + split; [intros _|done]. by destruct (c_aliens c).
    + intros Hnil. by rewrite Hnil in Hlen.
  - destruct (bool_decide (Exists _ (c_aliens c))) eqn:Hland.
    + apply bool_decide_eq_true in Hland. split; [by right|done].
    + apply bool_decide_eq_false in Hland.
      destruct (c_player_hit c); cbn.
      * case_bool_decide; split; try done; [intros _; left; lia|].
        intros [?|?]; [lia|done].
      * split; [done|]. intros [?|?]; [lia|done].
Qed.

Lemma landed_same (g g' : Game) :
  aliens g' = aliens g →
  y (player_rect (player g')) = y (player_rect (player g)) →
  landed g' ↔ landed g.
Proof. unfold landed, top. by intros -> ->. Qed.

Lemma start_tally (delays : nat → Z) :
  tally (start delays) ∧ ended_right (start delays).
Proof.
  split; [split|]; cbn.
  - change (alien_id <$> setup_aliens delays `sublist_of` seq 0 50).
    by rewrite setup_aliens_ids.
  - done.
  - lia.
  - lia.
  - done.
  - unfold ended_right, landed. cbn. split; [done|]. intros [?|Hland]; [done|].
    exfalso. revert Hland. apply Forall_not_Exists.
    unfold setup_aliens. apply Forall_forall. intros a Ha. unfold compose.
    apply list_elem_of_bind in Ha as (row & Ha & Hrow%elem_of_seqZ).
    apply list_elem_of_bind in Ha as (col & Ha & Hcol%elem_of_seqZ).
    apply list_elem_of_singleton in Ha as ->. unfold bottom, top. cbn.
    unfold ALIEN_ROWS, ALIEN_HEIGHT, SCREEN_HEIGHT, PLAYER_HEIGHT in *. lia.
Qed.

Lemma game_tally (g : Game) : reachable g → tally g ∧ ended_right g.
Proof.
  apply (reachable_invariant (λ g, tally g ∧ ended_right g) tally).
  - apply start_tally.
  - intros ev g1 [Ht He].
    destruct (handle_event_fields ev g1)
      as (Ha & _ & Hs & Hl & _ & Hgo & Hw & _).
    destruct (handle_event_player ev g1) as (Hrect & _).
    split; [by apply (tally_same g1); [rewrite Ha|..]|].
    unfold ended_right in *. rewrite Hgo, Hl, He.
    by rewrite (landed_same g1 (handle_event ev g1)) by (by rewrite ?Hrect).
  - intros inp g1 _ [Ht He].
    destruct (move_player_and_bullets_fields inp g1)
      as (_ & _ & _ & Ha & Hs & Hl & _ & Hgo & Hw & _).
    destruct (move_player_and_bullets_player inp g1) as (Hy & _).
    split; [by apply (tally_same g1); [rewrite Ha|..]|].
    unfold ended_right in *. rewrite Hgo, Hl, He.
    by rewrite (landed_same g1 (move_player_and_bullets inp g1)).
  - intros inp g1 _ [Ht _].
    destruct (move_aliens_fields inp g1) as (_ & _ & _ & Hs & Hl & Hgo & Hw & _).
    apply (tally_same g1); try done. apply move_aliens_ids.
  - intros inp g1 g2 _ Ht Hshoot.
    pose proof (aliens_shoot_ids inp g1 g2 Hshoot) as Hids.
    destruct (aliens_shoot_fields inp g1)
      as (g2' & Hg2 & _ & _ & Hs & Hl & _ & Hgo & Hw & _).
    assert (g2' = g2) as -> by congruence.
    by apply (tally_same g1).
  - intros g1. apply resolve_tally.
Qed.

(** *** Runs to try things on *)

(** The frames of a list of inputs, one after the other. *)
Fixpoint play (inps : list Input) (g : Game) : option Game :=
  match inps with
  | [] => Some g
  | inp :: rest => frame inp g ≫= play rest
  end.

Lemma play_reachable (inps : list Input) :
  ∀ g g', reachable g → running g = true →
          Forall (λ inp, QUIT ∉ events inp) inps →
          play inps g = Some g' → reachable g' ∧ running g' = true.
Proof.
  induction inps as [|inp rest IH]; intros g g' Hreach Hrun Hq; cbn [play].
  { by intros [= <-]. }
  apply Forall_cons in Hq as [Hq Hrest].
  destruct (frame_keeps inp g) as (g1 & Hframe & _ & Hr & _).
  rewrite Hframe. cbn [mbind option_bind]. apply IH; [|by rewrite Hr|done].
  by eapply reachable_frame.
Qed.

(** The clock reads [t], no key is held, and [evs] are the events. *)
Definition at_time (t : Z) (evs : list Event) : Input :=
  {| events := evs; key_left := false; key_right := false; current_time := t;
     new_delay := λ _, 2000; pick := 7 |}.

(** One shot from the middle of the screen, and the frames it takes the
    bullet to reach the lowest row of aliens. *)
Definition one_shot : list Input :=
  at_time 1000 [KEYDOWN K_SPACE] :: replicate 50 (at_time 1000 []).

Definition first_alien_down : Game :=
  Eval vm_compute in default first_state (play one_shot first_state).

Lemma first_alien_down_reachable : reachable first_alien_down.
Proof.
  apply (play_reachable one_shot first_state first_alien_down);
    [exact invaders_first_state_reachable | done | by_decision | by vm_compute].
Qed.

(** The aliens shoot three times at a ship that does not move; every bullet
    takes its time to come down. *)
Definition three_hits : list Input :=
  replicate 50 (at_time 3000 []) ++ replicate 50 (at_time 6000 []) ++
  replicate 50 (at_time 9000 []).

Definition ship_destroyed : Game :=
  Eval vm_compute in default first_state (play three_hits first_state).

Lemma ship_destroyed_reachable : reachable ship_destroyed.
Proof.
  apply (play_reachable three_hits first_state ship_destroyed);
    [exact invaders_first_state_reachable | done | by_decision | by vm_compute].
Qed.

Example one_shot_one_alien :
  length (aliens first_alien_down) = 49%nat ∧ score first_alien_down = 10 ∧
  (47%nat ∉ alien_id <$> aliens first_alien_down) ∧
  player_bullets first_alien_down = [] ∧ bullets (player first_alien_down) = [].
Proof. split_and!; try done. by_decision. Qed.

Example three_hits_end_the_game :
  lives ship_destroyed = 0 ∧ game_over ship_destroyed = true ∧
  win ship_destroyed = false ∧ length (aliens ship_destroyed) = 50%nat.
Proof. done. Qed.

(** X15: in every state of a run the score is 10 points for every alien
    that is gone, so it lies between 0 and 500; [win] is set exactly when no
    alien is left, which is when the score is 500. *)
Theorem score_counts_destroyed_aliens (g : Game) :
  reachable g →
  score g = 10 * (ALIEN_ROWS * ALIEN_COLS - Z.of_nat (length (aliens g))) ∧
  0 ≤ score g ≤ 500 ∧
  (win g = true ↔ aliens g = []) ∧
  (win g = true ↔ score g = 500).
Proof.
  intros [[Hsub Hscore Hlives Halive Hwin] _]%game_tally.
  apply sublist_length in Hsub. rewrite length_fmap, length_seq in Hsub.
  change (ALIEN_ROWS * ALIEN_COLS) with 50.
  split_and!; try done; try lia.
  rewrite Hwin, Hscore. split; [by intros ->|].
  intros Hs. destruct (aliens g); [done|]. cbn [length] in Hs. lia.
Qed.

Lemma score_counts_destroyed_aliens_witness :
  score first_alien_down =
    10 * (ALIEN_ROWS * ALIEN_COLS - Z.of_nat (length (aliens first_alien_down))) ∧
  0 ≤ score first_alien_down ≤ 500 ∧
  (win first_alien_down = true ↔ aliens first_alien_down = []) ∧
  (win first_alien_down = true ↔ score first_alien_down = 500).
Proof.
  apply (score_counts_destroyed_aliens first_alien_down),
    first_alien_down_reachable.
Defined.

(** X16: in every state of a run the player has between 0 and 3 lives, and
    [game_over] is set exactly when no life is left or an alien of the group
    has come down to the top of the ship. *)
Theorem game_over_on_no_lives_or_landing (g : Game) :
  reachable g →
  0 ≤ lives g ≤ 3 ∧
  (game_over g = true ↔
   lives g = 0 ∨
   Exists (λ a, bottom (alien_rect a) >= top (player_rect (player g)))
          (aliens g)).
Proof. intros [[] He]%game_tally. by split. Qed.

Lemma game_over_on_no_lives_or_landing_witness :
  0 ≤ lives ship_destroyed ≤ 3 ∧
  (game_over ship_destroyed = true ↔
   lives ship_destroyed = 0 ∨
   Exists (λ a, bottom (alien_rect a) >=
                top (player_rect (player ship_destroyed)))
          (aliens ship_destroyed)).
Proof.
  apply (game_over_on_no_lives_or_landing ship_destroyed),
    ship_destroyed_reachable.
Defined.

(** *** After the end, and leaving the loop *)

Definition set_running (r : bool) (g : Game) : Game :=
  {| player := player g; aliens := aliens g; player_bullets := player_bullets g;
     alien_bullets := alien_bullets g; score := score g; lives := lives g;
     alien_speed := alien_speed g; game_over := game_over g; win := win g;
     last_alien_shot := last_alien_shot g; last_alien_move := last_alien_move g;
     last_alien_drop := last_alien_drop g; running := r; next_id := next_id g |}.

Lemma handle_events_ended (evs : list Event) :
  ∀ g, game_over g = true ∨ win g = true →
       handle_events evs g =
       set_running (running g && bool_decide (QUIT ∉ evs)) g.
Proof.
  unfold handle_events.
  induction evs as [|ev evs IH]; intros g Hend; cbn [fold_left].
  { destruct g as [? ? ? ? ? ? ? ? ? ? ? ? r ?]. by destruct r. }
  assert (handle_event ev g =
          set_running (if decide (ev = QUIT) then false else running g) g) as ->.
  { unfold handle_event. by rewrite (not_active_false g Hend). }
  rewrite IH by done. unfold set_running. cbn. f_equal.
  destruct (decide (ev = QUIT)) as [->|Hev].
  - rewrite andb_false_r. done.
  - destruct (decide (QUIT ∈ evs)) as [Hin|Hnin].
    + rewrite !bool_decide_eq_false_2; [done|..].
      * intros Hn. apply Hn. by right.
      * by intros Hn.
    + rewrite !bool_decide_eq_true_2; [done|..]; [|done].
      by intros [?|?]%elem_of_cons.
Qed.

Lemma handle_events_running (evs : list Event) :
  ∀ g, running (handle_events evs g) = running g && bool_decide (QUIT ∉ evs).
Proof.
  unfold handle_events.
  induction evs as [|ev evs IH]; intros g; cbn [fold_left].
  { by rewrite andb_true_r. }
  rewrite IH.
  destruct (handle_event_fields ev g) as (_ & _ & _ & _ & _ & _ & _ & _ & _ & _ & -> & _).
  destruct (decide (ev = QUIT)) as [->|Hev].
  - rewrite (bool_decide_eq_false_2 (QUIT ∉ QUIT :: evs));
      [by rewrite andb_false_r|].
    intros Hn. apply Hn. left.
  - f_equal. apply bool_decide_ext. rewrite not_elem_of_cons.
    split; [by intros; split|by intros [_ ?]].
Qed.

Lemma update_ended (inp : Input) (g : Game) :
  game_over g = true ∨ win g = true → update inp g = Some g.
Proof. intros Hend. unfold update. by rewrite (not_active_false g Hend). Qed.

(** X17: once [game_over] or [win] is set, a frame changes nothing of the
    game but [running]: no key shoots, nothing moves, the score and the
    lives stay; [running] is cleared by a [QUIT] event as before. *)
Theorem nothing_moves_after_the_end (inp : Input) (g : Game) :
  game_over g = true ∨ win g = true →
  frame inp g =
  Some (set_running (running g && bool_decide (QUIT ∉ events inp)) g).
Proof.
  intros Hend. unfold frame. rewrite handle_events_ended by done.
  by apply update_ended.
Qed.

Lemma nothing_moves_after_the_end_witness :
  frame (at_time 12000 [KEYDOWN K_SPACE]) ship_destroyed =
  Some (set_running
          (running ship_destroyed &&
           bool_decide (QUIT ∉ events (at_time 12000 [KEYDOWN K_SPACE])))
          ship_destroyed).
Proof.
  apply (nothing_moves_after_the_end (at_time 12000 [KEYDOWN K_SPACE])
           ship_destroyed).
  left. reflexivity.
Defined.

(** X18: a frame of the shooter never fails, in whatever state it starts,
    and [running] is true after it exactly when it was true before it and
    the frame's events hold no [QUIT]: a [QUIT] anywhere in the queue ends
    the loop, and nothing else does. *)
Theorem running_until_quit (inp : Input) (g : Game) :
  ∃ g', frame inp g = Some g' ∧
        running g' = running g && bool_decide (QUIT ∉ events inp).
Proof.
  unfold frame.
  destruct (update_keeps inp (handle_events (events inp) g))
    as (g' & Hg' & _ & Hrun & _).
  exists g'. split; [done|]. by rewrite Hrun, handle_events_running.
Qed.

(** ** The bullets the player tracks *)

(** In every state of a run the list [player.bullets] holds the bullets of
    the group [player_bullets], and every bullet object is in one group,
    once. *)
Record tracked (g : Game) : Prop := mkTracked {
  tracked_bullets : bullets (player g) = bullet_id <$> player_bullets g;
  tracked_max : max_bullets (player g) = 2;
  tracked_once : NoDup (bullet_id <$> player_bullets g ++ alien_bullets g);
  tracked_made :
    Forall (λ i, (i < next_id g)%nat)
           (bullet_id <$> player_bullets g ++ alien_bullets g)
}.

Lemma survivors_sublist (l : list Bullet) :
  bullet_id <$> omap survivor l `sublist_of` bullet_id <$> l.
Proof.
  induction l as [|b l IH]; [done|]. cbn [omap list_omap]. unfold survivor at 1.
  destruct (Bullet_update b).2 eqn:Hd.
  - by apply sublist_cons.
  - rewrite !fmap_cons, Bullet_update_id. by apply sublist_skip.
Qed.

Lemma forget_destroyed_ids (todo : list Bullet) :
  ∀ seen : list nat,
    NoDup (seen ++ (bullet_id <$> todo)) →
    forget_destroyed todo (seen ++ (bullet_id <$> todo)) =
    seen ++ (bullet_id <$> omap survivor todo).
Proof.
  unfold forget_destroyed.
  induction todo as [|b rest IH]; intros seen Hnd; [done|].
  cbn [fold_left omap list_omap]. unfold survivor at 1.
  rewrite fmap_cons in *.
  destruct (Bullet_update b).2 eqn:Hd.
  - rewrite discard_filter by done.
    apply NoDup_app in Hnd as (Hseen & Hsep & [Hb Hrest]%NoDup_cons).
    rewrite filter_app, filter_cons_False by (by intros ?).
    assert (∀ l : list nat, bullet_id b ∉ l → filter (λ i, i ≠ bullet_id b) l = l)
      as Hkeep.
    { induction l as [|u l IHl]; [done|]. intros [Hne Hl]%not_elem_of_cons.
      rewrite filter_cons_True by done. by rewrite IHl. }
    rewrite !Hkeep; [|done|].
    + apply IH. apply NoDup_app. split_and!; [done| |done].
      intros i Hi Hin. apply (Hsep i Hi). by right.
    + intros Hin. apply (Hsep _ Hin). left.
  - rewrite fmap_cons, Bullet_update_id.
    specialize (IH (seen ++ [bullet_id b])). rewrite <- !app_assoc in IH.
    by apply IH.
Qed.

(** A new bullet object goes to the end of its group. *)
Lemma add_new_bullet (b : Bullet) (grp : list Bullet) (n : nat) :
  bullet_id b = n → Forall (λ i, (i < n)%nat) (bullet_id <$> grp) →
  bullet_group_add b grp = grp ++ [b].
Proof.
  intros Hb Hfresh. unfold bullet_group_add. rewrite decide_False; [done|].
  intros Hin. rewrite Forall_forall in Hfresh. apply Hfresh in Hin. lia.
Qed.

Lemma tracked_sublist (g g' : Game) :
  bullets (player g') = bullet_id <$> player_bullets g' →
  max_bullets (player g') = max_bullets (player g) →
  bullet_id <$> player_bullets g' `sublist_of` bullet_id <$> player_bullets g →
  bullet_id <$> alien_bullets g' `sublist_of` bullet_id <$> alien_bullets g →
  next_id g' = next_id g →
  tracked g → tracked g'.
Proof.
  intros Hb Hmax Hp Ha Hn [_ Hmax' Hnd Hfresh].
  assert ((bullet_id <$> player_bullets g' ++ alien_bullets g') `sublist_of`
          (bullet_id <$> player_bullets g ++ alien_bullets g)) as Hsub.
  { rewrite !fmap_app. by apply sublist_app. }
  split; [done|congruence|by eapply sublist_NoDup|].
  rewrite Hn. rewrite Forall_forall in *. intros i Hi. apply Hfresh.
  by eapply elem_of_sublist.
Qed.

Lemma start_tracked (delays : nat → Z) : tracked (start delays).
Proof. split; cbn; [done|done|constructor|constructor]. Qed.

Lemma handle_event_tracked (ev : Event) (g : Game) :
  tracked g → tracked (handle_event ev g).
Proof.
  intros [Hb Hmax Hnd Hfresh].
  destruct (handle_event_fields ev g)
    as (_ & Habs & _ & _ & _ & _ & _ & _ & _ & _ & _ & Hshot).
  destruct Hshot as [(Hpl & Hpbs & Hn)|(_ & _ & _ & Hpl & Hpbs & Hn)].
  { split; rewrite ?Hpl, ?Hpbs, ?Habs, ?Hn; done. }
  rewrite fmap_app in Hnd, Hfresh.
  pose proof Hfresh as [Hfp Hfa]%Forall_app.
  rewrite (add_new_bullet _ _ (next_id g)) in Hpbs by done.
  split; rewrite ?Hpl, ?Hpbs, ?Habs, ?Hn.
  - cbn. by rewrite Hb, fmap_app.
  - done.
  - rewrite !fmap_app, <- app_assoc. cbn [fmap list_fmap app].
    rewrite <- Permutation_middle. apply NoDup_cons. split; [|done].
    cbn. intros Hin. rewrite Forall_forall in Hfresh. apply Hfresh in Hin. lia.
  - rewrite !fmap_app, <- app_assoc. cbn [fmap list_fmap app].
    rewrite <- Permutation_middle. constructor; [cbn; lia|].
    eapply Forall_impl; [exact Hfresh|]. cbn. lia.
Qed.

Lemma move_player_and_bullets_tracked (inp : Input) (g : Game) :
  tracked g → tracked (move_player_and_bullets inp g).
Proof.
  intros Ht. pose proof Ht as [Hb Hmax Hnd Hfresh].
  destruct (move_player_and_bullets_fields inp g)
    as (Hpl & Hpbs & Habs & _ & _ & _ & _ & _ & _ & _ & _ & _ & _ & Hn).
  rewrite fmap_app in Hnd. apply NoDup_app in Hnd as (Hndp & _ & Hnda).
  pose proof (update_player_bullets_scan (player_bullets g) []
                (Player_update (key_left inp) (key_right inp) (player g)) Hndp)
    as Hscan.
  pose proof (update_alien_bullets_scan (alien_bullets g) [] Hnda) as Hscan'.
  cbn [app] in Hscan, Hscan'. rewrite Hscan in Hpl, Hpbs. rewrite Hscan' in Habs.
  cbn [fst snd] in Hpl, Hpbs.
  destruct (Player_update_fields (key_left inp) (key_right inp) (player g))
    as (_ & _ & _ & _ & Hbl & Hmx).
  apply (tracked_sublist g); rewrite ?Hpl, ?Hpbs, ?Habs; try done.
  - cbn. rewrite Hbl, Hb. apply (forget_destroyed_ids _ []). done.
  - apply survivors_sublist.
  - apply survivors_sublist.
Qed.

Lemma aliens_shoot_tracked (inp : Input) (g g' : Game) :
  tracked g → aliens_shoot inp g = Some g' → tracked g'.
Proof.
  intros [Hb Hmax Hnd Hfresh] Hshoot.
  destruct (aliens_shoot_fields inp g)
    as (g2 & Hg2 & Hpl & Hpbs & _ & _ & _ & _ & _ & _ & _ & _ & _ & Hshot).
  assert (g2 = g') as -> by congruence.
  destruct Hshot as [(_ & Habs & Hn & _)|(_ & a & _ & _ & Habs & Hn & _)].
  { split; rewrite ?Hpl, ?Hpbs, ?Habs, ?Hn; done. }
  rewrite fmap_app in Hnd, Hfresh.
  pose proof Hfresh as [Hfp Hfa]%Forall_app.
  rewrite (add_new_bullet _ _ (next_id g)) in Habs by done.
  split; rewrite ?Hpl, ?Hpbs, ?Habs, ?Hn; try done.
  - rewrite !fmap_app, app_assoc. cbn [fmap list_fmap].
    apply NoDup_app. split_and!; [by rewrite <- fmap_app in *| |apply NoDup_singleton].
    intros i Hi ->%list_elem_of_singleton. cbn in Hi.
    rewrite <- fmap_app, Forall_forall in Hfresh.
    rewrite <- fmap_app in Hi. apply Hfresh in Hi. lia.
  - rewrite !fmap_app, app_assoc. cbn [fmap list_fmap].
    apply Forall_app. split; [|by constructor; [cbn; lia|]].
    eapply Forall_impl; [exact Hfresh|]. cbn. lia.
Qed.

Lemma resolve_tracked (g : Game) : tracked g → tracked (resolve g).
Proof.
  intros Ht. pose proof Ht as [Hb Hmax Hnd Hfresh].
  rewrite fmap_app in Hnd. apply NoDup_app in Hnd as (Hndp & _ & Hnda).
  destruct (check_collisions_eq (player g) (player_bullets g) (alien_bullets g)
              (aliens g) (score g)) as (Hpl & Hpbs & _ & _ & _ & Habs).
  pose proof (hit_aliens_tracked (player_bullets g) (player g) (player_bullets g)
                (aliens g) (score g) Hb Hndp) as Hb'.
  destruct (hit_aliens_player (player_bullets g) (player g) (player_bullets g)
              (aliens g) (score g)) as (_ & _ & Hmx).
  destruct (hit_aliens_sublist (player_bullets g) (player g) (player_bullets g)
              (aliens g) (score g)) as [Hsub _].
  rewrite <- Hpl in Hb', Hmx. rewrite <- Hpbs in Hb', Hsub.
  apply (tracked_sublist g); unfold resolve;
    set (c := check_collisions _ _ _ _ _) in *; cbn.
  - by destruct (_ && _).
  - by destruct (_ && _).
  - by apply fmap_sublist.
  - rewrite Habs. apply fmap_sublist, hit_player_sublist.
  - done.
  - done.
Qed.

Lemma game_tracked (g : Game) : reachable g → tracked g.
Proof.
  apply (reachable_invariant tracked tracked).
  - apply start_tracked.
  - apply handle_event_tracked.
  - intros inp g1 _. apply move_player_and_bullets_tracked.
  - intros inp g1 _ Ht.
    destruct (move_aliens_fields inp g1)
      as (Hpl & Hpbs & Habs & _ & _ & _ & _ & _ & _ & Hn & _).
    destruct Ht. split; rewrite ?Hpl, ?Hpbs, ?Habs, ?Hn; done.
  - intros inp g1 g2 _. apply aliens_shoot_tracked.
  - intros g1 _. apply resolve_tracked.
Qed.

(** X19: in every state of a run the list [player.bullets] holds exactly
    the bullets of the sprite group [player_bullets], in the order of the
    group; no bullet object is in a group twice or in both groups; and
    [shoot] returns [None] exactly when the group holds two bullets. *)
Theorem tracked_bullets_are_the_group (g : Game) :
  reachable g →
  bullets (player g) = bullet_id <$> player_bullets g ∧
  NoDup (bullet_id <$> (player_bullets g ++ alien_bullets g)) ∧
  (∀ id, (shoot id (player g)).2 = None ↔ length (player_bullets g) = 2%nat).
Proof.
  intros Hreach. destruct (game_tracked g Hreach) as [Hb Hmax Hnd _].
  apply invaders_reachable_inv in Hreach as [_ Hok _ _].
  apply bullets_ok_length in Hok.
  split_and!; try done. intros id. unfold shoot.
  rewrite Hmax, Hb, length_fmap. case_decide; cbn; split; try done; lia.
Qed.

Lemma tracked_bullets_are_the_group_witness :
  bullets (player after_three_presses) =
    bullet_id <$> player_bullets after_three_presses ∧
  NoDup (bullet_id <$>
           (player_bullets after_three_presses ++
            alien_bullets after_three_presses)) ∧
  (∀ id, (shoot id (player after_three_presses)).2 = None ↔
         length (player_bullets after_three_presses) = 2%nat).
Proof.
  apply (tracked_bullets_are_the_group after_three_presses),
    after_three_presses_reachable.
Defined.

(** ** Where things are *)

(** The place of the alien [id] of [setup_aliens] when the swarm has moved
    by [dx] and [dy]. *)
Definition slot (id : nat) (dx dy : Z) : Rect :=
  {| x := (Z.of_nat id `mod` ALIEN_COLS) * (ALIEN_WIDTH + 10) + 50 + dx;
     y := (Z.of_nat id `div` ALIEN_COLS) * (ALIEN_HEIGHT + 10) + 50 + dy;
     w := ALIEN_WIDTH; h := ALIEN_HEIGHT |}.

#[global] Instance Rect_eq_dec : EqDecision Rect.
Proof. solve_decision. Defined.

Definition in_formation (dx dy d : Z) (a : Alien) : Prop :=
  alien_rect a = slot (alien_id a) dx dy ∧ alien_direction a = d.

#[global] Instance in_formation_dec dx dy d a : Decision (in_formation dx dy d a).
Proof. unfold in_formation. apply _. Defined.

(** The aliens that are left stand in the formation they were set up in,
    moved as a whole, and head the same way. *)
Definition swarm (als : list Alien) (dx dy d : Z) : Prop :=
  alien_id <$> als `sublist_of` seq 0 50 ∧
  (d = 1 ∨ d = -1) ∧ 0 ≤ dy ∧ dy `mod` ALIEN_DROP = 0 ∧
  Forall (in_formation dx dy d) als.

(** A bullet of the player: it flies up from the top of the ship. *)
Definition player_shot_ok (b : Bullet) : Prop :=
  bullet_direction b = -1 ∧ bullet_speed b = BULLET_SPEED ∧
  w (bullet_rect b) = BULLET_WIDTH ∧ h (bullet_rect b) = BULLET_HEIGHT ∧
  24 ≤ x (bullet_rect b) ≤ 774 ∧
  -7 ≤ y (bullet_rect b) ≤ 560 ∧ y (bullet_rect b) `mod` 7 = 0.

(** A bullet of an alien: it flies down from the bottom of an alien. *)
Definition alien_shot_ok (b : Bullet) : Prop :=
  bullet_direction b = 1 ∧ bullet_speed b = BULLET_SPEED ∧
  w (bullet_rect b) = BULLET_WIDTH ∧ h (bullet_rect b) = BULLET_HEIGHT ∧
  80 ≤ y (bullet_rect b) ≤ SCREEN_HEIGHT.

Record arena (g : Game) : Prop := mkArena {
  arena_player : player_ok (player g);
  arena_ship : y (player_rect (player g)) = 560 ∧ h (player_rect (player g)) = 30;
  arena_player_bullets : Forall player_shot_ok (player_bullets g);
  arena_alien_bullets : Forall alien_shot_ok (alien_bullets g);
  arena_swarm : ∃ dx dy d, swarm (aliens g) dx dy d
}.

(** Between two frames: the speed is an [int] and, unless the game is over,
    every alien is above the ship. *)
Definition arena_at_rest (g : Game) : Prop :=
  arena g ∧ (∃ n, alien_speed g = Int n) ∧
  (game_over g = false →
   Forall (λ a, bottom (alien_rect a) < 560) (aliens g)).

(** After the aliens have moved: they may have come down by one drop. *)
Definition arena_moved (g : Game) : Prop :=
  arena g ∧ Forall (λ a, bottom (alien_rect a) < 580) (aliens g).

Lemma sublist_Forall {A : Type} (P : A → Prop) (l k : list A) :
  l `sublist_of` k → Forall P k → Forall P l.
Proof.
  rewrite !Forall_forall. intros Hsub Hk a Ha. apply Hk.
  by eapply elem_of_sublist.
Qed.

Lemma bullet_group_add_Forall (P : Bullet → Prop) (b : Bullet) (grp : list Bullet) :
  P b → Forall P grp → Forall P (bullet_group_add b grp).
Proof.
  intros Hb Hgrp. unfold bullet_group_add. case_decide; [done|].
  apply Forall_app. split; [done|by constructor].
Qed.

Lemma bullet_group_put_Forall (P : Bullet → Prop) (b : Bullet) (grp : list Bullet) :
  P b → Forall P grp → Forall P (bullet_group_put b grp).
Proof.
  intros Hb Hgrp. unfold bullet_group_put. apply Forall_fmap.
  eapply Forall_impl; [exact Hgrp|]. intros c Hc. cbn. by case_decide.
Qed.

Lemma bullet_group_remove_Forall (P : Bullet → Prop) (id : nat) (grp : list Bullet) :
  Forall P grp → Forall P (bullet_group_remove id grp).
Proof. apply sublist_Forall, remove_sublist. Qed.

Section Flight.
Context (P : Bullet → Prop).
Hypothesis P_update :
  ∀ b, P b → (Bullet_update b).2 = false → P (Bullet_update b).1.

Lemma update_player_bullets_Forall (todo : list Bullet) :
  ∀ (pl : Player) (pbs : list Bullet),
    Forall P todo → Forall P pbs →
    Forall P (update_player_bullets todo pl pbs).2.
Proof.
  induction todo as [|b rest IH]; intros pl pbs Htodo Hpbs;
    cbn [update_player_bullets]; [done|].
  apply Forall_cons in Htodo as [Hb Hrest].
  specialize (P_update b Hb).
  destruct (Bullet_update b) as [b1 []]; apply IH; try done.
  - by apply bullet_group_remove_Forall.
  - apply bullet_group_put_Forall; [by apply P_update|done].
Qed.

Lemma update_alien_bullets_Forall (todo : list Bullet) :
  ∀ abs : list Bullet,
    Forall P todo → Forall P abs → Forall P (update_alien_bullets todo abs).
Proof.
  induction todo as [|b rest IH]; intros abs Htodo Habs;
    cbn [update_alien_bullets]; [done|].
  apply Forall_cons in Htodo as [Hb Hrest].
  specialize (P_update b Hb).
  destruct (Bullet_update b) as [b1 []]; apply IH; try done.
  - by apply bullet_group_remove_Forall.
  - apply bullet_group_put_Forall; [by apply P_update|done].
Qed.
End Flight.

Lemma player_shot_flies (b : Bullet) :
  player_shot_ok b → (Bullet_update b).2 = false →
  player_shot_ok (Bullet_update b).1.
Proof.
  intros (Hd & Hs & Hw & Hh & Hx & Hy & Hm). unfold Bullet_update.
  case_decide as Hout; [done|]. intros _. unfold player_shot_ok. cbn.
  unfold bottom, top in Hout. cbn in Hout.
  rewrite Hd, Hs, Hh in *. unfold BULLET_SPEED, BULLET_HEIGHT, SCREEN_HEIGHT in *.
  pose proof (Z.div_mod (y (bullet_rect b)) 7 ltac:(lia)) as Hdiv.
  split_and!; try done; try lia.
  replace (y (bullet_rect b) + 7 * -1) with (y (bullet_rect b) + (-1) * 7) by lia.
  by rewrite Z.mod_add.
Qed.

Lemma alien_shot_flies (b : Bullet) :
  alien_shot_ok b → (Bullet_update b).2 = false →
  alien_shot_ok (Bullet_update b).1.
Proof.
  intros (Hd & Hs & Hw & Hh & Hy). unfold Bullet_update.
  case_decide as Hout; [done|]. intros _. unfold alien_shot_ok. cbn.
  unfold bottom, top in Hout. cbn in Hout.
  rewrite Hd, Hs, Hh in *. unfold BULLET_SPEED, BULLET_HEIGHT, SCREEN_HEIGHT in *.
  split_and!; try done; lia.
Qed.

Lemma start_arena (delays : nat → Z) : arena_at_rest (start delays).
Proof.
  split; [split|split]; cbn.
  - by vm_compute.
  - done.
  - constructor.
  - constructor.
  - exists 0, 0, 1. unfold swarm. split_and!; try done; [by left|].
    by_decision.
  - by eexists.
  - intros _. by_decision.
Qed.

Lemma handle_event_arena (ev : Event) (g : Game) :
  arena_at_rest g → arena_at_rest (handle_event ev g).
Proof.
  intros ([Hp Hship Hpbs Habs Hsw] & Hsp & Hland).
  destruct (handle_event_fields ev g)
    as (Ha & Hab & _ & _ & Hs & Hgo & _ & _ & _ & _ & _ & Hshot).
  destruct (handle_event_player ev g) as (Hrect & Hspeed & _).
  split; [split|split].
  - by eapply player_ok_same.
  - by rewrite Hrect.
  - destruct Hshot as [(_ & -> & _)|(_ & _ & _ & _ & -> & _)]; [done|].
    apply bullet_group_add_Forall; [|done].
    destruct Hp as (_ & Hw & _ & Hl & Hr). destruct Hship as [Hy _].
    unfold left, right in *. unfold player_shot_ok, Bullet_init, centerx, top.
    cbn. rewrite Hw, Hy. unfold PLAYER_WIDTH, SCREEN_WIDTH, BULLET_WIDTH in *.
    change (50 `div` 2) with 25. change (3 `div` 2) with 1.
    split_and!; try done; lia.
  - by rewrite Hab.
  - by rewrite Ha.
  - by rewrite Hs.
  - by rewrite Hgo, Ha.
Qed.

Lemma move_player_and_bullets_arena (inp : Input) (g : Game) :
  arena_at_rest g → arena_at_rest (move_player_and_bullets inp g).
Proof.
  intros ([Hp Hship Hpbs Habs Hsw] & Hsp & Hland).
  destruct (move_player_and_bullets_fields inp g)
    as (Hpl & Hpbs' & Habs' & Ha & _ & _ & Hs & Hgo & _).
  destruct (move_player_and_bullets_player inp g) as (Hy & Hw & Hh & Hspeed & _).
  split; [split|split].
  - rewrite Hpl.
    destruct (update_player_bullets_player (player_bullets g)
                (Player_update (key_left inp) (key_right inp) (player g))
                (player_bullets g)) as (Hrect & Hsp' & _).
    eapply player_ok_same; [exact Hrect|exact Hsp'|]. by apply Player_update_ok.
  - by rewrite Hy, Hh.
  - rewrite Hpbs'.
    by apply (update_player_bullets_Forall _ player_shot_flies).
  - rewrite Habs'. by apply (update_alien_bullets_Forall _ alien_shot_flies).
  - by rewrite Ha.
  - by rewrite Hs.
  - by rewrite Hgo, Ha.
Qed.

Lemma Alien_update_formation (t n dx dy d : Z) (a : Alien) :
  in_formation dx dy d a →
  in_formation (dx + n * d) dy d (Alien_update t (Int n) a).
Proof.
  intros [Hrect Hd]. split; [|done]. unfold Alien_update. cbn.
  rewrite Hd, Hrect. unfold slot, set_rect_x. cbn. f_equal. lia.
Qed.

Lemma drop_alien_formation (dx dy d : Z) (a : Alien) :
  in_formation dx dy d a →
  in_formation dx (dy + ALIEN_DROP) (- d) (drop_alien a).
Proof.
  intros [Hrect Hd]. split; [|cbn; lia]. unfold drop_alien. cbn.
  rewrite Hrect. unfold slot, set_rect_y. cbn. f_equal. lia.
Qed.

Lemma move_aliens_arena (inp : Input) (g : Game) :
  active g → arena_at_rest g → arena_moved (move_aliens inp g).
Proof.
  intros [Hgo _] ([Hp Hship Hpbs Habs Hsw] & [n Hsp] & Hland).
  specialize (Hland Hgo).
  destruct (move_aliens_fields inp g)
    as (Hpl & Hpbs' & Habs' & _ & _ & _ & _ & _ & _ & _ & Ha).
  destruct Hsw as (dx & dy & d & Hids & Hd & Hdy & Hmod & Hform).
  pose proof (move_aliens_ids inp g) as Hids'.
  assert (Forall (in_formation (dx + n * d) dy d)
            (Alien_update (current_time inp) (Int n) <$> aliens g)) as Hmoved.
  { apply Forall_fmap. eapply Forall_impl; [exact Hform|].
    intros a. apply Alien_update_formation. }
  assert (Forall (λ a, bottom (alien_rect a) < 560)
            (Alien_update (current_time inp) (Int n) <$> aliens g)) as Hhigh.
  { apply Forall_fmap. eapply Forall_impl; [exact Hland|]. by intros a. }
  rewrite Hsp in Ha.
  split; [split|]; rewrite ?Hpl, ?Hpbs', ?Habs'; try done.
  - rewrite Ha. case_decide; [|by exists dx, dy, d].
    destruct (dropping inp g).
    + exists (dx + n * d), (dy + ALIEN_DROP), (- d).
      unfold swarm. rewrite <- Ha, Hids'. split_and!; try done.
      * destruct Hd as [-> | ->]; [by right|by left].
      * unfold ALIEN_DROP. lia.
      * rewrite <- (Z.mul_1_l ALIEN_DROP) at 1. by rewrite Z.mod_add.
      * rewrite Ha. apply Forall_fmap. eapply Forall_impl; [exact Hmoved|].
        intros a. apply drop_alien_formation.
    + exists (dx + n * d), dy, d.
      unfold swarm. rewrite <- Ha at 1. rewrite Hids'. by split_and!.
  - rewrite Ha. case_decide.
    2:{ eapply Forall_impl; [exact Hland|]. intros a. cbn. lia. }
    destruct (dropping inp g).
    + apply Forall_fmap. eapply Forall_impl; [exact Hhigh|]. intros a.
      unfold bottom, drop_alien, ALIEN_DROP. cbn. lia.
    + eapply Forall_impl; [exact Hhigh|]. intros a. cbn. lia.
Qed.

Lemma asked_formation (inp : Input) (dx dy d : Z) (a : Alien) :
  in_formation dx dy d a → in_formation dx dy d (asked inp a).
Proof.
  destruct (asked_fields inp a) as (Hid & Hrect & Hdir).
  unfold in_formation. by rewrite Hid, Hrect, Hdir.
Qed.

Lemma slot_bottom (id : nat) (dx dy : Z) :
  0 ≤ dy → 80 ≤ bottom (slot id dx dy).
Proof.
  intros Hdy. unfold bottom, slot. cbn.
  pose proof (Z.div_pos (Z.of_nat id) ALIEN_COLS ltac:(lia) ltac:(done)).
  unfold ALIEN_HEIGHT. lia.
Qed.

Lemma aliens_shoot_arena (inp : Input) (g g' : Game) :
  arena_moved g → aliens_shoot inp g = Some g' → arena_moved g'.
Proof.
  intros ([Hp Hship Hpbs Habs Hsw] & Hlow) Hshoot.
  destruct (aliens_shoot_fields inp g)
    as (g2 & Hg2 & Hpl & Hpbs' & _ & _ & _ & _ & _ & _ & _ & _ & Ha & Hshot).
  assert (g2 = g') as -> by congruence.
  pose proof (aliens_shoot_ids inp g g' Hshoot) as Hids.
  destruct Hsw as (dx & dy & d & Hsub & Hd & Hdy & Hmod & Hform).
  split; [split|]; rewrite ?Hpl, ?Hpbs'; try done.
  - destruct Hshot as [(_ & -> & _)|(_ & a & Hin & _ & -> & _)]; [done|].
    apply bullet_group_add_Forall; [|done].
    rewrite Forall_forall in Hform, Hlow.
    destruct (Hform a Hin) as [Hrect _]. specialize (Hlow a Hin).
    pose proof (slot_bottom (alien_id a) dx dy Hdy) as Hb.
    rewrite <- Hrect in Hb.
    unfold alien_shot_ok, alien_shot, Bullet_init. cbn.
    unfold SCREEN_HEIGHT. split_and!; try done; lia.
  - exists dx, dy, d. unfold swarm. rewrite Hids. split_and!; try done.
    rewrite Ha. case_decide; [|done].
    apply Forall_fmap. eapply Forall_impl; [exact Hform|].
    intros a. apply asked_formation.
  - rewrite Ha. case_decide; [|done].
    apply Forall_fmap. eapply Forall_impl; [exact Hlow|].
    intros a. cbn. by destruct (asked_fields inp a) as (_ & -> & _).
Qed.

Lemma resolve_arena (g : Game) : arena_moved g → arena_at_rest (resolve g).
Proof.
  intros ([Hp Hship Hpbs Habs Hsw] & Hlow).
  destruct (check_collisions_eq (player g) (player_bullets g) (alien_bullets g)
              (aliens g) (score g)) as (Hpl & Hpbs' & Hals & _ & _ & Habs').
  destruct (hit_aliens_player (player_bullets g) (player g) (player_bullets g)
              (aliens g) (score g)) as (Hrect & Hspeed & _).
  destruct (hit_aliens_sublist (player_bullets g) (player g) (player_bullets g)
              (aliens g) (score g)) as [Hsubp Hsuba].
  rewrite <- Hpl in Hrect, Hspeed. rewrite <- Hpbs' in Hsubp.
  rewrite <- Hals in Hsuba.
  assert (player_ok (c_player (check_collisions (player g) (player_bullets g)
                                 (alien_bullets g) (aliens g) (score g)))) as Hp'
    by by eapply player_ok_same.
  unfold arena_at_rest, resolve.
  set (c := check_collisions _ _ _ _ _) in *.
  set (pl1 := if c_player_hit c && negb (bool_decide _) then _ else _).
  assert (player_ok pl1 ∧ y (player_rect pl1) = 560 ∧ h (player_rect pl1) = 30)
    as (Hp1 & Hy1 & Hh1).
  { unfold pl1. destruct (_ && _); [|by rewrite Hrect].
    destruct Hp' as (Hs & Hw & _). rewrite Hrect in Hw.
    unfold player_ok, left, right. cbn. rewrite Hs, Hrect, Hw.
    split_and!; try apply Hship; by vm_compute. }
  split; [split|split]; cbn.
  - done.
  - done.
  - by eapply sublist_Forall.
  - rewrite Habs'. eapply sublist_Forall; [apply hit_player_sublist|done].
  - destruct Hsw as (dx & dy & d & Hsub & Hd & Hdy & Hmod & Hform).
    exists dx, dy, d. unfold swarm. split_and!; try done.
    + etrans; [|exact Hsub]. by apply fmap_sublist.
    + by eapply sublist_Forall.
  - by eexists.
  - destruct (bool_decide (Exists _ (c_aliens c))) eqn:Hland; [done|].
    intros _. apply bool_decide_eq_false in Hland.
    apply not_Exists_Forall in Hland; [|apply _].
    eapply Forall_impl; [exact Hland|]. intros a. unfold top. cbn. lia.
Qed.

Lemma game_arena (g : Game) : reachable g → arena_at_rest g.
Proof.
  apply (reachable_invariant arena_at_rest arena_moved).
  - apply start_arena.
  - apply handle_event_arena.
  - intros inp g1 _. apply move_player_and_bullets_arena.
  - apply move_aliens_arena.
  - intros inp g1 g2 _. apply aliens_shoot_arena.
  - intros g1 _. apply resolve_arena.
Qed.

(** The columns of the formation are 10 apart, and so are its rows: what is
    at most 10 wide and 10 high touches one alien at most. *)
Lemma formation_apart (dx dy d : Z) (r : Rect) (a a' : Alien) :
  in_formation dx dy d a → in_formation dx dy d a' →
  0 < w r ≤ 10 → 0 < h r ≤ 10 →
  colliderect r (alien_rect a) → colliderect r (alien_rect a') →
  alien_id a = alien_id a'.
Proof.
  intros [Hrect _] [Hrect' _] Hw Hh. rewrite Hrect, Hrect'.
  unfold colliderect, slot. cbn.
  unfold ALIEN_COLS, ALIEN_WIDTH, ALIEN_HEIGHT.
  pose proof (Z.div_mod (Z.of_nat (alien_id a)) 10 ltac:(lia)) as Hi.
  pose proof (Z.div_mod (Z.of_nat (alien_id a')) 10 ltac:(lia)) as Hi'.
  pose proof (Z.mod_pos_bound (Z.of_nat (alien_id a)) 10 ltac:(lia)) as Hc.
  pose proof (Z.mod_pos_bound (Z.of_nat (alien_id a')) 10 ltac:(lia)) as Hc'.
  intros (_ & H1 & H2 & H3 & H4) (_ & H1' & H2' & H3' & H4').
  assert (Z.of_nat (alien_id a) `mod` 10 = Z.of_nat (alien_id a') `mod` 10)
    as Hcol by lia.
  assert (Z.of_nat (alien_id a) `div` 10 = Z.of_nat (alien_id a') `div` 10)
    as Hrow by lia.
  lia.
Qed.

(** Two aliens of the formation do not overlap. *)
Lemma formation_disjoint (dx dy d : Z) (a a' : Alien) :
  in_formation dx dy d a → in_formation dx dy d a' →
  colliderect (alien_rect a) (alien_rect a') →
  alien_id a = alien_id a'.
Proof.
  intros [Hrect _] [Hrect' _]. rewrite Hrect, Hrect'.
  unfold colliderect, slot. cbn.
  unfold ALIEN_COLS, ALIEN_WIDTH, ALIEN_HEIGHT.
  pose proof (Z.div_mod (Z.of_nat (alien_id a)) 10 ltac:(lia)) as Hi.
  pose proof (Z.div_mod (Z.of_nat (alien_id a')) 10 ltac:(lia)) as Hi'.
  pose proof (Z.mod_pos_bound (Z.of_nat (alien_id a)) 10 ltac:(lia)) as Hc.
  pose proof (Z.mod_pos_bound (Z.of_nat (alien_id a')) 10 ltac:(lia)) as Hc'.
  intros (_ & H1 & H2 & H3 & H4).
  assert (Z.of_nat (alien_id a) `mod` 10 = Z.of_nat (alien_id a') `mod` 10)
    as Hcol by lia.
  assert (Z.of_nat (alien_id a) `div` 10 = Z.of_nat (alien_id a') `div` 10)
    as Hrow by lia.
  lia.
Qed.

(** X20: in every state of a run the aliens that are left stand in the
    grid [setup_aliens] put them in, moved as a whole by some [dx] and by
    [dy], a whole number of drops, and they all head the same way.  So no
    two aliens overlap, and a rectangle at most 10 wide and 10 high (a
    bullet is 3 by 10) overlaps one alien at most. *)
Theorem aliens_keep_formation (g : Game) :
  reachable g →
  ∃ dx dy d,
    (d = 1 ∨ d = -1) ∧ 0 ≤ dy ∧ dy `mod` ALIEN_DROP = 0 ∧
    (∀ a, a ∈ aliens g →
       (alien_id a < 50)%nat ∧
       alien_rect a = slot (alien_id a) dx dy ∧ alien_direction a = d) ∧
    (∀ a a', a ∈ aliens g → a' ∈ aliens g →
       colliderect (alien_rect a) (alien_rect a') → a = a') ∧
    (∀ r a a', 0 < w r ≤ 10 → 0 < h r ≤ 10 →
       a ∈ aliens g → a' ∈ aliens g →
       colliderect r (alien_rect a) → colliderect r (alien_rect a') → a = a').
Proof.
  intros ([_ _ _ _ (dx & dy & d & Hsub & Hd & Hdy & Hmod & Hform)] & _)%game_arena.
  pose proof (sublist_NoDup _ _ (NoDup_seq 0 50) Hsub) as Hnd.
  rewrite Forall_forall in Hform.
  exists dx, dy, d. split_and!; try done.
  - intros a Ha. destruct (Hform a Ha) as [Hrect Hdir]. split_and!; try done.
    assert (alien_id a ∈ seq 0 50) as Hin%elem_of_seq; [|lia].
    eapply elem_of_sublist; [|exact Hsub]. apply list_elem_of_fmap. eauto.
  - intros a a' Ha Ha' Hcol. apply (same_id_same_alien (aliens g)); try done.
    apply (formation_disjoint dx dy d); auto.
  - intros r a a' Hw Hh Ha Ha' Hcol Hcol'.
    apply (same_id_same_alien (aliens g)); try done.
    apply (formation_apart dx dy d r); auto.
Qed.

(** The aliens after a shot that destroyed one of them. *)
Lemma aliens_keep_formation_witness :
  ∃ dx dy d,
    (d = 1 ∨ d = -1) ∧ 0 ≤ dy ∧ dy `mod` ALIEN_DROP = 0 ∧
    (∀ a, a ∈ aliens first_alien_down →
       (alien_id a < 50)%nat ∧
       alien_rect a = slot (alien_id a) dx dy ∧ alien_direction a = d) ∧
    (∀ a a', a ∈ aliens first_alien_down → a' ∈ aliens first_alien_down →
       colliderect (alien_rect a) (alien_rect a') → a = a') ∧
    (∀ r a a', 0 < w r ≤ 10 → 0 < h r ≤ 10 →
       a ∈ aliens first_alien_down → a' ∈ aliens first_alien_down →
       colliderect r (alien_rect a) → colliderect r (alien_rect a') → a = a').
Proof.
  apply (aliens_keep_formation first_alien_down), first_alien_down_reachable.
Defined.

(** X21: in every state of a run a bullet of the player heads up and a
    bullet of an alien heads down, both have the speed and the size
    [Bullet.__init__] gave them, and both are on the screen: a bullet of the
    player between the top of the screen and the top of the ship and within
    the width of the screen, a bullet of an alien with its top between 80
    and the bottom of the screen.  A bullet of the player overlaps one alien
    at most. *)
Theorem bullets_in_flight (g : Game) :
  reachable g →
  (∀ b, b ∈ player_bullets g →
     bullet_direction b = -1 ∧ bullet_speed b = BULLET_SPEED ∧
     w (bullet_rect b) = BULLET_WIDTH ∧ h (bullet_rect b) = BULLET_HEIGHT ∧
     0 ≤ left (bullet_rect b) ∧ right (bullet_rect b) ≤ SCREEN_WIDTH ∧
     0 ≤ bottom (bullet_rect b) ∧
     top (bullet_rect b) ≤ top (player_rect (player g))) ∧
  (∀ b, b ∈ alien_bullets g →
     bullet_direction b = 1 ∧ bullet_speed b = BULLET_SPEED ∧
     w (bullet_rect b) = BULLET_WIDTH ∧ h (bullet_rect b) = BULLET_HEIGHT ∧
     80 ≤ top (bullet_rect b) ≤ SCREEN_HEIGHT) ∧
  (∀ b a a', b ∈ player_bullets g → a ∈ aliens g → a' ∈ aliens g →
     colliderect (bullet_rect b) (alien_rect a) →
     colliderect (bullet_rect b) (alien_rect a') → a = a').
Proof.
  intros ([_ [Hy _] Hpbs Habs (dx & dy & d & Hsub & _ & _ & _ & Hform)] & _)%game_arena.
  pose proof (sublist_NoDup _ _ (NoDup_seq 0 50) Hsub) as Hnd.
  rewrite Forall_forall in Hpbs. rewrite Forall_forall in Habs.
  rewrite Forall_forall in Hform.
  split_and!.
  - intros b (Hd & Hs & Hw & Hh & Hx & Hby & _)%Hpbs.
    unfold left, right, bottom, top. rewrite Hw, Hh, Hy.
    unfold BULLET_WIDTH, BULLET_HEIGHT, SCREEN_WIDTH. split_and!; try done; lia.
  - intros b (Hd & Hs & Hw & Hh & Hby)%Habs. unfold top.
    split_and!; try done; lia.
  - intros b a a' (_ & _ & Hw & Hh & _)%Hpbs Ha Ha' Hcol Hcol'.
    apply (same_id_same_alien (aliens g)); try done.
    apply (formation_apart dx dy d (bullet_rect b)); auto.
    + rewrite Hw. by vm_compute.
    + rewrite Hh. by vm_compute.
Qed.

Lemma bullets_in_flight_witness :
  (∀ b, b ∈ player_bullets after_three_presses →
     bullet_direction b = -1 ∧ bullet_speed b = BULLET_SPEED ∧
     w (bullet_rect b) = BULLET_WIDTH ∧ h (bullet_rect b) = BULLET_HEIGHT ∧
     0 ≤ left (bullet_rect b) ∧ right (bullet_rect b) ≤ SCREEN_WIDTH ∧
     0 ≤ bottom (bullet_rect b) ∧
     top (bullet_rect b) ≤ top (player_rect (player after_three_presses))) ∧
  (∀ b, b ∈ alien_bullets after_three_presses →
     bullet_direction b = 1 ∧ bullet_speed b = BULLET_SPEED ∧
     w (bullet_rect b) = BULLET_WIDTH ∧ h (bullet_rect b) = BULLET_HEIGHT ∧
     80 ≤ top (bullet_rect b) ≤ SCREEN_HEIGHT) ∧
  (∀ b a a', b ∈ player_bullets after_three_presses →
     a ∈ aliens after_three_presses → a' ∈ aliens after_three_presses →
     colliderect (bullet_rect b) (alien_rect a) →
     colliderect (bullet_rect b) (alien_rect a') → a = a').
Proof.
  apply (bullets_in_flight after_three_presses), after_three_presses_reachable.
Defined.

(** ** The shots of the aliens, and the keys of the player *)

(** X22: the part of a frame in which the aliens shoot never fails on a
    group of different aliens.  When the global cooldown has run out it
    asks every alien, which restarts the timer of every alien whose delay
    has run out, whether or not that alien gets to shoot.  At most one
    bullet is added to [alien_bullets]; the alien that shoots it had its
    delay run out and no alien of the same [rect.x] is lower; the bullet
    starts at the middle of the bottom of that alien, heading down, and
    [last_alien_shot] is set to the time of the frame. *)
Theorem one_alien_shoots (inp : Input) (g : Game) :
  NoDup (alien_id <$> aliens g) →
  ∃ g', aliens_shoot inp g = Some g' ∧
    aliens g' =
      (if decide (current_time inp - last_alien_shot g > global_alien_shot_cooldown)
       then (λ a, (should_shoot (current_time inp) (new_delay inp (alien_id a)) a).1)
              <$> aliens g
       else aliens g) ∧
    (length (alien_bullets g') ≤ length (alien_bullets g) + 1)%nat ∧
    ((alien_bullets g' = alien_bullets g ∧
      last_alien_shot g' = last_alien_shot g) ∨
     (∃ a, a ∈ aliens g ∧
           current_time inp - last_alien_shot g > global_alien_shot_cooldown ∧
           current_time inp - last_shot a > shot_delay a ∧
           (∀ a', a' ∈ aliens g → x (alien_rect a') = x (alien_rect a) →
                  y (alien_rect a') ≤ y (alien_rect a)) ∧
           alien_bullets g' =
             bullet_group_add
               (Bullet_init (next_id g) (centerx (alien_rect a))
                            (bottom (alien_rect a)) 1)
               (alien_bullets g) ∧
           last_alien_shot g' = current_time inp)).
Proof.
  intros Hnd.
  destruct (aliens_shoot_fields inp g)
    as (g' & Hg' & _ & _ & _ & _ & _ & _ & _ & _ & _ & _ & Ha & Hshot).
  exists g'. split_and!; try done.
  - destruct Hshot as [(_ & -> & _)|(_ & a & _ & _ & -> & _)]; [lia|].
    unfold bullet_group_add. destruct (decide (_ ∈ _)); [lia|].
    rewrite length_app. cbn. lia.
  - destruct Hshot as [(_ & Hb & _ & Hl)|(Hcool & a & Hin & [Hexp Hlow] & Hb & _ & Hl)];
      [by left|right].
    exists a. split_and!; try done.
    by apply lowest_id_spec.
Qed.

(** At the time 3000 every delay of the first state has run out; the
    lowest aliens of the ten columns are on the list, and the generator
    picks the one of column 7. *)
Lemma one_alien_shoots_witness :
  ∃ g', aliens_shoot (at_time 3000 []) first_state = Some g' ∧
    aliens g' =
      (if decide (current_time (at_time 3000 []) - last_alien_shot first_state
                  > global_alien_shot_cooldown)
       then (λ a, (should_shoot (current_time (at_time 3000 []))
                     (new_delay (at_time 3000 []) (alien_id a)) a).1)
              <$> aliens first_state
       else aliens first_state) ∧
    (length (alien_bullets g') ≤ length (alien_bullets first_state) + 1)%nat ∧
    ((alien_bullets g' = alien_bullets first_state ∧
      last_alien_shot g' = last_alien_shot first_state) ∨
     (∃ a, a ∈ aliens first_state ∧
           current_time (at_time 3000 []) - last_alien_shot first_state
             > global_alien_shot_cooldown ∧
           current_time (at_time 3000 []) - last_shot a > shot_delay a ∧
           (∀ a', a' ∈ aliens first_state →
                  x (alien_rect a') = x (alien_rect a) →
                  y (alien_rect a') ≤ y (alien_rect a)) ∧
           alien_bullets g' =
             bullet_group_add
               (Bullet_init (next_id first_state) (centerx (alien_rect a))
                            (bottom (alien_rect a)) 1)
               (alien_bullets first_state) ∧
           last_alien_shot g' = current_time (at_time 3000 []))).
Proof.
  apply (one_alien_shoots (at_time 3000 []) first_state). by_decision.
Defined.

Example lowest_alien_of_column_7_shoots :
  (λ g', (bullet_rect <$> alien_bullets g', last_shot <$> aliens g'))
    <$> aliens_shoot (at_time 3000 []) first_state =
  Some ([mkRect 419 240 3 10], replicate 50 3000).
Proof. by vm_compute. Qed.

(** X23: for a ship that is where a run leaves it (on a multiple of 5
    between 0 and 750), [Player.update] moves it by 5 to the left with the
    left key and to the right with the right key, stopping at 0 and at 750.
    With both keys held the ship stays where it is, except at the left edge,
    where the left key does nothing and the right key moves it to 5.
    Nothing else of the player changes. *)
Theorem Player_update_clamps (kl kr : bool) (pl : Player) :
  player_ok pl →
  x (player_rect (Player_update kl kr pl)) =
    match kl, kr with
    | false, false => x (player_rect pl)
    | true, false => Z.max 0 (x (player_rect pl) - PLAYER_SPEED)
    | false, true =>
        Z.min (SCREEN_WIDTH - PLAYER_WIDTH) (x (player_rect pl) + PLAYER_SPEED)
    | true, true =>
        if decide (x (player_rect pl) = 0) then PLAYER_SPEED
        else x (player_rect pl)
    end ∧
  y (player_rect (Player_update kl kr pl)) = y (player_rect pl) ∧
  w (player_rect (Player_update kl kr pl)) = w (player_rect pl) ∧
  h (player_rect (Player_update kl kr pl)) = h (player_rect pl) ∧
  player_speed (Player_update kl kr pl) = player_speed pl ∧
  bullets (Player_update kl kr pl) = bullets pl ∧
  max_bullets (Player_update kl kr pl) = max_bullets pl.
Proof.
  intros (Hs & Hw & Hm & Hl & Hr). split; [|apply Player_update_fields].
  pose proof (Z.div_mod (x (player_rect pl)) 5 ltac:(lia)) as Hdiv.
  unfold PLAYER_SPEED, PLAYER_WIDTH, SCREEN_WIDTH, left, right in *.
  rewrite Hm in Hdiv. unfold Player_update.
  destruct kl, kr; cbn [andb]; unfold left, right, SCREEN_WIDTH;
    repeat case_bool_decide; repeat case_decide; cbn; rewrite ?Hs, ?Hw in *;
    cbn in *; lia.
Qed.

Lemma Player_update_clamps_witness :
  x (player_rect (Player_update true true Player_init)) =
    (if decide (x (player_rect Player_init) = 0) then PLAYER_SPEED
     else x (player_rect Player_init)) ∧
  y (player_rect (Player_update true true Player_init)) = y (player_rect Player_init) ∧
  w (player_rect (Player_update true true Player_init)) = w (player_rect Player_init) ∧
  h (player_rect (Player_update true true Player_init)) = h (player_rect Player_init) ∧
  player_speed (Player_update true true Player_init) = player_speed Player_init ∧
  bullets (Player_update true true Player_init) = bullets Player_init ∧
  max_bullets (Player_update true true Player_init) = max_bullets Player_init.
Proof. apply (Player_update_clamps true true Player_init). by vm_compute. Defined.

(** ** What one frame can change *)

(** The counts of a state [g0] before anything is hit. *)
Definition same_counts (g0 g : Game) : Prop :=
  alien_id <$> aliens g = alien_id <$> aliens g0 ∧
  score g = score g0 ∧ lives g = lives g0 ∧
  player_ok (player g) ∧ bullets_ok (player g) (player_bullets g).

(** What the end of the frame may have changed. *)
Definition few_changes (g0 g : Game) : Prop :=
  (length (aliens g) ≤ length (aliens g0) ≤ length (aliens g) + 2)%nat ∧
  score g = score g0 +
            10 * (Z.of_nat (length (aliens g0)) - Z.of_nat (length (aliens g))) ∧
  lives g0 - 1 ≤ lives g ≤ lives g0.

(** Every bullet destroys one alien at most. *)
Lemma hit_aliens_count (todo : list Bullet) :
  ∀ (pl : Player) (pbs : list Bullet) (als : list Alien) (sc : Z),
    NoDup (alien_id <$> als) →
    (length als ≤ length (hit_aliens todo pl pbs als sc).1.2 + length todo)%nat.
Proof.
  induction todo as [|b rest IH]; intros pl pbs als sc Hnd;
    cbn [hit_aliens length fst snd]; [lia|].
  destruct (spritecollideany b als) as [a|] eqn:Hhit.
  - apply spritecollideany_Some in Hhit as [Ha _].
    pose proof (alien_group_remove_length a als Hnd Ha) as Hlen.
    specialize (IH (set_bullets (discard (bullet_id b) (bullets pl)) pl)
                   (bullet_group_remove (bullet_id b) pbs)
                   (alien_group_remove (alien_id a) als) (sc + 10)
                   (alien_group_remove_NoDup _ _ Hnd)).
    lia.
  - specialize (IH pl pbs als sc Hnd). lia.
Qed.

Lemma same_counts_keeps (g0 g g' : Game) :
  keeps g g' →
  alien_id <$> aliens g' = alien_id <$> aliens g →
  score g' = score g → lives g' = lives g →
  same_counts g0 g → same_counts g0 g'.
Proof.
  intros [Hk _] Hids Hs Hl (Hids0 & Hs0 & Hl0 & Hp & Hb).
  destruct (Hk (conj Hp Hb)) as [Hp' Hb'].
  unfold same_counts. split_and!; try done; congruence.
Qed.

Lemma resolve_few_changes (g0 g : Game) :
  NoDup (alien_id <$> aliens g0) → same_counts g0 g → few_changes g0 (resolve g).
Proof.
  intros Hnd (Hids & Hs & Hl & Hp & Hb). rewrite <- Hids in Hnd.
  assert (length (aliens g0) = length (aliens g)) as Hlen.
  { apply (f_equal length) in Hids. by rewrite !length_fmap in Hids. }
  destruct (check_collisions_eq (player g) (player_bullets g) (alien_bullets g)
              (aliens g) (score g)) as (_ & _ & Hals & Hsc & _).
  pose proof (hit_aliens_score (player_bullets g) (player g) (player_bullets g)
                (aliens g) (score g) Hnd) as Hscore.
  pose proof (hit_aliens_count (player_bullets g) (player g) (player_bullets g)
                (aliens g) (score g) Hnd) as Hcount.
  destruct (hit_aliens_sublist (player_bullets g) (player g) (player_bullets g)
              (aliens g) (score g)) as [_ Hsub%sublist_length].
  apply bullets_ok_length in Hb.
  rewrite <- Hals in Hscore, Hcount, Hsub. rewrite <- Hsc in Hscore.
  unfold few_changes, resolve.
  set (c := check_collisions _ _ _ _ _) in *. cbn.
  split_and!; try lia; destruct (c_player_hit c); lia.
Qed.

Lemma frame_few_changes (inp : Input) (g g' : Game) :
  inv g → frame inp g = Some g' → few_changes g g'.
Proof.
  intros [Hp Hb Hsub _].
  pose proof (sublist_NoDup _ _ (NoDup_seq 0 50) Hsub) as Hnd.
  apply (frame_step (same_counts g) (same_counts g) (few_changes g)).
  - intros ev g1.
    destruct (handle_event_keeps ev g1) as (Hk & _ & Ha & _).
    destruct (handle_event_fields ev g1) as (_ & _ & Hs & Hl & _).
    apply same_counts_keeps; try done. by rewrite Ha.
  - intros inp1 g1 _.
    destruct (move_player_and_bullets_keeps inp1 g1) as [Hk _].
    destruct (move_player_and_bullets_fields inp1 g1)
      as (_ & _ & _ & Ha & Hs & Hl & _).
    apply same_counts_keeps; try done. by rewrite Ha.
  - intros inp1 g1 _.
    destruct (move_aliens_keeps inp1 g1) as [Hk _].
    destruct (move_aliens_fields inp1 g1) as (_ & _ & _ & Hs & Hl & _).
    apply same_counts_keeps; try done. apply move_aliens_ids.
  - intros inp1 g1 g2 _ Hsame Hshoot.
    destruct (aliens_shoot_keeps inp1 g1) as (g2' & Hg2 & Hk & _).
    destruct (aliens_shoot_fields inp1 g1) as (g2'' & Hg2' & _ & _ & Hs & Hl & _).
    assert (g2' = g2) as -> by congruence.
    assert (g2'' = g2) as -> by congruence.
    apply (same_counts_keeps g g1); try done. by eapply aliens_shoot_ids.
  - intros g1 _. by apply resolve_few_changes.
  - intros g1 _ (Hids & Hs & Hl & _).
    assert (length (aliens g1) = length (aliens g)) as Hlen.
    { apply (f_equal length) in Hids. by rewrite !length_fmap in Hids. }
    unfold few_changes. rewrite Hlen, Hs, Hl. lia.
  - unfold same_counts. by split_and!.
Qed.

(** X24: a frame that starts in a state of a run completes, and changes
    the counts by little: it destroys two aliens at most (the player has two
    bullets at most, and a bullet destroys one alien), it adds 10 points for
    every alien it destroys and nothing else, and it takes one life at most,
    however many bullets of the aliens touch the ship.  [game_over] and
    [win], once set, stay set. *)
Theorem frame_changes_little (inp : Input) (g : Game) :
  reachable g →
  ∃ g', frame inp g = Some g' ∧
    (length (aliens g') ≤ length (aliens g) ≤ length (aliens g') + 2)%nat ∧
    score g' = score g +
               10 * (Z.of_nat (length (aliens g)) - Z.of_nat (length (aliens g'))) ∧
    lives g - 1 ≤ lives g' ≤ lives g ∧
    (game_over g = true → game_over g' = true) ∧
    (win g = true → win g' = true).
Proof.
  intros Hinv%invaders_reachable_inv.
  destruct (frame_keeps inp g) as (g' & Hframe & _).
  exists g'. split; [done|].
  destruct (frame_few_changes inp g g' Hinv Hframe) as (Hlen & Hscore & Hlives).
  assert (game_over g = true ∨ win g = true →
          game_over g' = game_over g ∧ win g' = win g) as Hflags.
  { intros Hend. unfold frame in Hframe.
    rewrite handle_events_ended, update_ended in Hframe by done.
    by injection Hframe as <-. }
  split_and!; try lia.
  - intros Hgo. destruct Hflags as [-> _]; auto.
  - intros Hwin. destruct Hflags as [_ ->]; auto.
Qed.

Lemma frame_changes_little_witness :
  ∃ g', frame (at_time 12000 [KEYDOWN K_SPACE]) first_alien_down = Some g' ∧
    (length (aliens g') ≤ length (aliens first_alien_down)
       ≤ length (aliens g') + 2)%nat ∧
    score g' = score first_alien_down +
               10 * (Z.of_nat (length (aliens first_alien_down)) -
                     Z.of_nat (length (aliens g'))) ∧
    lives first_alien_down - 1 ≤ lives g' ≤ lives first_alien_down ∧
    (game_over first_alien_down = true → game_over g' = true) ∧
    (win first_alien_down = true → win g' = true).
Proof.
  apply (frame_changes_little (at_time 12000 [KEYDOWN K_SPACE]) first_alien_down),
    first_alien_down_reachable.
Defined.

End InvadersMore.

(** * What the shooter draws *)

Module InvadersDraw.
Import Invaders.

Inductive Color : Type := BLACK | WHITE | GREEN | RED.

(** The texts the program renders. *)
Inductive Label : Type :=
  | ScoreLabel (score : Z)
  | LivesLabel (lives : Z)
  | GameOverLabel
  | YouWinLabel.

(** The calls on the screen: [fill], the [blit] of the image of a sprite
    (a surface filled with one colour) at its rectangle, the [blit] of a
    rendered text at a position or centred on a point, and [flip]. *)
Inductive Draw : Type :=
  | Fill (color : Color)
  | BlitImage (color : Color) (rect : Rect)
  | BlitText (text : Label) (color : Color) (left top : Z)
  | BlitCentered (text : Label) (color : Color) (centerx centery : Z)
  | Flip.




End InvadersDraw.

Module InvadersDrawSpec.
Import Invaders InvadersSpec InvadersMore InvadersDraw.

(** The image of an alien. *)
Definition alien_image (d : Draw) : Prop :=
  match d with
  | BlitImage RED _ => True
  | _ => False
  end.

#[global] Instance alien_image_dec d : Decision (alien_image d).
Proof. destruct d as [|[] ?| | |]; cbn; apply _. Defined.







End InvadersDrawSpec.
